(** * Thread (src/thread.ts): pause state, script table and source maps

    A shallow embedding of the [Thread] class of the debugger, and the
    properties of its life cycle, its script table and its source-map
    resolution.

    Conventions of the embedding
    - JavaScript objects that are mutated in place and handed out by
      reference (the [Map] behind [_scripts]) live in an explicit store and
      are named by locations; everything else is passed as state.
    - Calls on collaborators (the protocol client, the source container,
      the observers of the thread, the debug log) are recorded, in order,
      as a list of [Effect]s.
    - An exception that leaves a method or a closure is recorded as the
      last of its [Effect]s; the statements after the one that throws do
      not run.
    - A value of TypeScript type [T | undefined], which the code also sets
      to [null], is a [Nullable T]. *)

From Stdlib Require Import ZArith.
From stdpp Require Import base list strings pretty gmap.

Local Open Scope Z_scope.

(** ** JavaScript data *)

(** The number type, on the values a counter that starts at [0] and is only
    ever incremented can take, which are the integers from [0] to [2^53].
    Numbers are IEEE doubles: every integer up to [2^53] is exact, and
    [2^53 + 1] is not a double, it rounds (ties to even) back to [2^53], so
    [++] no longer moves the counter there. *)
Definition MAX_EXACT : Z := 2 ^ 53.

Definition js_incr (n : Z) : Z :=
  if n <? MAX_EXACT then n + 1 else n.

(** [T | undefined | null]. *)
Inductive Nullable (A : Type) : Type :=
| JsUndefined
| JsNull
| JsValue (a : A).
Arguments JsUndefined {A}.
Arguments JsNull {A}.
Arguments JsValue {A} a.

(** No value is there: the field reads [undefined] or [null]. *)
Definition is_absent {A} (v : Nullable A) : bool :=
  match v with
  | JsValue _ => false
  | _ => true
  end.

(** Truthiness of a string, and of a [string | undefined]. *)
Definition truthy (s : string) : bool := negb (String.eqb s "").

Definition truthy_opt (o : option string) : bool :=
  match o with
  | Some s => truthy s
  | None => false
  end.

(** ** Protocol payloads (devtools-protocol) *)

(** [Protocol.Debugger.PausedEvent]; the thread stores it whole and never
    looks inside. *)
Record PausedEvent := {
  reason : string;
  callFrames : list string;
  hitBreakpoints : list string
}.

(** [Protocol.Debugger.ScriptParsedEvent], the fields the thread reads. *)
Record ScriptParsedEvent := {
  scriptId : string;
  url : string;
  sourceMapURL : option string
}.

(** ** Collaborators *)

(** Modelled from the spec: the [Source] class (./source) is not part of
    the sources at hand.  [Source.createWithContentGetter(url, getter)]
    makes a new handle, an object with its own identity, that keeps the
    readable url and the deferred content getter; the getter made by the
    thread fetches the script text by script id when it is first called. *)
Record Source := {
  sourceRef : nat;
  sourceUrl : string;
  contentScriptId : string
}.

Global Instance Source_eq_dec : EqDecision Source.
Proof. solve_decision. Defined.

Inductive Domain := Runtime | Debugger.

Global Instance Domain_eq_dec : EqDecision Domain.
Proof. solve_decision. Defined.

(** The four closures [initialize] hands to the protocol client. *)
Inductive Listener :=
| OnExecutionContextsCleared
| OnPaused
| OnResumed
| OnScriptParsed.

Global Instance Listener_eq_dec : EqDecision Listener.
Proof. solve_decision. Defined.

(** The protocol domain an event name belongs to. *)
Definition listener_domain (l : Listener) : Domain :=
  match l with
  | OnExecutionContextsCleared => Runtime
  | _ => Debugger
  end.

(** One-shot commands on the transport. *)
Inductive Command :=
| RuntimeEnable
| DebuggerEnable
| DebuggerResume
| DebuggerGetScriptSource (id : string).

(** The domain a command activates, if it is an activation. *)
Definition activates (c : Command) : option Domain :=
  match c with
  | RuntimeEnable => Some Runtime
  | DebuggerEnable => Some Debugger
  | _ => None
  end.

(** Modelled from the spec: the [Target] class (./targetManager) is not
    part of the sources at hand.  The thread reads its current document
    url, subscribes listeners on its protocol client and activates domains
    on it. *)
Record Target := {
  targetUrl : string;
  listeners : list Listener;
  activated : list Domain
}.

(** ** The [Map] behind [_scripts] *)

(** A JavaScript [Map<string, Source>]: keys are unique and iteration is in
    insertion order; [set] on a key that is there replaces the value where
    it stands. *)
Module JsMap.

Definition t := list (string * Source).

Definition empty : t := [].

Fixpoint get (k : string) (m : t) : option Source :=
  match m with
  | [] => None
  | (k', v) :: rest => if String.eqb k' k then Some v else get k rest
  end.

Fixpoint set (k : string) (v : Source) (m : t) : t :=
  match m with
  | [] => [(k, v)]
  | (k', v') :: rest =>
      if String.eqb k' k then (k', v) :: rest else (k', v') :: set k v rest
  end.

Definition keys (m : t) : list string := m.*1.

Definition values (m : t) : list Source := m.*2.

Definition clear (m : t) : t := [].

End JsMap.

(** ** State *)

Inductive ThreadEvent := ThreadNameChanged | ThreadPaused | ThreadResumed.

(** What is shared by the whole process: the static counter of the class,
    the store of [Map] objects, the identities given to new [Source]
    objects, and the engine the process runs on, of which one number
    matters here: how many arguments it takes in one call.  The number
    differs from engine to engine. *)
Record Process := {
  _lastThreadId : Z;
  maps : gmap nat JsMap.t;
  nextMap : nat;
  nextSource : nat;
  maxArguments : N
}.

(** A process that has made nothing yet.  The limit of its engine is a
    sample: the properties below are stated for every process. *)
Definition initial_process : Process :=
  {| _lastThreadId := 0; maps := ∅; nextMap := 0%nat; nextSource := 0%nat;
     maxArguments := 65535%N |}.

(** The fields of a [Thread].  [_scripts] is a reference to a [Map]. *)
Record Thread := {
  _target : Target;
  _threadId : Z;
  _threadName : string;
  _pausedDetails : Nullable PausedEvent;
  _scripts : nat
}.

(** The [Map] a reference stands for. *)
Definition deref (r : nat) (p : Process) : JsMap.t := maps p !!! r.

Definition store (r : nat) (m : JsMap.t) (p : Process) : Process :=
  {| _lastThreadId := _lastThreadId p;
     maps := <[r := m]> (maps p);
     nextMap := nextMap p;
     nextSource := nextSource p;
     maxArguments := maxArguments p |}.

Inductive LogMsg :=
| ThreadCreated (id : Z)
| ThreadDestroyed (id : Z) (name : string)
| ThreadRenamed (id : Z) (name : string).

Inductive JsError := RangeError.

(** Calls that leave the thread, and the exception a method or a closure
    of the thread ends with.  An emitted notification carries the thread as
    it is when it is emitted. *)
Inductive Effect :=
| CdpOn (d : Domain) (l : Listener)
| CdpSend (c : Command)
| Emit (e : ThreadEvent) (this : Thread)
| AddSource (s : Source)
| RemoveSources (ss : list Source)
| AttachSourceMap (s : Source) (resolved : string)
| DebugLog (m : LogMsg)
| Throw (e : JsError).

(** The result of a method: the thread, the process and the calls made. *)
Definition Outcome : Type := Thread * Process * list Effect.

(** The calls end with an exception. *)
Definition throws (fx : list Effect) : bool :=
  match last fx with
  | Some (Throw _) => true
  | _ => false
  end.

(** [f(...args)]: the arguments of a spread are pushed one by one, and the
    engine takes the call when they are within its limit; it throws a
    [RangeError] when they are not. *)
Definition spreads (args : list Source) (p : Process) : bool :=
  (N.of_nat (length args) <=? maxArguments p)%N.

(** Modelled from the spec: [utils.completeUrl(base, relative)] (./utils)
    is not part of the sources at hand.  It resolves [relative] against
    [base] and answers the absolute url, or [undefined] when there is no
    base to resolve against; it does not throw. *)
Class UrlResolver := completeUrl : string → string → option string.

(** ** The class *)

Section ThreadClass.

Context {resolver : UrlResolver}.

(** [new Thread(target)].  The field initialiser [_scripts = new Map()]
    allocates the map; [++Thread._lastThreadId] steps the static counter
    and reads it back; [_pausedDetails] is left [undefined]. *)
Definition constructor (target : Target) (p : Process) : Outcome :=
  let scriptsRef := nextMap p in
  let id := js_incr (_lastThreadId p) in
  ({| _target := target;
      _threadId := id;
      _threadName := "";
      _pausedDetails := JsUndefined;
      _scripts := scriptsRef |},
   {| _lastThreadId := id;
      maps := <[scriptsRef := JsMap.empty]> (maps p);
      nextMap := S scriptsRef;
      nextSource := nextSource p;
      maxArguments := maxArguments p |},
   [DebugLog (ThreadCreated id)]).

Definition threadId (this : Thread) : Z := _threadId this.

Definition threadName (this : Thread) : string := _threadName this.

Definition pausedDetails (this : Thread) : Nullable PausedEvent :=
  _pausedDetails this.

(** [scripts()] answers the reference held in the field, not a copy. *)
Definition scripts (this : Thread) : nat := _scripts this.

Definition resume (this : Thread) (p : Process) : Outcome :=
  (this, p, [CdpSend DebuggerResume]).

Definition setThreadName (threadName : string) (this : Thread) (p : Process)
  : Outcome :=
  let this' :=
    {| _target := _target this;
       _threadId := _threadId this;
       _threadName := threadName;
       _pausedDetails := _pausedDetails this;
       _scripts := _scripts this |} in
  (this', p,
   [DebugLog (ThreadRenamed (_threadId this') (_threadName this'));
    Emit ThreadNameChanged this']).

(** The map is cleared before [removeSources(...scripts)] is called: when
    the spread throws, the map is empty already and the source container
    has been told nothing. *)
Definition _reset (this : Thread) (p : Process) : Outcome :=
  let scripts := JsMap.values (deref (_scripts this) p) in
  let p' := store (_scripts this) (JsMap.clear (deref (_scripts this) p)) p in
  if spreads scripts p
  then (this, p', [RemoveSources scripts])
  else (this, p', [Throw RangeError]).

(** [async dispose()]: there is no [await] in the body, so the whole of
    it runs at the call.  An exception of [_reset] ends it (the promise it
    answers is rejected) before the log is written. *)
Definition dispose (this : Thread) (p : Process) : Outcome :=
  let '(this', p', fx) := _reset this p in
  if throws fx then (this', p', fx)
  else
    (this', p',
     fx ++ [DebugLog (ThreadDestroyed (_threadId this') (_threadName this'))]).

(** Modelled from the spec: [Source.createWithContentGetter(url, getter)]
    (./source) is not part of the sources at hand.  It makes a new handle,
    distinct from every handle made before. *)
Definition createWithContentGetter (url getter : string) (p : Process)
  : Source * Process :=
  ({| sourceRef := nextSource p; sourceUrl := url; contentScriptId := getter |},
   {| _lastThreadId := _lastThreadId p;
      maps := maps p;
      nextMap := nextMap p;
      nextSource := S (nextSource p);
      maxArguments := maxArguments p |}).

(** The closure given to [createWithContentGetter], when the content of
    the source is asked for: one command, with the script id it closed
    over.  Nothing is fetched when the source is made. *)
Definition getContent (s : Source) : list Effect :=
  [CdpSend (DebuggerGetScriptSource (contentScriptId s))].

(** [event.url || `VM${event.scriptId}`] *)
Definition readableUrl (event : ScriptParsedEvent) : string :=
  if truthy (url event) then url event else "VM" +:+ scriptId event.

(** [resolvedSourceUrl && utils.completeUrl(resolvedSourceUrl, sourceMapURL)] *)
Definition resolveSourceMapUrl (resolvedSourceUrl : option string)
    (sourceMapURL : string) : option string :=
  match resolvedSourceUrl with
  | Some u => if truthy u then completeUrl u sourceMapURL else Some u
  | None => None
  end.

Definition _onScriptParsed (event : ScriptParsedEvent) (this : Thread)
    (p : Process) : Outcome :=
  let '(source, p1) :=
    createWithContentGetter (readableUrl event) (scriptId event) p in
  let p2 :=
    store (_scripts this)
      (JsMap.set (scriptId event) source (deref (_scripts this) p1)) p1 in
  let added := [AddSource source] in
  match sourceMapURL event with
  | Some sourceMapURL =>
      if truthy sourceMapURL then
        let resolvedSourceUrl :=
          completeUrl (targetUrl (_target this)) (url event) in
        let resolvedSourceMapUrl :=
          resolveSourceMapUrl resolvedSourceUrl sourceMapURL in
        match resolvedSourceMapUrl with
        | Some resolved =>
            if truthy resolved
            then (this, p2, added ++ [AttachSourceMap source resolved])
            else (this, p2, added)
        | None => (this, p2, added)
        end
      else (this, p2, added)
  | None => (this, p2, added)
  end.

(** The bodies of the two closures given to [cdp.Debugger.on]. *)
Definition onPaused (event : PausedEvent) (this : Thread) (p : Process)
  : Outcome :=
  let this' :=
    {| _target := _target this;
       _threadId := _threadId this;
       _threadName := _threadName this;
       _pausedDetails := JsValue event;
       _scripts := _scripts this |} in
  (this', p, [Emit ThreadPaused this']).

Definition onResumed (this : Thread) (p : Process) : Outcome :=
  let this' :=
    {| _target := _target this;
       _threadId := _threadId this;
       _threadName := _threadName this;
       _pausedDetails := JsNull;
       _scripts := _scripts this |} in
  (this', p, [Emit ThreadResumed this']).

(** *** [initialize], a coroutine *)

(** The thread acts on its target: the closures subscribed and the
    activations sent are kept with the target. *)
Definition with_target (f : Target -> Target) (this : Thread) : Thread :=
  {| _target := f (_target this);
     _threadId := _threadId this;
     _threadName := _threadName this;
     _pausedDetails := _pausedDetails this;
     _scripts := _scripts this |}.

Definition subscribe (l : Listener) (tg : Target) : Target :=
  {| targetUrl := targetUrl tg;
     listeners := listeners tg ++ [l];
     activated := activated tg |}.

Definition activate (c : Command) (tg : Target) : Target :=
  match activates c with
  | Some d =>
      {| targetUrl := targetUrl tg;
         listeners := listeners tg;
         activated := activated tg ++ [d] |}
  | None => tg
  end.

(** A statement without [await]. *)
Definition Straight : Type := Thread -> Thread * list Effect.

(** [cdp.D.on(name, closure)], and a command sent on the protocol client. *)
Definition cdp_on (d : Domain) (l : Listener) : Straight :=
  fun this => (with_target (subscribe l) this, [CdpOn d l]).

Definition cdp_send (c : Command) : Straight :=
  fun this => (with_target (activate c) this, [CdpSend c]).

(** Statements one after the other. *)
Fixpoint block (stmts : list Straight) : Straight :=
  fun this =>
    match stmts with
    | [] => (this, [])
    | stmt :: rest =>
        let '(this1, fx1) := stmt this in
        let '(this2, fx2) := block rest this1 in
        (this2, fx1 ++ fx2)
    end.

(** Where a call of [initialize] stands: not begun, suspended at one of
    its two [await]s, returned, or rejected at an [await]. *)
Inductive InitPc :=
| InitStart
| AwaitRuntimeEnable
| AwaitDebuggerEnable
| InitDone
| InitRejected.

(** [async initialize()]: the code that runs from a point up to the next
    [await] or the end, and the point where it stops. *)
Definition initialize (pc : InitPc) : list Straight * InitPc :=
  match pc with
  | InitStart =>
      ([cdp_on Runtime OnExecutionContextsCleared;
        cdp_send RuntimeEnable],
       AwaitRuntimeEnable)
  | AwaitRuntimeEnable =>
      ([cdp_on Debugger OnPaused;
        cdp_on Debugger OnResumed;
        cdp_on Debugger OnScriptParsed;
        cdp_send DebuggerEnable],
       AwaitDebuggerEnable)
  | AwaitDebuggerEnable => ([], InitDone)
  | InitDone => ([], InitDone)
  | InitRejected => ([], InitRejected)
  end.

(** ** The event loop

    Everything runs on one loop, one turn at a time: a turn is a call of a
    method by the owner of the thread, a stretch of a call of [initialize]
    between two [await]s, or the delivery of one pushed protocol event to
    the closures subscribed for it.  A turn runs to its end before the next
    begins. *)

Inductive CdpEvent :=
| ExecutionContextsCleared
| Paused (event : PausedEvent)
| Resumed
| ScriptParsed (event : ScriptParsedEvent).

(** The protocol domain that pushes an event. *)
Definition event_domain (e : CdpEvent) : Domain :=
  match e with
  | ExecutionContextsCleared => Runtime
  | _ => Debugger
  end.

(** The closure subscribed as [l], called for [e]. *)
Definition call_listener (l : Listener) (e : CdpEvent) (this : Thread)
    (p : Process) : Outcome :=
  match l, e with
  | OnExecutionContextsCleared, ExecutionContextsCleared => _reset this p
  | OnPaused, Paused event => onPaused event this p
  | OnResumed, Resumed => onResumed this p
  | OnScriptParsed, ScriptParsed event => _onScriptParsed event this p
  | _, _ => (this, p, [])
  end.

(** Modelled from the spec: the protocol client (the connection code is not
    part of the sources at hand) calls the closures subscribed for an event,
    in the order of subscription, a closure subscribed twice being called
    twice; an exception of a closure goes through to the client, and the
    closures after it are not called. *)
Fixpoint dispatch (ls : list Listener) (e : CdpEvent) (this : Thread)
    (p : Process) : Outcome :=
  match ls with
  | [] => (this, p, [])
  | l :: rest =>
      let '(this1, p1, fx1) := call_listener l e this p in
      if throws fx1 then (this1, p1, fx1)
      else
        let '(this2, p2, fx2) := dispatch rest e this1 p1 in
        (this2, p2, fx1 ++ fx2)
  end.

(** One thread, the process it lives in, its calls of [initialize], and all
    the calls it has made so far.  [initialize] may be called any number of
    times, and each call is a coroutine of its own: [awaits] holds the
    calls that are suspended, each at its [await], oldest command first;
    [init] is where the call of [initialize] that ran last stands. *)
Record Session := {
  thr : Thread;
  proc : Process;
  init : InitPc;
  awaits : list InitPc;
  trace : list Effect
}.

Inductive Input :=
| CallInitialize
| EnableAcknowledged
| EnableFailed
| Push (e : CdpEvent)
| CallResume
| CallDispose
| CallSetThreadName (name : string)
| Navigate (url : string).

Global Instance PausedEvent_eq_dec : EqDecision PausedEvent.
Proof. solve_decision. Defined.

Global Instance ScriptParsedEvent_eq_dec : EqDecision ScriptParsedEvent.
Proof. solve_decision. Defined.

Global Instance CdpEvent_eq_dec : EqDecision CdpEvent.
Proof. solve_decision. Defined.

Global Instance Input_eq_dec : EqDecision Input.
Proof. solve_decision. Defined.

Global Instance InitPc_eq_dec : EqDecision InitPc.
Proof. solve_decision. Defined.

Definition navigate (u : string) (tg : Target) : Target :=
  {| targetUrl := u; listeners := listeners tg; activated := activated tg |}.

Definition awaiting (pc : InitPc) : bool :=
  match pc with
  | AwaitRuntimeEnable | AwaitDebuggerEnable => true
  | _ => false
  end.

(** A stretch of a call of [initialize], from [pc] to its next [await],
    where the call joins the suspended ones, or to its end. *)
Definition continue_initialize (pc : InitPc) (s : Session) : Session :=
  let '(stmts, pc') := initialize pc in
  let '(this, fx) := block stmts (thr s) in
  {| thr := this; proc := proc s; init := pc';
     awaits := awaits s ++ (if awaiting pc' then [pc'] else []);
     trace := trace s ++ fx |}.

Definition finish (s : Session) (o : Outcome) : Session :=
  let '(this, p, fx) := o in
  {| thr := this; proc := p; init := init s; awaits := awaits s;
     trace := trace s ++ fx |}.

(** The suspended calls but the oldest. *)
Definition answered (s : Session) : Session :=
  {| thr := thr s; proc := proc s; init := init s;
     awaits := tail (awaits s); trace := trace s |}.

(** Modelled from the spec: the loop and the protocol client are not part
    of the sources at hand.  One turn of the loop.  A call of [initialize]
    runs its first stretch at once, whatever calls of it came before.  The
    client answers the activations in the order they were sent, so an
    answer wakes the call suspended longest.  A protocol domain pushes no
    event before the command that activates it has been sent. *)
Definition turn (s : Session) (i : Input) : Session :=
  match i with
  | CallInitialize => continue_initialize InitStart s
  | EnableAcknowledged =>
      match awaits s with
      | pc :: _ => continue_initialize pc (answered s)
      | [] => s
      end
  | EnableFailed =>
      match awaits s with
      | _ :: rest =>
          {| thr := thr s; proc := proc s; init := InitRejected;
             awaits := rest; trace := trace s |}
      | [] => s
      end
  | Push e =>
      if bool_decide (event_domain e ∈ activated (_target (thr s)))
      then finish s (dispatch (listeners (_target (thr s))) e (thr s) (proc s))
      else s
  | CallResume => finish s (resume (thr s) (proc s))
  | CallDispose => finish s (dispose (thr s) (proc s))
  | CallSetThreadName name => finish s (setThreadName name (thr s) (proc s))
  | Navigate u =>
      {| thr := with_target (navigate u) (thr s); proc := proc s;
         init := init s; awaits := awaits s; trace := trace s |}
  end.

Definition run (s : Session) (inputs : list Input) : Session :=
  fold_left turn inputs s.

(** A target nobody has subscribed to yet, showing the document at [u]. *)
Definition fresh_target (u : string) : Target :=
  {| targetUrl := u; listeners := []; activated := [] |}.

(** [new Thread(target)] in process [p]. *)
Definition new_session (target : Target) (p : Process) : Session :=
  let '(this, p', fx) := constructor target p in
  {| thr := this; proc := p'; init := InitStart; awaits := []; trace := fx |}.

(** ... and [thread.initialize()] called and carried up to its second
    [await]: the four closures are subscribed and both activations are
    sent.  The events of both domains may come from here on, some of them
    before the second activation is acknowledged. *)
Definition listening_session (target : Target) (p : Process) : Session :=
  run (new_session target p) [CallInitialize; EnableAcknowledged].

(** ... and [await thread.initialize()] carried through. *)
Definition initialized_session (target : Target) (p : Process) : Session :=
  run (listening_session target p) [EnableAcknowledged].

(** [N] threads made one after the other. *)
Fixpoint construct_all (targets : list Target) (p : Process)
    : list Thread * Process :=
  match targets with
  | [] => ([], p)
  | target :: rest =>
      let '(this, p1, _) := constructor target p in
      let '(others, p2) := construct_all rest p1 in
      (this :: others, p2)
  end.

(** A caller that holds the value answered by [scripts()] calls a method of
    [Map] on it. *)
Inductive MapCall :=
| MapSet (k : string) (v : Source)
| MapClear.

Definition call_on_map (r : nat) (c : MapCall) (p : Process) : Process :=
  match c with
  | MapSet k v => store r (JsMap.set k v (deref r p)) p
  | MapClear => store r (JsMap.clear (deref r p)) p
  end.

(** *** What the others do

    Besides the turns of the thread, its own methods and closures, there
    is what the holders of the values it hands out do between two turns: a
    caller of [scripts()] writes to the [Map] it got, and somebody who holds
    a [Source] asks for its content, which runs the getter the thread gave
    to [createWithContentGetter]. *)
Inductive Move :=
| Turn (i : Input)
| OnScripts (c : MapCall)
| AskContent (source : Source).

Global Instance MapCall_eq_dec : EqDecision MapCall.
Proof. solve_decision. Defined.

Global Instance Move_eq_dec : EqDecision Move.
Proof. solve_decision. Defined.

Definition move (s : Session) (m : Move) : Session :=
  match m with
  | Turn i => turn s i
  | OnScripts c =>
      {| thr := thr s; proc := call_on_map (scripts (thr s)) c (proc s);
         init := init s; awaits := awaits s; trace := trace s |}
  | AskContent source => finish s (thr s, proc s, getContent source)
  end.

Definition play (s : Session) (moves : list Move) : Session :=
  fold_left move moves s.

(** ** Notions used in the statements *)

(** What one call of [initialize] subscribes, in order. *)
Definition subscriptions : list Listener :=
  [OnExecutionContextsCleared; OnPaused; OnResumed; OnScriptParsed].

(** How many times a closure is subscribed on a target. *)
Definition subscribed (l : Listener) (tg : Target) : nat :=
  length (filter (λ l', l' = l) (listeners tg)).

(** The thread listens, and [initialize] has been called once: the four
    closures are subscribed, once each, the activations of both domains
    are sent, and no call of [initialize] is suspended before its second
    [await]. *)
Definition ready (s : Session) : Prop :=
  listeners (_target (thr s)) = subscriptions ∧
  activated (_target (thr s)) = [Runtime; Debugger] ∧
  Forall (λ pc, pc = AwaitDebuggerEnable) (awaits s).

(** The thread listens: the activations of both domains are sent and each
    of the four closures is subscribed, once or more. *)
Definition hears (s : Session) : Prop :=
  (∀ d, d ∈ activated (_target (thr s))) ∧
  (∀ l, l ∈ listeners (_target (thr s))).

(** The closure [initialize] subscribes for an event. *)
Definition listener_for (e : CdpEvent) : Listener :=
  match e with
  | ExecutionContextsCleared => OnExecutionContextsCleared
  | Paused _ => OnPaused
  | Resumed => OnResumed
  | ScriptParsed _ => OnScriptParsed
  end.

(** The script map of the thread of a session, read through [scripts()]. *)
Definition local_scripts (s : Session) : JsMap.t :=
  deref (scripts (thr s)) (proc s).

(** The payload of the last "paused" event among the inputs, if any. *)
Definition pause_payload (i : Input) : option PausedEvent :=
  match i with
  | Push (Paused event) => Some event
  | _ => None
  end.

Definition last_pause (inputs : list Input) : option PausedEvent :=
  last (omap pause_payload inputs).

Definition is_pause (i : Input) : bool :=
  match pause_payload i with
  | Some _ => true
  | None => false
  end.

(** The document the target shows after the inputs: the url of the last
    navigation, or the url it showed at first. *)
Definition navigated (i : Input) : option string :=
  match i with
  | Navigate u => Some u
  | _ => None
  end.

Definition current_url (u : string) (inputs : list Input) : string :=
  default u (last (omap navigated inputs)).

(** The calls of [attachSourceMap] and of [removeSources] among the calls
    made, with their arguments. *)
Definition attach_call (e : Effect) : option (Source * string) :=
  match e with
  | AttachSourceMap s resolved => Some (s, resolved)
  | _ => None
  end.

Definition attach_calls (fx : list Effect) : list (Source * string) :=
  omap attach_call fx.

Definition removal (e : Effect) : option (list Source) :=
  match e with
  | RemoveSources ss => Some ss
  | _ => None
  end.

Definition removals (fx : list Effect) : list (list Source) :=
  omap removal fx.

Definition added (e : Effect) : option Source :=
  match e with
  | AddSource s => Some s
  | _ => None
  end.

Definition additions (fx : list Effect) : list Source := omap added fx.

(** What a turn appended to the calls of a session. *)
Definition calls_of_turn (s : Session) (i : Input) : list Effect :=
  drop (length (trace s)) (trace (turn s i)).

(** The turns that reset the thread. *)
Definition resets (i : Input) : bool :=
  match i with
  | CallDispose | Push ExecutionContextsCleared => true
  | _ => false
  end.

(** The handle a "script parsed" event is given when the handles made
    before it number [ref]. *)
Definition source_of (event : ScriptParsedEvent) (ref : nat) : Source :=
  {| sourceRef := ref;
     sourceUrl := readableUrl event;
     contentScriptId := scriptId event |}.

(** The [attachSourceMap] call of a registration, if it makes one. *)
Definition attachment (event : ScriptParsedEvent) (this : Thread)
    (source : Source) : list Effect :=
  match sourceMapURL event with
  | Some sourceMapURL =>
      if truthy sourceMapURL then
        match
          resolveSourceMapUrl
            (completeUrl (targetUrl (_target this)) (url event)) sourceMapURL
        with
        | Some resolved =>
            if truthy resolved then [AttachSourceMap source resolved] else []
        | None => []
        end
      else []
  | None => []
  end.

(** The script map of a thread is well formed: keys are unique, and every
    handle in it was made for the script id it stands under, by an
    allocation that has already happened. *)
Definition scripts_wf (this : Thread) (p : Process) : Prop :=
  NoDup (JsMap.keys (deref (_scripts this) p)) ∧
  ∀ k v, (k, v) ∈ deref (_scripts this) p →
    contentScriptId v = k ∧ (sourceRef v < nextSource p)%nat.

(** What any number of turns keeps: the id, the map the thread refers to,
    unique keys; handles are only ever allocated, and an entry of the map
    is an entry that was there or a handle allocated since. *)
Definition evolves (a b : Thread * Process) : Prop :=
  _threadId b.1 = _threadId a.1 ∧
  _scripts b.1 = _scripts a.1 ∧
  (nextSource a.2 ≤ nextSource b.2)%nat ∧
  (NoDup (JsMap.keys (deref (_scripts a.1) a.2)) →
   NoDup (JsMap.keys (deref (_scripts b.1) b.2))) ∧
  ∀ k v, (k, v) ∈ deref (_scripts b.1) b.2 →
    (k, v) ∈ deref (_scripts a.1) a.2 ∨
    (contentScriptId v = k ∧
     (nextSource a.2 ≤ sourceRef v < nextSource b.2)%nat).

(** The thread with another paused state. *)
Definition with_pausedDetails (d : Nullable PausedEvent) (this : Thread)
    : Thread :=
  {| _target := _target this;
     _threadId := _threadId this;
     _threadName := _threadName this;
     _pausedDetails := d;
     _scripts := _scripts this |}.

(** The moves of the thread itself, and those by which a caller writes to
    the map answered by [scripts()]. *)
Definition input_of (m : Move) : option Input :=
  match m with
  | Turn i => Some i
  | _ => None
  end.

Definition writes (m : Move) : bool :=
  match m with
  | OnScripts _ => true
  | _ => false
  end.

(** What a move appended to the calls of a session. *)
Definition calls_of_move (s : Session) (m : Move) : list Effect :=
  drop (length (trace s)) (trace (move s m)).

End ThreadClass.

(** ** Sample inputs *)

(** A resolver with no base for anything. *)
Definition no_base : UrlResolver := fun _ _ => None.

(** A resolver that knows the two resolutions of one page: a script
    [/app.js] of the document [https://x/index.html] and its source map. *)
Definition one_page : UrlResolver :=
  fun base relative =>
    if String.eqb base "https://x/index.html" && String.eqb relative "/app.js"
    then Some "https://x/app.js"
    else if String.eqb base "https://x/app.js" && String.eqb relative "app.js.map"
    then Some "https://x/app.js.map"
    else None.

Definition at_breakpoint : PausedEvent :=
  {| reason := "other"; callFrames := ["0"]; hitBreakpoints := ["1:0:0"] |}.

Definition anonymous_script : ScriptParsedEvent :=
  {| scriptId := "7"; url := ""; sourceMapURL := None |}.

Definition app_script : ScriptParsedEvent :=
  {| scriptId := "8"; url := "/app.js"; sourceMapURL := Some "app.js.map" |}.

Definition stray_source : Source :=
  {| sourceRef := 41; sourceUrl := "stray.js"; contentScriptId := "41" |}.

(** The anonymous scripts numbered [0], [1], ... as a page that evaluates
    one snippet after the other reports them, and the events of the first
    [n] of them. *)
Definition numbered_script (i : nat) : ScriptParsedEvent :=
  {| scriptId := pretty i; url := ""; sourceMapURL := None |}.

Definition many_scripts (n : nat) : list Input :=
  (λ i, Push (ScriptParsed (numbered_script i))) <$> seq 0 n.

(** ** Notions used in the further properties *)

Global Instance ThreadEvent_eq_dec : EqDecision ThreadEvent.
Proof. solve_decision. Defined.

Global Instance Command_eq_dec : EqDecision Command.
Proof. solve_decision. Defined.

(** The name a call of [setThreadName] gives, and the last name given by
    the inputs, the empty name of the constructor if there is none. *)
Definition name_set (i : Input) : option string :=
  match i with
  | CallSetThreadName name => Some name
  | _ => None
  end.

Definition last_name (inputs : list Input) : string :=
  default "" (last (omap name_set inputs)).

(** The name the thread bears in a "name changed" notification. *)
Definition name_notification (e : Effect) : option string :=
  match e with
  | Emit ThreadNameChanged this => Some (_threadName this)
  | _ => None
  end.

(** What a "paused" or "resumed" event asks for: the notification to emit
    and the paused state to hold. *)
Definition pause_change (i : Input)
    : option (ThreadEvent * Nullable PausedEvent) :=
  match i with
  | Push (Paused event) => Some (ThreadPaused, JsValue event)
  | Push Resumed => Some (ThreadResumed, JsNull)
  | _ => None
  end.

(** A "paused" or "resumed" notification, with the paused state of the
    thread it carries. *)
Definition pause_notification (e : Effect)
    : option (ThreadEvent * Nullable PausedEvent) :=
  match e with
  | Emit ThreadPaused this => Some (ThreadPaused, _pausedDetails this)
  | Emit ThreadResumed this => Some (ThreadResumed, _pausedDetails this)
  | _ => None
  end.

(** The commands among the calls made. *)
Definition command (e : Effect) : option Command :=
  match e with
  | CdpSend c => Some c
  | _ => None
  end.

Definition commands (fx : list Effect) : list Command := omap command fx.

(** The calls of [resume()] among the inputs. *)
Definition resume_call (i : Input) : option Command :=
  match i with
  | CallResume => Some DebuggerResume
  | _ => None
  end.

(** The script id a command fetches the source of, and the script id whose
    source a move asks for. *)
Definition fetched (c : Command) : option string :=
  match c with
  | DebuggerGetScriptSource id => Some id
  | _ => None
  end.

Definition asked (m : Move) : option string :=
  match m with
  | AskContent source => Some (contentScriptId source)
  | _ => None
  end.

(** Calls that are none of the registry's. *)
Definition off_registry (fx : list Effect) : Prop :=
  ∀ e, e ∈ fx → added e = None ∧ removal e = None ∧ attach_call e = None.

(** How the [addSource] and [attachSourceMap] calls made so far stand to
    one another, [n] handles having been made: a handle added has been
    made, none is added twice, and a source map is attached right after
    its handle is added. *)
Definition adds_ok (T : list Effect) (n : nat) : Prop :=
  (∀ i v, T !! i = Some (AddSource v) → (sourceRef v < n)%nat) ∧
  (∀ i1 i2 v,
     T !! i1 = Some (AddSource v) → T !! i2 = Some (AddSource v) → i1 = i2) ∧
  (∀ j source resolved,
     T !! j = Some (AttachSourceMap source resolved) →
     ∃ i, j = S i ∧ T !! i = Some (AddSource source)).

(** ... and how the [removeSources] calls stand to them and to the script
    map [m]: the map holds no handle twice, and only handles added and
    not removed; a handle removed was added before, and is removed
    once. *)
Definition registry_ok (T : list Effect) (m : JsMap.t) (n : nat) : Prop :=
  adds_ok T n ∧
  NoDup (JsMap.values m) ∧
  (∀ v, v ∈ JsMap.values m → ∃ i, T !! i = Some (AddSource v)) ∧
  (∀ v j ss, v ∈ JsMap.values m → T !! j = Some (RemoveSources ss) → v ∉ ss) ∧
  (∀ j ss v, T !! j = Some (RemoveSources ss) → v ∈ ss →
     ∃ i, (i < j)%nat ∧ T !! i = Some (AddSource v)) ∧
  (∀ j ss, T !! j = Some (RemoveSources ss) → NoDup ss) ∧
  (∀ j1 j2 ss1 ss2 v,
     T !! j1 = Some (RemoveSources ss1) →
     T !! j2 = Some (RemoveSources ss2) →
     v ∈ ss1 → v ∈ ss2 → j1 = j2).

(** * Properties *)

(** ** The map *)

Module JsMapFacts.

Lemma get_set_eq k v m : JsMap.get k (JsMap.set k v m) = Some v.
Proof.
  induction m as [|[k' v'] m IH]; simpl.
  - by rewrite String.eqb_refl.
  - destruct (String.eqb k' k) eqn:E; simpl; by rewrite E.
Qed.

Lemma get_set_ne k k' v m :
  k ≠ k' → JsMap.get k' (JsMap.set k v m) = JsMap.get k' m.
Proof.
  intros Hne. induction m as [|[k0 v0] m IH]; simpl.
  - destruct (String.eqb_spec k k'); congruence.
  - destruct (String.eqb_spec k0 k) as [->|Hk]; simpl.
    + destruct (String.eqb_spec k k'); congruence.
    + destruct (String.eqb_spec k0 k'); [done|apply IH].
Qed.

Lemma elem_of_set k v k' v' m :
  (k', v') ∈ JsMap.set k v m → (k' = k ∧ v' = v) ∨ (k', v') ∈ m.
Proof.
  induction m as [|[k0 v0] m IH]; simpl.
  - intros Heq%list_elem_of_singleton. left. by injection Heq.
  - destruct (String.eqb_spec k0 k) as [->|Hk].
    + intros [Heq|Hin]%elem_of_cons.
      * left. by injection Heq.
      * right. by apply elem_of_cons; right.
    + intros [Heq|Hin]%elem_of_cons.
      * right. apply elem_of_cons. by left.
      * destruct (IH Hin) as [?|?]; [by left|].
        right. by apply elem_of_cons; right.
Qed.

Lemma keys_set k v m :
  JsMap.keys (JsMap.set k v m) =
  if bool_decide (k ∈ JsMap.keys m) then JsMap.keys m else JsMap.keys m ++ [k].
Proof.
  unfold JsMap.keys. induction m as [|[k0 v0] m IH]; [done|].
  cbn [JsMap.set]. destruct (String.eqb_spec k0 k) as [->|Hk].
  - rewrite !fmap_cons. cbn [fst].
    rewrite bool_decide_eq_true_2; [done|]. apply elem_of_cons. by left.
  - rewrite !fmap_cons, IH. cbn [fst].
    destruct (bool_decide (k ∈ m.*1)) eqn:E.
    + apply bool_decide_eq_true in E.
      rewrite bool_decide_eq_true_2; [done|]. by apply elem_of_cons; right.
    + apply bool_decide_eq_false in E.
      rewrite bool_decide_eq_false_2; [done|].
      intros [?|?]%elem_of_cons; congruence.
Qed.

Lemma NoDup_keys_set k v m :
  NoDup (JsMap.keys m) → NoDup (JsMap.keys (JsMap.set k v m)).
Proof.
  intros Hm. rewrite keys_set. case_bool_decide as E; [done|].
  apply NoDup_app. split; [done|]. split; [|apply NoDup_singleton].
  intros x Hx ->%list_elem_of_singleton. done.
Qed.

Lemma get_of_elem k v m :
  NoDup (JsMap.keys m) → (k, v) ∈ m → JsMap.get k m = Some v.
Proof.
  unfold JsMap.keys. induction m as [|[k0 v0] m IH]; simpl.
  - intros _ H. by apply elem_of_nil in H.
  - intros [Hk0 Hm]%NoDup_cons [Heq|Hin]%elem_of_cons.
    + injection Heq as -> ->. by rewrite String.eqb_refl.
    + destruct (String.eqb_spec k0 k) as [->|Hk]; [|by apply IH].
      exfalso. apply Hk0. apply list_elem_of_fmap. by exists (k, v).
Qed.

Lemma elem_of_get k v m : JsMap.get k m = Some v → (k, v) ∈ m.
Proof.
  induction m as [|[k0 v0] m IH]; simpl; [done|].
  destruct (String.eqb_spec k0 k) as [->|Hk].
  - intros [= ->]. apply elem_of_cons. by left.
  - intros H. apply elem_of_cons. right. by apply IH.
Qed.

Lemma elem_of_values v m : v ∈ JsMap.values m ↔ ∃ k, (k, v) ∈ m.
Proof.
  unfold JsMap.values. rewrite list_elem_of_fmap. split.
  - intros [[k v'] [-> H]]. by exists k.
  - intros [k H]. by exists (k, v).
Qed.

(** With unique keys, the values are what the lookups answer. *)
Lemma values_are_lookups v m :
  NoDup (JsMap.keys m) →
  v ∈ JsMap.values m ↔ ∃ k, JsMap.get k m = Some v.
Proof.
  intros Hm. rewrite elem_of_values. split.
  - intros [k H]. exists k. by apply get_of_elem.
  - intros [k H]. exists k. by apply elem_of_get.
Qed.

Lemma length_values m : length (JsMap.values m) = length m.
Proof. unfold JsMap.values. apply length_fmap. Qed.

Lemma length_keys m : length (JsMap.keys m) = length m.
Proof. unfold JsMap.keys. apply length_fmap. Qed.

(** A [set] over a [set] at the same key. *)
Lemma set_set k v v' m :
  JsMap.set k v' (JsMap.set k v m) = JsMap.set k v' m.
Proof.
  induction m as [|[k0 v0] m IH]; simpl.
  - by rewrite String.eqb_refl.
  - destruct (String.eqb k0 k) eqn:E; simpl; rewrite E; [done|by rewrite IH].
Qed.

End JsMapFacts.

(** ** The store *)

Lemma deref_store_eq r m p : deref r (store r m p) = m.
Proof. unfold deref, store; simpl. apply lookup_total_insert_eq. Qed.

Lemma deref_store_ne r r' m p : r ≠ r' → deref r' (store r m p) = deref r' p.
Proof. intros. unfold deref, store; simpl. by apply lookup_total_insert_ne. Qed.

(** ** Exceptions *)

Lemma throws_nil : throws [] = false.
Proof. done. Qed.

Lemma throws_snoc fx e :
  throws (fx ++ [e]) = match e with Throw _ => true | _ => false end.
Proof. unfold throws. by rewrite last_snoc. Qed.

Lemma throws_singleton e :
  throws [e] = match e with Throw _ => true | _ => false end.
Proof. apply (throws_snoc []). Qed.

(** ** How a turn may change the thread and the process *)

Section Facts.

Context {resolver : UrlResolver}.

Lemma run_app s xs ys : run s (xs ++ ys) = run (run s xs) ys.
Proof. apply fold_left_app. Qed.

Lemma run_snoc s xs i : run s (xs ++ [i]) = turn (run s xs) i.
Proof. by rewrite run_app. Qed.

Lemma play_app s xs ys : play s (xs ++ ys) = play (play s xs) ys.
Proof. apply fold_left_app. Qed.

Lemma play_snoc s xs m : play s (xs ++ [m]) = move (play s xs) m.
Proof. by rewrite play_app. Qed.

(** The turns of the thread alone. *)
Lemma play_turns s inputs : play s (Turn <$> inputs) = run s inputs.
Proof.
  revert s. induction inputs as [|i inputs IH]; intros s; [done|]. apply IH.
Qed.

(** *** The two bodies that touch the script map *)

(** What a "script parsed" event does in a process [p]: a new handle, set
    in the map and added, and its source map attached if it resolves. *)
Lemma onScriptParsed_outcome event this p :
  let source := source_of event (nextSource p) in
  ∃ p',
    _onScriptParsed event this p =
      (this, p', AddSource source :: attachment event this source) ∧
    deref (_scripts this) p' =
      JsMap.set (scriptId event) source (deref (_scripts this) p) ∧
    (∀ r, r ≠ _scripts this → deref r p' = deref r p) ∧
    nextSource p' = S (nextSource p) ∧
    _lastThreadId p' = _lastThreadId p ∧
    maxArguments p' = maxArguments p.
Proof.
  intros source. unfold _onScriptParsed, attachment.
  cbn [createWithContentGetter]. fold (source_of event (nextSource p)).
  fold source.
  set (p1 := {| _lastThreadId := _lastThreadId p; maps := maps p;
                nextMap := nextMap p; nextSource := S (nextSource p);
                maxArguments := maxArguments p |}).
  set (p2 := store _ _ p1).
  assert (Hp2 : deref (_scripts this) p2 =
      JsMap.set (scriptId event) source (deref (_scripts this) p))
    by (subst p2; by rewrite deref_store_eq).
  assert (Hother : ∀ r, r ≠ _scripts this → deref r p2 = deref r p)
    by (intros r Hr; subst p2; by rewrite deref_store_ne).
  exists p2. split; [|done].
  destruct (sourceMapURL event) as [smu|]; [|done].
  destruct (truthy smu); [|done].
  destruct (resolveSourceMapUrl _ _) as [resolved|]; [|done].
  by destruct (truthy resolved).
Qed.

Lemma attachment_cases event this source :
  attachment event this source = [] ∨
  ∃ resolved, attachment event this source = [AttachSourceMap source resolved].
Proof.
  unfold attachment. destruct (sourceMapURL event) as [smu|]; [|by left].
  destruct (truthy smu); [|by left].
  destruct (resolveSourceMapUrl _ _) as [resolved|]; [|by left].
  destruct (truthy resolved); [right; by exists resolved|by left].
Qed.

Lemma throws_registration source fx :
  fx = [] ∨ (∃ resolved, fx = [AttachSourceMap source resolved]) →
  throws (AddSource source :: fx) = false.
Proof. by intros [->|[resolved ->]]. Qed.

(** What a reset does: the map is empty afterwards, whether the source
    container has been told or not. *)
Lemma reset_outcome this p :
  let held := JsMap.values (deref (_scripts this) p) in
  ∃ p',
    _reset this p =
      (this, p',
       [if spreads held p then RemoveSources held else Throw RangeError]) ∧
    deref (_scripts this) p' = JsMap.empty ∧
    (∀ r, r ≠ _scripts this → deref r p' = deref r p) ∧
    nextSource p' = nextSource p ∧
    _lastThreadId p' = _lastThreadId p ∧
    maxArguments p' = maxArguments p.
Proof.
  intros held. unfold _reset. fold held.
  set (p' := store _ _ p). exists p'.
  split; [by destruct (spreads held p)|].
  split; [apply deref_store_eq|].
  split; [|done]. intros r Hr. by apply deref_store_ne.
Qed.

Lemma dispose_outcome this p :
  let held := JsMap.values (deref (_scripts this) p) in
  ∃ p',
    dispose this p =
      (this, p',
       if spreads held p
       then [RemoveSources held;
             DebugLog (ThreadDestroyed (_threadId this) (_threadName this))]
       else [Throw RangeError]) ∧
    deref (_scripts this) p' = JsMap.empty ∧
    (∀ r, r ≠ _scripts this → deref r p' = deref r p) ∧
    nextSource p' = nextSource p ∧
    _lastThreadId p' = _lastThreadId p ∧
    maxArguments p' = maxArguments p.
Proof.
  intros held. unfold dispose.
  destruct (reset_outcome this p) as (p' & -> & Hrest). fold held.
  exists p'. split; [|done]. by destruct (spreads held p).
Qed.

(** *** What stays *)

Lemma evolves_refl a : evolves a a.
Proof. unfold evolves. repeat split; auto. Qed.

Lemma evolves_fields this this' p :
  _threadId this' = _threadId this →
  _scripts this' = _scripts this →
  evolves (this, p) (this', p).
Proof.
  intros Hid Hs. unfold evolves; simpl. rewrite Hs.
  repeat split; auto.
Qed.

Lemma evolves_trans a b c : evolves a b → evolves b c → evolves a c.
Proof.
  intros (Hid1 & Hs1 & Hn1 & Hd1 & He1) (Hid2 & Hs2 & Hn2 & Hd2 & He2).
  unfold evolves. repeat split; [congruence|congruence|lia|auto|].
  intros k v Hkv. destruct (He2 k v Hkv) as [Hb|[? ?]].
  - destruct (He1 k v Hb) as [?|[? ?]]; [by left|right; split; [done|lia]].
  - right. split; [done|lia].
Qed.

Lemma reset_evolves this p : evolves (this, p) (_reset this p).1.
Proof.
  destruct (reset_outcome this p) as (p' & -> & Hmap & _ & Hnext & _).
  unfold evolves; simpl. rewrite Hmap, Hnext.
  repeat split; auto.
  - intros _. apply NoDup_nil_2.
  - intros k v H. by apply elem_of_nil in H.
Qed.

Lemma dispose_evolves this p : evolves (this, p) (dispose this p).1.
Proof.
  destruct (dispose_outcome this p) as (p' & -> & Hmap & _ & Hnext & _).
  unfold evolves; simpl. rewrite Hmap, Hnext.
  repeat split; auto.
  - intros _. apply NoDup_nil_2.
  - intros k v H. by apply elem_of_nil in H.
Qed.

Lemma onScriptParsed_evolves event this p :
  evolves (this, p) (_onScriptParsed event this p).1.
Proof.
  destruct (onScriptParsed_outcome event this p)
    as (p' & -> & Hmap & _ & Hnext & _).
  unfold evolves; simpl. rewrite Hmap, Hnext. repeat split; [lia| |].
  - apply JsMapFacts.NoDup_keys_set.
  - intros k v [[-> ->]|Hin]%JsMapFacts.elem_of_set; [right|by left].
    simpl. split; [done|lia].
Qed.

Lemma call_listener_evolves l e this p :
  evolves (this, p) (call_listener l e this p).1.
Proof.
  destruct l, e; simpl;
    first [apply evolves_refl | apply reset_evolves
          | apply onScriptParsed_evolves | by apply evolves_fields].
Qed.

(** What every closure keeps is kept by the delivery of an event, which
    calls closures one after the other until one throws. *)
Lemma dispatch_inv (P : Thread → Process → list Effect → Prop) e :
  (∀ l this p fx, P this p fx →
     P (call_listener l e this p).1.1 (call_listener l e this p).1.2
       (fx ++ (call_listener l e this p).2)) →
  ∀ ls this p fx, P this p fx →
    P (dispatch ls e this p).1.1 (dispatch ls e this p).1.2
      (fx ++ (dispatch ls e this p).2).
Proof.
  intros Hstep. induction ls as [|l ls IH]; intros this p fx HP.
  - simpl. by rewrite app_nil_r.
  - cbn [dispatch]. pose proof (Hstep l this p fx HP) as H1.
    destruct (call_listener l e this p) as [[this1 p1] fx1].
    simpl in H1. destruct (throws fx1); [done|].
    pose proof (IH this1 p1 (fx ++ fx1) H1) as H2.
    destruct (dispatch ls e this1 p1) as [[this2 p2] fx2].
    simpl in *. by rewrite app_assoc.
Qed.

Lemma dispatch_evolves ls e this p :
  evolves (this, p) (dispatch ls e this p).1.
Proof.
  assert (Hstep : ∀ l this1 p1 (fx : list Effect),
    evolves (this, p) (this1, p1) →
    evolves (this, p)
      ((call_listener l e this1 p1).1.1, (call_listener l e this1 p1).1.2)).
  { intros l this1 p1 fx H1. eapply evolves_trans; [exact H1|].
    pose proof (call_listener_evolves l e this1 p1) as H2.
    by destruct (call_listener l e this1 p1) as [[? ?] ?]. }
  pose proof (dispatch_inv (λ this' p' _, evolves (this, p) (this', p')) e
                Hstep ls this p [] (evolves_refl _)) as H.
  by destruct (dispatch ls e this p) as [[? ?] ?].
Qed.

Lemma block_initialize_fields pc this :
  let this' := (block (initialize pc).1 this).1 in
  _threadId this' = _threadId this ∧ _scripts this' = _scripts this ∧
  _pausedDetails this' = _pausedDetails this ∧
  _threadName this' = _threadName this ∧
  targetUrl (_target this') = targetUrl (_target this).
Proof. by destruct pc. Qed.

Lemma continue_initialize_fields pc s :
  let s' := continue_initialize pc s in
  _threadId (thr s') = _threadId (thr s) ∧
  _scripts (thr s') = _scripts (thr s) ∧
  _pausedDetails (thr s') = _pausedDetails (thr s) ∧
  _threadName (thr s') = _threadName (thr s) ∧
  targetUrl (_target (thr s')) = targetUrl (_target (thr s)) ∧
  proc s' = proc s.
Proof.
  unfold continue_initialize.
  pose proof (block_initialize_fields pc (thr s)) as H.
  destruct (initialize pc) as [stmts pc']. simpl in H.
  destruct (block stmts (thr s)) as [this fx]. simpl in *.
  destruct H as (? & ? & ? & ? & ?). by repeat split.
Qed.

Lemma continue_initialize_evolves pc s :
  evolves (thr s, proc s)
    (thr (continue_initialize pc s), proc (continue_initialize pc s)).
Proof.
  destruct (continue_initialize_fields pc s) as (? & ? & _ & _ & _ & ->).
  by apply evolves_fields.
Qed.

Lemma finish_evolves s o :
  evolves (thr s, proc s) o.1 →
  evolves (thr s, proc s) (thr (finish s o), proc (finish s o)).
Proof. by destruct o as [[this p] fx]. Qed.

Lemma turn_evolves s i :
  evolves (thr s, proc s) (thr (turn s i), proc (turn s i)).
Proof.
  destruct i; cbn [turn].
  - apply continue_initialize_evolves.
  - destruct (awaits s) as [|pc rest]; [apply evolves_refl|].
    apply (continue_initialize_evolves pc (answered s)).
  - destruct (awaits s); apply evolves_refl.
  - case_bool_decide; [|apply evolves_refl].
    apply finish_evolves, dispatch_evolves.
  - apply evolves_refl.
  - apply finish_evolves, dispose_evolves.
  - by apply evolves_fields.
  - by apply evolves_fields.
Qed.

Lemma run_evolves s inputs :
  evolves (thr s, proc s) (thr (run s inputs), proc (run s inputs)).
Proof.
  revert s. induction inputs as [|i inputs IH]; intros s; simpl.
  - apply evolves_refl.
  - eapply evolves_trans; [apply turn_evolves|apply IH].
Qed.

(** A move that is not a write of a caller. *)
Lemma move_evolves s m :
  writes m = false →
  evolves (thr s, proc s) (thr (move s m), proc (move s m)).
Proof.
  destruct m as [i|c|source]; [|done|]; intros _.
  - apply turn_evolves.
  - apply evolves_refl.
Qed.

Lemma play_evolves s moves :
  Forall (λ m, writes m = false) moves →
  evolves (thr s, proc s) (thr (play s moves), proc (play s moves)).
Proof.
  revert s. induction moves as [|m moves IH]; intros s Hmoves; simpl.
  - apply evolves_refl.
  - apply Forall_cons in Hmoves as [Hm Hmoves].
    eapply evolves_trans; [by apply move_evolves|by apply IH].
Qed.

Lemma scripts_wf_evolves this p this' p' :
  scripts_wf this p → evolves (this, p) (this', p') → scripts_wf this' p'.
Proof.
  intros [Hdup Hwf] (_ & _ & Hn & Hd & He). simpl in *.
  split; [auto|]. intros k v Hkv.
  destruct (He k v Hkv) as [Hold|[? ?]]; [|split; [done|lia]].
  destruct (Hwf k v Hold). split; [done|lia].
Qed.

Lemma scripts_wf_new target p :
  scripts_wf (thr (new_session target p)) (proc (new_session target p)).
Proof.
  unfold scripts_wf, new_session, deref; simpl.
  rewrite lookup_total_insert_eq. split; [apply NoDup_nil_2|].
  intros k v H. by apply elem_of_nil in H.
Qed.

(** The script map of a thread made by [new] stays well formed, whatever
    the turns, as long as no caller writes to it. *)
Lemma scripts_wf_play target p moves :
  Forall (λ m, writes m = false) moves →
  let s := play (new_session target p) moves in
  scripts_wf (thr s) (proc s).
Proof.
  intros Hmoves s. eapply scripts_wf_evolves; [apply scripts_wf_new|].
  by apply play_evolves.
Qed.

Lemma scripts_wf_run target p inputs :
  let s := run (new_session target p) inputs in
  scripts_wf (thr s) (proc s).
Proof.
  intros s. unfold s. rewrite <- play_turns. apply scripts_wf_play.
  apply Forall_fmap, Forall_forall. done.
Qed.

Lemma scripts_wf_reachable u p inputs :
  let s := run (listening_session (fresh_target u) p) inputs in
  scripts_wf (thr s) (proc s).
Proof.
  unfold listening_session. rewrite <- run_app. apply scripts_wf_run.
Qed.

(** The keys of the script map stay unique whatever the moves, those of
    the callers that write to it included. *)
Lemma move_keys s m :
  _scripts (thr (move s m)) = _scripts (thr s) ∧
  (NoDup (JsMap.keys (local_scripts s)) →
   NoDup (JsMap.keys (local_scripts (move s m)))).
Proof.
  unfold local_scripts, scripts. destruct m as [i|c|source].
  - destruct (turn_evolves s i) as (_ & Hs & _ & Hd & _).
    cbn [move fst snd] in *. by split.
  - split; [done|]. simpl. unfold scripts. intros Hd.
    destruct c as [k v|]; simpl; rewrite deref_store_eq.
    + by apply JsMapFacts.NoDup_keys_set.
    + apply NoDup_nil_2.
  - done.
Qed.

Lemma play_keys target p moves :
  NoDup (JsMap.keys (local_scripts (play (new_session target p) moves))).
Proof.
  induction moves as [|m moves IH] using rev_ind.
  - by destruct (scripts_wf_new target p).
  - rewrite play_snoc. by apply move_keys.
Qed.

End Facts.

(** ** Closures, one after the other *)

Section Closures.

Context {resolver : UrlResolver}.

Lemma count_cons_eq (l : Listener) ls :
  length (filter (λ l', l' = l) (l :: ls)) =
  S (length (filter (λ l', l' = l) ls)).
Proof. by rewrite filter_cons_True. Qed.

Lemma count_cons_ne (l l0 : Listener) ls :
  l0 ≠ l →
  length (filter (λ l', l' = l) (l0 :: ls)) =
  length (filter (λ l', l' = l) ls).
Proof. intros. by rewrite filter_cons_False. Qed.

Lemma count_app (l : Listener) ls ls' :
  length (filter (λ l', l' = l) (ls ++ ls')) =
  (length (filter (λ l', l' = l) ls) +
   length (filter (λ l', l' = l) ls'))%nat.
Proof. by rewrite filter_app, length_app. Qed.

Lemma count_pos (l : Listener) ls :
  l ∈ ls → (0 < length (filter (λ l', l' = l) ls))%nat.
Proof.
  intros Hl. assert (Hin : l ∈ filter (λ l', l' = l) ls)
    by (apply list_elem_of_filter; by split).
  destruct (filter _ ls); [by apply elem_of_nil in Hin|simpl; lia].
Qed.

(** A closure called for an event of another kind does nothing. *)
Lemma call_listener_other l e this p :
  l ≠ listener_for e → call_listener l e this p = (this, p, []).
Proof. by destruct l, e. Qed.

Lemma call_listener_for e this p :
  call_listener (listener_for e) e this p =
  match e with
  | ExecutionContextsCleared => _reset this p
  | Paused event => onPaused event this p
  | Resumed => onResumed this p
  | ScriptParsed event => _onScriptParsed event this p
  end.
Proof. by destruct e. Qed.

(** No closure changes the thread but for its paused state, nor the limits
    of the process, nor the maps of the other threads. *)
Lemma call_listener_frame l e this p :
  let o := call_listener l e this p in
  _target o.1.1 = _target this ∧
  _threadName o.1.1 = _threadName this ∧
  _threadId o.1.1 = _threadId this ∧
  _scripts o.1.1 = _scripts this ∧
  maxArguments o.1.2 = maxArguments p ∧
  _lastThreadId o.1.2 = _lastThreadId p ∧
  (∀ r, r ≠ _scripts this → deref r o.1.2 = deref r p).
Proof.
  destruct (decide (l = listener_for e)) as [->|Hl];
    [|by rewrite call_listener_other].
  rewrite call_listener_for. destruct e as [|event| |event]; try done.
  - by destruct (reset_outcome this p) as (p' & -> & _ & ? & _ & ? & ?).
  - by destruct (onScriptParsed_outcome event this p)
      as (p' & -> & _ & ? & _ & ? & ?).
Qed.

Lemma dispatch_frame ls e this p :
  let o := dispatch ls e this p in
  _target o.1.1 = _target this ∧
  _threadName o.1.1 = _threadName this ∧
  _threadId o.1.1 = _threadId this ∧
  _scripts o.1.1 = _scripts this ∧
  maxArguments o.1.2 = maxArguments p ∧
  _lastThreadId o.1.2 = _lastThreadId p ∧
  (∀ r, r ≠ _scripts this → deref r o.1.2 = deref r p).
Proof.
  apply (dispatch_inv (λ this' p' _,
    _target this' = _target this ∧
    _threadName this' = _threadName this ∧
    _threadId this' = _threadId this ∧
    _scripts this' = _scripts this ∧
    maxArguments p' = maxArguments p ∧
    _lastThreadId p' = _lastThreadId p ∧
    (∀ r, r ≠ _scripts this → deref r p' = deref r p)) e);
    [|exact []|done].
  intros l this1 p1 _ (Ht & Hn & Hi & Hs & Hm & Hc & Hr).
  destruct (call_listener_frame l e this1 p1) as (Ht' & Hn' & Hi' & Hs' & Hm' & Hc' & Hr').
  repeat split; try congruence.
  intros r Hne. rewrite Hr' by congruence. by apply Hr.
Qed.

Lemma dispatch_target ls e this p :
  _target (dispatch ls e this p).1.1 = _target this.
Proof. by destruct (dispatch_frame ls e this p) as (? & _). Qed.

(** With the four closures subscribed once each, an event reaches one of
    them. *)
Lemma dispatch_subscriptions e this p :
  dispatch subscriptions e this p = call_listener (listener_for e) e this p.
Proof.
  destruct e; cbn [dispatch subscriptions listener_for call_listener].
  - destruct (_reset this p) as [[this1 p1] fx1]. simpl.
    destruct (throws fx1); [done|]. by rewrite app_nil_r.
  - done.
  - done.
  - destruct (onScriptParsed_outcome event this p) as (p' & -> & _).
    simpl. rewrite throws_registration by apply attachment_cases.
    by rewrite app_nil_r.
Qed.

(** *** "Paused" and "resumed" *)

Lemma dispatch_paused_calls ls event this p :
  let k := length (filter (λ l, l = OnPaused) ls) in
  let this' := with_pausedDetails (JsValue event) this in
  dispatch ls (Paused event) this p =
  (match k with 0%nat => this | S _ => this' end, p,
   replicate k (Emit ThreadPaused this')).
Proof.
  revert this. induction ls as [|l ls IH]; intros this; [done|].
  destruct (decide (l = OnPaused)) as [->|Hl].
  - rewrite count_cons_eq. cbn [dispatch call_listener onPaused].
    cbn [throws last]. fold (with_pausedDetails (JsValue event) this).
    rewrite IH. cbn zeta.
    by destruct (length (filter (λ l, l = OnPaused) ls)).
  - rewrite count_cons_ne by done. cbn [dispatch].
    rewrite call_listener_other by (by destruct l).
    cbn [throws last]. rewrite IH. cbn zeta.
    by destruct (length (filter (λ l, l = OnPaused) ls)).
Qed.

Lemma dispatch_resumed_calls ls this p :
  let k := length (filter (λ l, l = OnResumed) ls) in
  let this' := with_pausedDetails JsNull this in
  dispatch ls Resumed this p =
  (match k with 0%nat => this | S _ => this' end, p,
   replicate k (Emit ThreadResumed this')).
Proof.
  revert this. induction ls as [|l ls IH]; intros this; [done|].
  destruct (decide (l = OnResumed)) as [->|Hl].
  - rewrite count_cons_eq. cbn [dispatch call_listener onResumed].
    cbn [throws last]. fold (with_pausedDetails JsNull this).
    rewrite IH. cbn zeta.
    by destruct (length (filter (λ l, l = OnResumed) ls)).
  - rewrite count_cons_ne by done. cbn [dispatch].
    rewrite call_listener_other by (by destruct l).
    cbn [throws last]. rewrite IH. cbn zeta.
    by destruct (length (filter (λ l, l = OnResumed) ls)).
Qed.

Lemma dispatch_paused ls event this p :
  _pausedDetails (dispatch ls (Paused event) this p).1.1 =
  if bool_decide (OnPaused ∈ ls) then JsValue event else _pausedDetails this.
Proof.
  rewrite dispatch_paused_calls. cbn zeta. case_bool_decide as Hin.
  - apply count_pos in Hin.
    destruct (length (filter (λ l, l = OnPaused) ls)); [lia|done].
  - destruct (filter (λ l, l = OnPaused) ls) as [|l ls'] eqn:E; [done|].
    destruct Hin.
    assert (Hl : l ∈ filter (λ l, l = OnPaused) ls)
      by (rewrite E; apply elem_of_cons; by left).
    by apply list_elem_of_filter in Hl as [-> Hl].
Qed.

Lemma dispatch_resumed ls this p :
  _pausedDetails (dispatch ls Resumed this p).1.1 =
  if bool_decide (OnResumed ∈ ls) then JsNull else _pausedDetails this.
Proof.
  rewrite dispatch_resumed_calls. cbn zeta. case_bool_decide as Hin.
  - apply count_pos in Hin.
    destruct (length (filter (λ l, l = OnResumed) ls)); [lia|done].
  - destruct (filter (λ l, l = OnResumed) ls) as [|l ls'] eqn:E; [done|].
    destruct Hin.
    assert (Hl : l ∈ filter (λ l, l = OnResumed) ls)
      by (rewrite E; apply elem_of_cons; by left).
    by apply list_elem_of_filter in Hl as [-> Hl].
Qed.

Lemma call_listener_pausedDetails l e this p :
  (∀ event, e ≠ Paused event) → e ≠ Resumed →
  _pausedDetails (call_listener l e this p).1.1 = _pausedDetails this.
Proof.
  intros Hp Hr. destruct l, e; simpl; try done.
  - by destruct (reset_outcome this p) as (p' & -> & _).
  - by destruct (Hp event).
  - by destruct (onScriptParsed_outcome event this p) as (p' & -> & _).
Qed.

Lemma dispatch_pausedDetails ls e this p :
  (∀ event, e ≠ Paused event) → e ≠ Resumed →
  _pausedDetails (dispatch ls e this p).1.1 = _pausedDetails this.
Proof.
  intros Hp Hr.
  apply (dispatch_inv (λ this' _ _, _pausedDetails this' = _pausedDetails this)
           e); [|exact []|done].
  intros l this1 p1 _ H1. by rewrite call_listener_pausedDetails.
Qed.

(** *** "Contexts cleared" *)

(** Each closure subscribed for the event resets the thread: the first takes
    what the map holds, and those after it find the map empty; when the
    first throws, those after it are not called. *)
Lemma dispatch_cleared ls this p :
  let held := JsMap.values (deref (_scripts this) p) in
  let k := length (filter (λ l, l = OnExecutionContextsCleared) ls) in
  let o := dispatch ls ExecutionContextsCleared this p in
  o.1.1 = this ∧
  nextSource o.1.2 = nextSource p ∧
  deref (_scripts this) o.1.2 =
    match k with 0%nat => deref (_scripts this) p | S _ => JsMap.empty end ∧
  o.2 =
    match k with
    | 0%nat => []
    | S k' =>
        if spreads held p
        then RemoveSources held :: replicate k' (RemoveSources [])
        else [Throw RangeError]
    end.
Proof.
  revert p. induction ls as [|l ls IH]; intros p; [done|].
  destruct (decide (l = OnExecutionContextsCleared)) as [->|Hl].
  - rewrite count_cons_eq. cbn [dispatch call_listener]. cbn zeta.
    destruct (reset_outcome this p) as (p1 & -> & Hmap & _ & Hnext & _ & Hmax).
    destruct (spreads _ p) eqn:Hfits; cbn [throws last]; [|done].
    specialize (IH p1). cbn zeta in IH.
    destruct (dispatch ls ExecutionContextsCleared this p1)
      as [[this2 p2] fx2].
    destruct IH as (Hthis & Hnext2 & Hmap2 & Hfx). simpl in *.
    rewrite Hmap in Hmap2, Hfx.
    assert (Hempty : spreads (JsMap.values JsMap.empty) p1 = true).
    { unfold spreads. simpl. apply N.leb_le. lia. }
    rewrite Hempty in Hfx.
    split; [done|]. split; [congruence|]. split.
    + by destruct (length (filter _ ls)).
    + rewrite Hfx. by destruct (length (filter _ ls)).
  - rewrite count_cons_ne by done. cbn [dispatch].
    rewrite call_listener_other by (by destruct l).
    cbn [throws last]. specialize (IH p).
    by destruct (dispatch ls ExecutionContextsCleared this p)
      as [[this2 p2] fx2].
Qed.

(** *** "Script parsed" *)

(** The calls of the registrations of the handles [sources]. *)
Lemma dispatch_scriptParsed ls event this p :
  let k := length (filter (λ l, l = OnScriptParsed) ls) in
  let sources := source_of event <$> seq (nextSource p) k in
  let o := dispatch ls (ScriptParsed event) this p in
  o.1.1 = this ∧
  nextSource o.1.2 = (nextSource p + k)%nat ∧
  deref (_scripts this) o.1.2 =
    foldl (λ m source, JsMap.set (scriptId event) source m)
      (deref (_scripts this) p) sources ∧
  o.2 = sources ≫= (λ source, AddSource source :: attachment event this source).
Proof.
  revert p. induction ls as [|l ls IH]; intros p.
  - simpl. repeat split. lia.
  - destruct (decide (l = OnScriptParsed)) as [->|Hl].
    + rewrite count_cons_eq. cbn [dispatch call_listener]. cbn zeta.
      destruct (onScriptParsed_outcome event this p)
        as (p1 & -> & Hmap & _ & Hnext & _).
      rewrite throws_registration by apply attachment_cases.
      specialize (IH p1). cbn zeta in IH.
      destruct (dispatch ls (ScriptParsed event) this p1)
        as [[this2 p2] fx2].
      destruct IH as (Hthis & Hnext2 & Hmap2 & Hfx). simpl in *.
      rewrite Hnext in Hnext2, Hmap2, Hfx. rewrite Hmap in Hmap2.
      split; [done|]. split; [lia|]. split; [done|].
      by rewrite Hfx.
    + rewrite count_cons_ne by done. cbn [dispatch].
      rewrite call_listener_other by (by destruct l).
      cbn [throws last]. specialize (IH p).
      by destruct (dispatch ls (ScriptParsed event) this p)
        as [[this2 p2] fx2].
Qed.

(** The map after the registrations of one event. *)
Lemma register_all_get id m sources :
  JsMap.get id (foldl (λ m source, JsMap.set id source m) m sources) =
  match last sources with
  | Some source => Some source
  | None => JsMap.get id m
  end.
Proof.
  induction sources as [|source sources IH] using rev_ind; [done|].
  rewrite foldl_app, last_snoc. simpl. apply JsMapFacts.get_set_eq.
Qed.

Lemma register_all_get_ne id id' m sources :
  id ≠ id' →
  JsMap.get id' (foldl (λ m source, JsMap.set id source m) m sources) =
  JsMap.get id' m.
Proof.
  intros Hne. induction sources as [|source sources IH] using rev_ind; [done|].
  rewrite foldl_app. simpl. by rewrite JsMapFacts.get_set_ne.
Qed.

Lemma register_all_last id m sources source :
  last sources = Some source →
  foldl (λ m source, JsMap.set id source m) m sources = JsMap.set id source m.
Proof.
  revert source. induction sources as [|x sources IH] using rev_ind;
    intros source; [done|].
  rewrite last_snoc. intros [= ->]. rewrite foldl_app. simpl.
  destruct (last sources) as [y|] eqn:E.
  - rewrite (IH y) by done. apply JsMapFacts.set_set.
  - apply last_None in E. by subst.
Qed.

Lemma additions_registrations (sources : list Source)
    (att : Source → list Effect) :
  (∀ source, additions (att source) = []) →
  additions (sources ≫= (λ source, AddSource source :: att source)) = sources.
Proof.
  intros Hatt. unfold additions in *.
  induction sources as [|source sources IH]; [done|].
  rewrite bind_cons. change (AddSource source :: att source)
    with ([AddSource source] ++ att source).
  rewrite !omap_app, Hatt, IH. done.
Qed.

Lemma additions_attachment event this source :
  additions (attachment event this source) = [].
Proof. by destruct (attachment_cases event this source) as [->|[r ->]]. Qed.

Lemma removals_registrations (sources : list Source) event this :
  removals (sources ≫= (λ source,
    AddSource source :: attachment event this source)) = [].
Proof.
  unfold removals. induction sources as [|source sources IH]; [done|].
  rewrite bind_cons. change (AddSource source :: attachment event this source)
    with ([AddSource source] ++ attachment event this source).
  rewrite !omap_app, IH.
  by destruct (attachment_cases event this source) as [->|[r ->]].
Qed.

End Closures.

(** ** Turns *)

Section Turns.

Context {resolver : UrlResolver}.

(** *** The calls of one turn *)

Lemma calls_of_finish s i o :
  turn s i = finish s o → calls_of_turn s i = o.2.
Proof.
  intros E. unfold calls_of_turn. rewrite E.
  destruct o as [[this p] fx]; simpl. apply drop_app_length.
Qed.

Lemma calls_of_idle s i : trace (turn s i) = trace s → calls_of_turn s i = [].
Proof. intros E. unfold calls_of_turn. rewrite E. apply drop_all. Qed.

Lemma calls_of_navigate s u : calls_of_turn s (Navigate u) = [].
Proof. by apply calls_of_idle. Qed.

Lemma trace_continue_initialize pc s :
  trace (continue_initialize pc s) =
  trace s ++ (block (initialize pc).1 (thr s)).2.
Proof.
  unfold continue_initialize. destruct (initialize pc) as [stmts pc'].
  simpl. by destruct (block stmts (thr s)) as [this fx].
Qed.

(** The calls of a turn on any thread, listening or not. *)
Lemma calls_of_turn_any s i :
  calls_of_turn s i =
  match i with
  | CallInitialize => (block (initialize InitStart).1 (thr s)).2
  | EnableAcknowledged =>
      match awaits s with
      | pc :: _ => (block (initialize pc).1 (thr s)).2
      | [] => []
      end
  | EnableFailed => []
  | Push e =>
      if bool_decide (event_domain e ∈ activated (_target (thr s)))
      then (dispatch (listeners (_target (thr s))) e (thr s) (proc s)).2
      else []
  | CallResume => (resume (thr s) (proc s)).2
  | CallDispose => (dispose (thr s) (proc s)).2
  | CallSetThreadName name => (setThreadName name (thr s) (proc s)).2
  | Navigate _ => []
  end.
Proof.
  destruct i.
  - unfold calls_of_turn. cbn [turn]. rewrite trace_continue_initialize.
    apply drop_app_length.
  - destruct (awaits s) as [|pc rest] eqn:E.
    + apply calls_of_idle. cbn [turn]. by rewrite E.
    + unfold calls_of_turn. cbn [turn]. rewrite E.
      rewrite trace_continue_initialize. apply drop_app_length.
  - apply calls_of_idle. cbn [turn]. by destruct (awaits s).
  - case_bool_decide as Hactive.
    + apply calls_of_finish. cbn [turn]. by rewrite bool_decide_eq_true_2.
    + apply calls_of_idle. cbn [turn]. by rewrite bool_decide_eq_false_2.
  - by apply calls_of_finish.
  - by apply calls_of_finish.
  - by apply calls_of_finish.
  - apply calls_of_navigate.
Qed.

Lemma trace_turn s i : trace (turn s i) = trace s ++ calls_of_turn s i.
Proof.
  assert (∃ fx, trace (turn s i) = trace s ++ fx) as [fx Hfx].
  { destruct i; cbn [turn].
    - rewrite trace_continue_initialize. eauto.
    - destruct (awaits s) as [|pc rest]; [exists []; by rewrite app_nil_r|].
      rewrite trace_continue_initialize. simpl. eauto.
    - destruct (awaits s); exists []; by rewrite app_nil_r.
    - case_bool_decide; [|exists []; by rewrite app_nil_r].
      destruct (dispatch _ e _ _) as [[this q] fx]. simpl. eauto.
    - simpl. eauto.
    - unfold finish. destruct (dispose _ _) as [[this q] fx]. simpl. eauto.
    - simpl. eauto.
    - exists []. by rewrite app_nil_r. }
  unfold calls_of_turn. rewrite Hfx. by rewrite drop_app_length.
Qed.

Lemma trace_move s m : trace (move s m) = trace s ++ calls_of_move s m.
Proof.
  unfold calls_of_move. destruct m as [i|c|source]; cbn [move].
  - rewrite trace_turn. by rewrite drop_app_length.
  - simpl. by rewrite drop_all, app_nil_r.
  - simpl. by rewrite drop_app_length.
Qed.

Lemma calls_of_move_any s m :
  calls_of_move s m =
  match m with
  | Turn i => calls_of_turn s i
  | OnScripts _ => []
  | AskContent source => getContent source
  end.
Proof.
  unfold calls_of_move. destruct m as [i|c|source]; cbn [move]; [done| |].
  - simpl. by rewrite drop_all.
  - simpl. by rewrite drop_app_length.
Qed.

(** A delivered event is handled by the closures subscribed. *)
Lemma turn_push s e :
  event_domain e ∈ activated (_target (thr s)) →
  turn s (Push e) =
  finish s (dispatch (listeners (_target (thr s))) e (thr s) (proc s)).
Proof. intros He. cbn [turn]. by rewrite bool_decide_eq_true_2. Qed.

Lemma calls_of_push s e :
  event_domain e ∈ activated (_target (thr s)) →
  calls_of_turn s (Push e) =
  (dispatch (listeners (_target (thr s))) e (thr s) (proc s)).2.
Proof. intros He. rewrite calls_of_turn_any. by rewrite bool_decide_eq_true_2. Qed.

(** *** Subscriptions and activations *)

(** What a stretch of [initialize] subscribes and activates. *)
Lemma continue_initialize_target pc s :
  let s' := continue_initialize pc s in
  listeners (_target (thr s')) =
    listeners (_target (thr s)) ++
    match pc with
    | InitStart => [OnExecutionContextsCleared]
    | AwaitRuntimeEnable => [OnPaused; OnResumed; OnScriptParsed]
    | _ => []
    end ∧
  activated (_target (thr s')) =
    activated (_target (thr s)) ++
    match pc with
    | InitStart => [Runtime]
    | AwaitRuntimeEnable => [Debugger]
    | _ => []
    end.
Proof.
  unfold continue_initialize.
  destruct pc; simpl; rewrite ?app_nil_r, <- ?app_assoc; done.
Qed.

(** What a turn subscribes and activates. *)
Lemma turn_target s i :
  listeners (_target (thr (turn s i))) =
    listeners (_target (thr s)) ++
    match i, awaits s with
    | CallInitialize, _ => [OnExecutionContextsCleared]
    | EnableAcknowledged, AwaitRuntimeEnable :: _ =>
        [OnPaused; OnResumed; OnScriptParsed]
    | EnableAcknowledged, InitStart :: _ => [OnExecutionContextsCleared]
    | _, _ => []
    end ∧
  activated (_target (thr (turn s i))) =
    activated (_target (thr s)) ++
    match i, awaits s with
    | CallInitialize, _ => [Runtime]
    | EnableAcknowledged, AwaitRuntimeEnable :: _ => [Debugger]
    | EnableAcknowledged, InitStart :: _ => [Runtime]
    | _, _ => []
    end.
Proof.
  destruct i; cbn [turn].
  - apply continue_initialize_target.
  - destruct (awaits s) as [|pc rest]; [by rewrite !app_nil_r|].
    destruct (continue_initialize_target pc (answered s)) as [-> ->].
    by destruct pc.
  - destruct (awaits s); by rewrite !app_nil_r.
  - rewrite !app_nil_r. case_bool_decide; [|done].
    pose proof (dispatch_target (listeners (_target (thr s))) e (thr s)
                  (proc s)) as Htarget.
    destruct (dispatch _ e _ _) as [[this q] fx]. simpl in *.
    by rewrite Htarget.
  - by rewrite !app_nil_r.
  - rewrite !app_nil_r.
    by destruct (dispose_outcome (thr s) (proc s)) as (p' & -> & _).
  - by rewrite !app_nil_r.
  - by rewrite !app_nil_r.
Qed.

Lemma move_target s m :
  (∀ i, m ≠ Turn i) → _target (thr (move s m)) = _target (thr s).
Proof. intros Hm. destruct m as [i|c|source]; [by destruct (Hm i)|done|done]. Qed.

(** The suspended calls of [initialize] are suspended at an [await]. *)
Lemma awaits_turn s i :
  Forall (λ pc, awaiting pc = true) (awaits s) →
  Forall (λ pc, awaiting pc = true) (awaits (turn s i)).
Proof.
  intros Hs. destruct i; cbn [turn]; try done.
  - unfold continue_initialize; simpl. apply Forall_app. split; [done|].
    by apply Forall_singleton.
  - destruct (awaits s) as [|pc rest] eqn:E; [by rewrite E|].
    apply Forall_cons in Hs as [Hpc Hrest].
    unfold continue_initialize, answered. rewrite E.
    destruct pc; try done; simpl; rewrite ?app_nil_r; try done.
    apply Forall_app. split; [done|]. by apply Forall_singleton.
  - destruct (awaits s) as [|pc rest] eqn:E; [by rewrite E|].
    by apply Forall_cons in Hs as [Hpc Hrest].
  - case_bool_decide; [|done].
    unfold finish. by destruct (dispatch _ e _ _) as [[this q] fx].
  - unfold finish. by destruct (dispose _ _) as [[this q] fx].
Qed.

Lemma awaits_move s m :
  Forall (λ pc, awaiting pc = true) (awaits s) →
  Forall (λ pc, awaiting pc = true) (awaits (move s m)).
Proof. destruct m as [i|c|source]; [apply awaits_turn|done|done]. Qed.

Lemma awaits_play target p moves :
  Forall (λ pc, awaiting pc = true)
    (awaits (play (new_session target p) moves)).
Proof.
  induction moves as [|m moves IH] using rev_ind; [done|].
  rewrite play_snoc. by apply awaits_move.
Qed.

(** The closures of an active domain are subscribed. *)
Lemma subscribed_when_active_turn s i :
  (∀ l, listener_domain l ∈ activated (_target (thr s)) →
        l ∈ listeners (_target (thr s))) →
  ∀ l, listener_domain l ∈ activated (_target (thr (turn s i))) →
       l ∈ listeners (_target (thr (turn s i))).
Proof.
  intros Hs l. destruct (turn_target s i) as [-> ->].
  intros [Hl|Hl]%elem_of_app; [apply elem_of_app; left; by apply Hs|].
  apply elem_of_app. right.
  destruct i; try (by apply elem_of_nil in Hl).
  - apply list_elem_of_singleton in Hl. destruct l; try done.
    apply elem_of_cons. by left.
  - destruct (awaits s) as [|[] rest]; try (by apply elem_of_nil in Hl);
      apply list_elem_of_singleton in Hl; destruct l; try done;
      rewrite !elem_of_cons; auto.
Qed.

Lemma subscribed_when_active_play u p moves l :
  let s := play (new_session (fresh_target u) p) moves in
  listener_domain l ∈ activated (_target (thr s)) →
  l ∈ listeners (_target (thr s)).
Proof.
  revert l. induction moves as [|m moves IH] using rev_ind; intros l s.
  - intros Hl. by apply elem_of_nil in Hl.
  - unfold s. rewrite play_snoc. destruct m as [i|c|source]; try apply IH.
    by apply subscribed_when_active_turn.
Qed.

Lemma subscribed_when_active u p inputs l :
  let s := run (new_session (fresh_target u) p) inputs in
  listener_domain l ∈ activated (_target (thr s)) →
  l ∈ listeners (_target (thr s)).
Proof.
  intros s. unfold s. rewrite <- play_turns.
  apply subscribed_when_active_play.
Qed.

(** An activation sent stays sent. *)
Lemma activated_turn s i d :
  d ∈ activated (_target (thr s)) → d ∈ activated (_target (thr (turn s i))).
Proof.
  intros Hd. destruct (turn_target s i) as [_ ->]. apply elem_of_app. by left.
Qed.

Lemma activated_run s inputs d :
  d ∈ activated (_target (thr s)) →
  d ∈ activated (_target (thr (run s inputs))).
Proof.
  revert s. induction inputs as [|i inputs IH]; intros s Hd; [done|].
  simpl. by apply IH, activated_turn.
Qed.

(** From the second [await] of a first call of [initialize] on, the thread
    listens. *)
Lemma hears_run u p inputs :
  hears (run (listening_session (fresh_target u) p) inputs).
Proof.
  assert (Hactive : ∀ d,
    d ∈ activated (_target
      (thr (run (listening_session (fresh_target u) p) inputs)))).
  { intros d. apply activated_run. simpl.
    destruct d; rewrite !elem_of_cons; auto. }
  split; [done|]. intros l. unfold listening_session.
  rewrite <- run_app. apply subscribed_when_active.
  rewrite run_app. apply Hactive.
Qed.

Lemma hears_turn s i : hears s → hears (turn s i).
Proof.
  intros [Ha Hl]. split.
  - intros d. by apply activated_turn.
  - intros l. destruct (turn_target s i) as [-> _]. apply elem_of_app. by left.
Qed.

Lemma hears_subscribed s l :
  hears s → (1 ≤ subscribed l (_target (thr s)))%nat.
Proof. intros [_ Hl]. unfold subscribed. by apply count_pos. Qed.

(** *** One call of [initialize] *)

Lemma ready_listening u p : ready (listening_session (fresh_target u) p).
Proof.
  split; [done|]. split; [done|]. simpl. by apply Forall_singleton.
Qed.

Lemma ready_hears s : ready s → hears s.
Proof.
  intros (Hl & Ha & _). split.
  - intros d. rewrite Ha. destruct d; rewrite !elem_of_cons; auto.
  - intros l. rewrite Hl. unfold subscriptions.
    destruct l; rewrite !elem_of_cons; auto.
Qed.

Lemma ready_subscribed s l : ready s → subscribed l (_target (thr s)) = 1%nat.
Proof. intros (Hl & _). unfold subscribed. rewrite Hl. by destruct l. Qed.

Lemma ready_turn s i : i ≠ CallInitialize → ready s → ready (turn s i).
Proof.
  intros Hi (Hl & Ha & Hw). unfold ready.
  destruct (turn_target s i) as [-> ->]. rewrite Hl, Ha.
  destruct i; try done; cbn [turn]; rewrite ?app_nil_r.
  - destruct (awaits s) as [|pc rest] eqn:E; [by rewrite E, !app_nil_r|].
    apply Forall_cons in Hw as [-> Hw].
    rewrite !app_nil_r. unfold continue_initialize, answered. rewrite E.
    simpl. by rewrite app_nil_r.
  - destruct (awaits s) as [|pc rest] eqn:E; [by rewrite E|].
    by apply Forall_cons in Hw as [_ Hw].
  - case_bool_decide; [|done].
    unfold finish. by destruct (dispatch _ e _ _) as [[this q] fx].
  - unfold finish. by destruct (dispose _ _) as [[this q] fx].
Qed.

Lemma ready_run s inputs :
  CallInitialize ∉ inputs → ready s → ready (run s inputs).
Proof.
  revert s. induction inputs as [|i inputs IH]; intros s Hin Hs; [done|].
  simpl. apply IH.
  - intros Hi. apply Hin. by apply elem_of_cons; right.
  - apply ready_turn; [|done]. intros ->. apply Hin. by apply elem_of_cons; left.
Qed.

(** *** The paused state *)

(** Only a "paused" and a "resumed" event write the paused state. *)
Lemma turn_pausedDetails_kept s i :
  (∀ event, i ≠ Push (Paused event)) → i ≠ Push Resumed →
  _pausedDetails (thr (turn s i)) = _pausedDetails (thr s).
Proof.
  intros Hp Hr. destruct i; cbn [turn].
  - by destruct (continue_initialize_fields InitStart s) as (_ & _ & -> & _).
  - destruct (awaits s) as [|pc rest]; [done|].
    by destruct (continue_initialize_fields pc (answered s))
      as (_ & _ & -> & _).
  - by destruct (awaits s).
  - case_bool_decide; [|done].
    pose proof (dispatch_pausedDetails (listeners (_target (thr s))) e
                  (thr s) (proc s)) as Hkept.
    destruct (dispatch _ e _ _) as [[this p] fx]. simpl in *.
    apply Hkept; congruence.
  - done.
  - by destruct (dispose_outcome (thr s) (proc s)) as (p' & -> & _).
  - done.
  - done.
Qed.

Lemma turn_paused s event :
  hears s → _pausedDetails (thr (turn s (Push (Paused event)))) = JsValue event.
Proof.
  intros [Ha Hl]. rewrite turn_push by apply Ha.
  pose proof (dispatch_paused (listeners (_target (thr s))) event (thr s)
                (proc s)) as Hd.
  destruct (dispatch _ _ _ _) as [[this q] fx]. simpl in *.
  by rewrite Hd, bool_decide_eq_true_2.
Qed.

Lemma turn_resumed s :
  hears s → _pausedDetails (thr (turn s (Push Resumed))) = JsNull.
Proof.
  intros [Ha Hl]. rewrite turn_push by apply Ha.
  pose proof (dispatch_resumed (listeners (_target (thr s))) (thr s)
                (proc s)) as Hd.
  destruct (dispatch _ _ _ _) as [[this q] fx]. simpl in *.
  by rewrite Hd, bool_decide_eq_true_2.
Qed.

Lemma last_pause_snoc inputs i :
  last_pause (inputs ++ [i]) =
  match pause_payload i with
  | Some event => Some event
  | None => last_pause inputs
  end.
Proof.
  unfold last_pause. rewrite omap_app. simpl.
  destruct (pause_payload i); [apply last_snoc|by rewrite app_nil_r].
Qed.

(** A payload held is the payload of the last "paused" event, and it was
    delivered by an active debugger domain. *)
Lemma held_payload_is_last_pause u p inputs event :
  let s := run (new_session (fresh_target u) p) inputs in
  _pausedDetails (thr s) = JsValue event →
  last_pause inputs = Some event ∧ Debugger ∈ activated (_target (thr s)).
Proof.
  revert event. induction inputs as [|i inputs IH] using rev_ind;
    intros event s; [done|].
  unfold s. rewrite run_snoc, last_pause_snoc. clear s.
  pose proof (subscribed_when_active u p inputs) as Hsub.
  set (s := run _ inputs) in *. simpl in Hsub.
  destruct (decide (i = Push Resumed)) as [->|Hr];
    [|destruct (pause_payload i) as [payload|] eqn:Ei].
  - cbn [turn pause_payload event_domain]. case_bool_decide as Hactive.
    + pose proof (dispatch_resumed (listeners (_target (thr s))) (thr s)
                    (proc s)) as Hd.
      destruct (dispatch _ Resumed _ _) as [[this q] fx]. simpl in *.
      rewrite Hd, bool_decide_eq_true_2 by by apply (Hsub OnResumed). done.
    + intros Hheld. by destruct (IH event Hheld).
  - destruct i as [| | |[]| | | |]; try done. injection Ei as ->.
    cbn [turn event_domain]. case_bool_decide as Hactive.
    + pose proof (dispatch_paused (listeners (_target (thr s))) payload
                    (thr s) (proc s)) as Hd.
      pose proof (dispatch_target (listeners (_target (thr s)))
                    (Paused payload) (thr s) (proc s)) as Htarget.
      destruct (dispatch _ (Paused payload) _ _) as [[this q] fx]. simpl in *.
      rewrite Hd, bool_decide_eq_true_2 by by apply (Hsub OnPaused).
      intros [= ->]. by rewrite Htarget.
    + intros Hheld. by destruct (IH event Hheld).
  - rewrite turn_pausedDetails_kept; [|by intros payload ->|done].
    intros Hheld. destruct (IH event Hheld). split; [done|].
    by apply activated_turn.
Qed.

(** A "resumed" event leaves no payload: it is delivered and writes
    [null], or the debugger domain is not active yet and nothing was ever
    held. *)
Lemma resumed_leaves_absent u p inputs :
  let s := run (new_session (fresh_target u) p) inputs in
  is_absent (_pausedDetails (thr (turn s (Push Resumed)))) = true.
Proof.
  intros s. pose proof (subscribed_when_active u p inputs) as Hsub.
  fold s in Hsub. simpl in Hsub.
  cbn [turn event_domain]. case_bool_decide as Hactive.
  - pose proof (dispatch_resumed (listeners (_target (thr s))) (thr s)
                  (proc s)) as Hd.
    destruct (dispatch _ Resumed _ _) as [[this q] fx]. simpl in *.
    by rewrite Hd, bool_decide_eq_true_2 by by apply (Hsub OnResumed).
  - destruct (_pausedDetails (thr s)) as [| |payload] eqn:E; [done|done|].
    by apply held_payload_is_last_pause in E as [_ E].
Qed.

(** *** The document url *)

Lemma targetUrl_turn s i :
  targetUrl (_target (thr (turn s i))) =
  default (targetUrl (_target (thr s))) (navigated i).
Proof.
  destruct i; cbn [turn navigated default].
  - by destruct (continue_initialize_fields InitStart s)
      as (_ & _ & _ & _ & -> & _).
  - destruct (awaits s) as [|pc rest]; [done|].
    by destruct (continue_initialize_fields pc (answered s))
      as (_ & _ & _ & _ & -> & _).
  - by destruct (awaits s).
  - case_bool_decide; [|done].
    pose proof (dispatch_target (listeners (_target (thr s))) e (thr s)
                  (proc s)) as Htarget.
    destruct (dispatch _ e _ _) as [[this q] fx]. simpl in *.
    by rewrite Htarget.
  - done.
  - by destruct (dispose_outcome (thr s) (proc s)) as (p' & -> & _).
  - done.
  - done.
Qed.

Lemma targetUrl_run s inputs :
  targetUrl (_target (thr (run s inputs))) =
  current_url (targetUrl (_target (thr s))) inputs.
Proof.
  induction inputs as [|i inputs IH] using rev_ind; [done|].
  rewrite run_snoc, targetUrl_turn, IH. unfold current_url.
  rewrite omap_app. simpl.
  destruct (navigated i); simpl; [by rewrite last_snoc|by rewrite app_nil_r].
Qed.

(** *** Names of scripts *)

Lemma truthy_empty (s : string) : truthy s = false ↔ s = "".
Proof.
  unfold truthy. destruct (String.eqb_spec s ""); simpl; split; congruence.
Qed.

Lemma readableUrl_cases event :
  readableUrl event =
  if decide (url event = "") then "VM" +:+ scriptId event else url event.
Proof.
  unfold readableUrl. destruct (truthy (url event)) eqn:E.
  - rewrite decide_False; [done|]. intros Hu%truthy_empty. congruence.
  - by rewrite decide_True by by apply truthy_empty.
Qed.

(** In a well-formed map the handles stand under the script ids they were
    made for. *)
Lemma script_ids_of_values (m : JsMap.t) :
  (∀ k v, (k, v) ∈ m → contentScriptId v = k) →
  contentScriptId <$> JsMap.values m = JsMap.keys m.
Proof.
  unfold JsMap.values, JsMap.keys.
  induction m as [|[k v] m IH]; intros Hm; [done|].
  rewrite !fmap_cons. simpl. f_equal.
  - apply Hm. apply elem_of_cons. by left.
  - apply IH. intros k' v' Hin. apply Hm. by apply elem_of_cons; right.
Qed.

End Turns.

(** ** Registrations and resets *)

Section Scripts.

Context {resolver : UrlResolver}.

(** What one "script parsed" event does once the debugger domain is
    active: one registration for each subscription of the closure, each
    with a handle of its own, the last of which stays in the map. *)
Lemma turn_scriptParsed s event :
  Debugger ∈ activated (_target (thr s)) →
  let s' := turn s (Push (ScriptParsed event)) in
  let k := subscribed OnScriptParsed (_target (thr s)) in
  let sources := source_of event <$> seq (nextSource (proc s)) k in
  thr s' = thr s ∧
  nextSource (proc s') = (nextSource (proc s) + k)%nat ∧
  local_scripts s' =
    foldl (λ m source, JsMap.set (scriptId event) source m)
      (local_scripts s) sources ∧
  calls_of_turn s (Push (ScriptParsed event)) =
    sources ≫= (λ source,
      AddSource source :: attachment event (thr s) source).
Proof.
  intros Ha s' k sources. unfold s', local_scripts, scripts.
  rewrite calls_of_push, turn_push by done.
  destruct (dispatch_scriptParsed (listeners (_target (thr s))) event
              (thr s) (proc s)) as (Hthis & Hnext & Hmap & Hfx).
  destruct (dispatch _ _ _ _) as [[this q] fx]. simpl in *. subst this.
  by repeat split.
Qed.

Lemma sources_last event (n k : nat) :
  last (source_of event <$> seq n (S k)) = Some (source_of event (n + k)).
Proof.
  rewrite seq_S, fmap_app. simpl. apply last_snoc.
Qed.

(** The registrations of one event, on a thread that listens. *)
Lemma turn_scriptParsed_hears s event :
  hears s →
  let s' := turn s (Push (ScriptParsed event)) in
  let calls := calls_of_turn s (Push (ScriptParsed event)) in
  ∃ source,
    last (additions calls) = Some source ∧
    local_scripts s' = JsMap.set (scriptId event) source (local_scripts s) ∧
    (∀ v, v ∈ additions calls →
       sourceUrl v = readableUrl event ∧
       contentScriptId v = scriptId event ∧
       (nextSource (proc s) ≤ sourceRef v < nextSource (proc s'))%nat) ∧
    thr s' = thr s.
Proof.
  intros Hs s' calls.
  destruct (turn_scriptParsed s event) as (Hthis & Hnext & Hmap & Hcalls);
    [apply Hs|].
  pose proof (hears_subscribed s OnScriptParsed Hs) as Hk.
  fold s' in Hthis, Hnext, Hmap. fold calls in Hcalls.
  destruct (subscribed OnScriptParsed (_target (thr s))) as [|k] eqn:Ek;
    [lia|].
  assert (Hadd : additions calls =
    source_of event <$> seq (nextSource (proc s)) (S k)).
  { rewrite Hcalls. apply additions_registrations.
    intros source. apply additions_attachment. }
  exists (source_of event (nextSource (proc s) + k)).
  rewrite Hadd. split; [apply sources_last|]. split.
  - rewrite Hmap. apply register_all_last, sources_last.
  - split; [|done]. intros v [ref [-> Href]]%list_elem_of_fmap.
    apply elem_of_seq in Href. simpl. split; [done|]. split; [done|lia].
Qed.

Lemma spreads_le (args : list Source) p :
  spreads args p = true ↔ (N.of_nat (length args) ≤ maxArguments p)%N.
Proof. unfold spreads. apply N.leb_le. Qed.

Lemma spreads_gt (args : list Source) p :
  spreads args p = false ↔ (maxArguments p < N.of_nat (length args))%N.
Proof. unfold spreads. apply N.leb_gt. Qed.

Lemma replicate_removals n :
  additions (replicate n (RemoveSources [])) = [] ∧
  attach_calls (replicate n (RemoveSources [])) = [] ∧
  removals (replicate n (RemoveSources [])) = replicate n [].
Proof.
  induction n as [|n (IHa & IHc & IHr)]; [done|].
  split; [apply IHa|]. split; [apply IHc|].
  cbn [replicate]. change (removals (RemoveSources [] :: ?fx))
    with ([] :: removals fx). by rewrite IHr.
Qed.

Lemma throws_removals ss n :
  throws (RemoveSources ss :: replicate n (RemoveSources [])) = false.
Proof.
  assert (Hlast : ∀ e, last (e :: replicate n (RemoveSources [])) =
    Some (match n with 0%nat => e | S _ => RemoveSources [] end)).
  { induction n as [|n IH]; intros e; [done|].
    cbn [replicate]. rewrite last_cons_cons, IH. by destruct n. }
  unfold throws. rewrite Hlast. by destruct n.
Qed.

(** What a reset does, [dispose()] on any thread and a "contexts cleared"
    event once the runtime domain is active: the map is empty afterwards;
    the first call of [removeSources] takes what the map held, and the
    calls after it, one for each further subscription of the closure, take
    nothing; and when what the map held is more than a call takes, there is
    no call at all. *)
Lemma turn_reset s reset :
  resets reset = true →
  reset = CallDispose ∨ Runtime ∈ activated (_target (thr s)) →
  let s' := turn s reset in
  let calls := calls_of_turn s reset in
  let held := JsMap.values (local_scripts s) in
  let k :=
    match reset with
    | CallDispose => 1%nat
    | _ => subscribed OnExecutionContextsCleared (_target (thr s))
    end in
  thr s' = thr s ∧
  nextSource (proc s') = nextSource (proc s) ∧
  local_scripts s' =
    match k with 0%nat => local_scripts s | S _ => JsMap.empty end ∧
  additions calls = [] ∧
  attach_calls calls = [] ∧
  removals calls =
    match k with
    | 0%nat => []
    | S k' => if spreads held (proc s) then held :: replicate k' [] else []
    end ∧
  throws calls =
    match k with 0%nat => false | S _ => negb (spreads held (proc s)) end.
Proof.
  intros Hreset Hactive s' calls held k.
  unfold s', calls, local_scripts, scripts.
  destruct reset as [| | |[]| | | |]; try done.
  - destruct Hactive as [?|Hactive]; [done|].
    rewrite calls_of_push, turn_push by done.
    destruct (dispatch_cleared (listeners (_target (thr s))) (thr s) (proc s))
      as (Hthis & Hnext & Hmap & Hfx).
    destruct (dispatch _ _ _ _) as [[this q] fx]. simpl in *. subst this.
    split; [done|]. split; [done|]. split; [done|]. subst fx.
    unfold k, held, subscribed, local_scripts, scripts. clear k.
    destruct (length (filter _ _)) as [|k']; [done|].
    destruct (spreads _ (proc s)); [|done].
    destruct (replicate_removals k') as (Ha & Hc & Hr).
    pose proof (throws_removals (JsMap.values (deref (_scripts (thr s)) (proc s))) k') as Ht.
    split; [apply Ha|]. split; [apply Hc|]. split; [|apply Ht].
    change (removals (RemoveSources ?ss :: ?fx)) with (ss :: removals fx).
    by rewrite Hr.
  - rewrite (calls_of_finish _ _ (dispose (thr s) (proc s))) by done.
    cbn [turn].
    destruct (dispose_outcome (thr s) (proc s))
      as (p' & -> & Hmap & _ & Hnext & _).
    simpl. split; [done|]. split; [done|]. split; [done|].
    unfold held, local_scripts, scripts. by destruct (spreads _ (proc s)).
Qed.

(** The removals of a reset are of what the map holds, or of nothing. *)
Lemma removals_of_reset s reset removed :
  resets reset = true →
  removed ∈ removals (calls_of_turn s reset) →
  removed = JsMap.values (local_scripts s) ∨ removed = [].
Proof.
  intros Hreset Hin.
  destruct (decide (reset = CallDispose ∨
                    Runtime ∈ activated (_target (thr s)))) as [Ha|Ha].
  - destruct (turn_reset s reset Hreset Ha) as (_ & _ & _ & _ & _ & Hr & _).
    rewrite Hr in Hin.
    destruct (match reset with CallDispose => 1%nat | _ => _ end) as [|k'];
      [by apply elem_of_nil in Hin|].
    destruct (spreads _ _); [|by apply elem_of_nil in Hin].
    apply elem_of_cons in Hin as [->|Hin]; [by left|right].
    by apply elem_of_replicate in Hin as [-> _].
  - destruct reset as [| | |[]| | | |]; try done.
    + rewrite calls_of_turn_any in Hin. simpl in Hin.
      rewrite bool_decide_eq_false_2 in Hin by tauto.
      by apply elem_of_nil in Hin.
    + destruct Ha. by left.
Qed.

(** Every other turn leaves the scripts alone. *)
Lemma turn_quiet s i :
  resets i = false →
  (∀ event, i ≠ Push (ScriptParsed event)) →
  local_scripts (turn s i) = local_scripts s ∧
  nextSource (proc (turn s i)) = nextSource (proc s) ∧
  off_registry (calls_of_turn s i) ∧
  throws (calls_of_turn s i) = false.
Proof.
  intros Hreset Hscript. rewrite calls_of_turn_any.
  unfold local_scripts, scripts.
  assert (Hinit : ∀ pc (this : Thread),
    off_registry (block (initialize pc).1 this).2 ∧
    throws (block (initialize pc).1 this).2 = false).
  { intros pc this. split; [|by destruct pc].
    intros e He. destruct pc; simpl in He;
      rewrite ?elem_of_cons, elem_of_nil in He;
      repeat (destruct He as [->|He]; [done|]); done. }
  destruct i as [| | |[|payload| |event]| | | |]; cbn [turn].
  - destruct (continue_initialize_fields InitStart s)
      as (_ & -> & _ & _ & _ & ->).
    split; [done|]. split; [done|]. apply Hinit.
  - destruct (awaits s) as [|pc rest].
    + split; [done|]. split; [done|]. split; [|done].
      intros e He. by apply elem_of_nil in He.
    + destruct (continue_initialize_fields pc (answered s))
        as (_ & -> & _ & _ & _ & ->).
      split; [done|]. split; [done|]. apply (Hinit pc (thr s)).
  - destruct (awaits s); (split; [done|]; split; [done|]; split; [|done]);
      intros e He; by apply elem_of_nil in He.
  - done.
  - case_bool_decide.
    + rewrite dispatch_paused_calls. cbn zeta. simpl.
      split; [by destruct (length _)|]. split; [done|]. split.
      * intros e [-> _]%elem_of_replicate. done.
      * unfold throws. destruct (length _) as [|n]; [done|].
        replace (S n) with (n + 1)%nat by lia.
        rewrite replicate_add. simpl. by rewrite last_snoc.
    + split; [done|]. split; [done|]. split; [|done].
      intros e He. by apply elem_of_nil in He.
  - case_bool_decide.
    + rewrite dispatch_resumed_calls. cbn zeta. simpl.
      split; [by destruct (length _)|]. split; [done|]. split.
      * intros e [-> _]%elem_of_replicate. done.
      * unfold throws. destruct (length _) as [|n]; [done|].
        replace (S n) with (n + 1)%nat by lia.
        rewrite replicate_add. simpl. by rewrite last_snoc.
    + split; [done|]. split; [done|]. split; [|done].
      intros e He. by apply elem_of_nil in He.
  - by destruct (Hscript event).
  - split; [done|]. split; [done|]. split; [|done].
    intros e He. apply list_elem_of_singleton in He. by subst.
  - done.
  - split; [done|]. split; [done|]. split; [|done].
    intros e He. simpl in He. rewrite !elem_of_cons, elem_of_nil in He.
    by destruct He as [->|[->|[]]].
  - split; [done|]. split; [done|]. split; [|done].
    intros e He. by apply elem_of_nil in He.
Qed.

Lemma off_registry_none fx :
  off_registry fx →
  additions fx = [] ∧ removals fx = [] ∧ attach_calls fx = [].
Proof.
  unfold additions, removals, attach_calls.
  induction fx as [|e fx IH]; intros Hoff; [done|].
  destruct (Hoff e) as (Ha & Hr & Hc); [by apply elem_of_cons; left|].
  destruct IH as (IHa & IHr & IHc).
  { intros e' He'. apply Hoff. by apply elem_of_cons; right. }
  change (e :: fx) with ([e] ++ fx).
  rewrite !omap_app, IHa, IHr, IHc. simpl. by rewrite Ha, Hr, Hc.
Qed.

(** Each removal of any turn is of all that the map holds, or of nothing. *)
Lemma removals_of_turn s i removed :
  removed ∈ removals (calls_of_turn s i) →
  removed = JsMap.values (local_scripts s) ∨ removed = [].
Proof.
  intros Hin. destruct (resets i) eqn:Hreset;
    [by eapply removals_of_reset|].
  destruct i as [| | |[|payload| |event]| | | |];
    try (destruct (turn_quiet s _ Hreset ltac:(done)) as (_ & _ & Hoff & _);
         apply off_registry_none in Hoff as (_ & Hr & _);
         rewrite Hr in Hin; by apply elem_of_nil in Hin); try done.
  rewrite calls_of_turn_any in Hin. case_bool_decide as Ha;
    [|by apply elem_of_nil in Hin].
  destruct (dispatch_scriptParsed (listeners (_target (thr s))) event
              (thr s) (proc s)) as (_ & _ & _ & Hfx).
  rewrite Hfx, removals_registrations in Hin. by apply elem_of_nil in Hin.
Qed.

End Scripts.

(** ** The id counter *)

Lemma js_incr_min c : c ≤ MAX_EXACT → js_incr c = Z.min (c + 1) MAX_EXACT.
Proof. unfold js_incr. intros Hc. destruct (Z.ltb_spec c MAX_EXACT); lia. Qed.

Lemma construct_all_length targets p :
  length (construct_all targets p).1 = length targets.
Proof.
  revert p. induction targets as [|target targets IH]; intros p; [done|].
  cbn [construct_all constructor].
  match goal with |- context [construct_all targets ?q] =>
    specialize (IH q); destruct (construct_all targets q) as [others p2] end.
  simpl in *. by rewrite IH.
Qed.

(** The [i]-th thread made gets the counter stepped [i + 1] times, which
    is exact up to [2^53] and stays there. *)
Lemma construct_all_id targets p i this :
  _lastThreadId p ≤ MAX_EXACT →
  (construct_all targets p).1 !! i = Some this →
  _threadId this = Z.min (_lastThreadId p + Z.of_nat i + 1) MAX_EXACT.
Proof.
  revert p i. induction targets as [|target targets IH]; intros p i Hc; [done|].
  cbn [construct_all constructor].
  match goal with |- context [construct_all targets ?q] =>
    specialize (IH q); destruct (construct_all targets q) as [others p2] end.
  simpl in IH. simpl. destruct i as [|i]; simpl.
  - intros [= <-]. simpl. rewrite js_incr_min by done. lia.
  - intros Hi. rewrite (IH i); [|rewrite js_incr_min by done; lia|done].
    rewrite js_incr_min by done. lia.
Qed.

(** ** Calls of [initialize], and source maps *)

Section Subscriptions.

Context {resolver : UrlResolver}.

(** The closure for "contexts cleared" is subscribed once by each call of
    [initialize], at the call. *)
Lemma subscribed_cleared_turn s i :
  Forall (λ pc, awaiting pc = true) (awaits s) →
  subscribed OnExecutionContextsCleared (_target (thr (turn s i))) =
  (subscribed OnExecutionContextsCleared (_target (thr s)) +
   if decide (i = CallInitialize) then 1 else 0)%nat.
Proof.
  intros Hw. unfold subscribed. destruct (turn_target s i) as [-> _].
  rewrite count_app. f_equal.
  destruct i; try done.
  destruct (awaits s) as [|pc rest]; [done|].
  apply Forall_cons in Hw as [Hpc _]. by destruct pc.
Qed.

Lemma subscribed_cleared_play u p moves :
  let s := play (new_session (fresh_target u) p) moves in
  subscribed OnExecutionContextsCleared (_target (thr s)) =
  length (filter (λ m, m = Turn CallInitialize) moves).
Proof.
  induction moves as [|m moves IH] using rev_ind; [done|].
  - cbn zeta in *. rewrite play_snoc, filter_app, length_app.
    destruct m as [i|c|source]; cbn [move].
    + rewrite subscribed_cleared_turn by apply awaits_play. rewrite IH.
      destruct (decide (i = CallInitialize)) as [->|Hi].
      * rewrite filter_cons_True by done. simpl. lia.
      * rewrite filter_cons_False by congruence. simpl. lia.
    + rewrite filter_cons_False by done. simpl. rewrite IH. lia.
    + rewrite filter_cons_False by done. simpl. rewrite IH. lia.
Qed.

(** Calls among which there is no exception do not end with one. *)
Lemma throws_none fx :
  Forall (λ e, ∀ err, e ≠ Throw err) fx → throws fx = false.
Proof.
  intros Hfx. unfold throws. destruct (last fx) as [e|] eqn:E; [|done].
  apply last_Some_elem_of in E.
  rewrite Forall_forall in Hfx. specialize (Hfx e E).
  destruct e; try done. by destruct (Hfx e).
Qed.

Lemma throws_registrations (sources : list Source) event this :
  throws (sources ≫= (λ source,
    AddSource source :: attachment event this source)) = false.
Proof.
  apply throws_none, Forall_forall. intros e He err ->.
  apply list_elem_of_bind in He as (source & He & _).
  apply elem_of_cons in He as [He|He]; [done|].
  destruct (attachment_cases event this source) as [Ha|[r Ha]];
    rewrite Ha in He.
  - by apply elem_of_nil in He.
  - by apply list_elem_of_singleton in He.
Qed.

Lemma attach_calls_none (sources : list Source) (att : Source → list Effect) :
  (∀ source, att source = []) →
  attach_calls (sources ≫= (λ source, AddSource source :: att source)) = [].
Proof.
  intros Hatt. unfold attach_calls.
  induction sources as [|source sources IH]; [done|].
  rewrite bind_cons, Hatt, omap_app, IH. done.
Qed.

Lemma attach_calls_each (sources : list Source) (att : Source → list Effect)
    resolved :
  (∀ source, att source = [AttachSourceMap source resolved]) →
  attach_calls (sources ≫= (λ source, AddSource source :: att source)) =
  (λ source, (source, resolved)) <$> sources.
Proof.
  intros Hatt. unfold attach_calls.
  induction sources as [|source sources IH]; [done|].
  rewrite bind_cons, Hatt, fmap_cons, omap_app, IH. done.
Qed.

(** What is attached when the event carries a source-map url. *)
Lemma attachment_with_map event this source mapUrl :
  sourceMapURL event = Some mapUrl →
  truthy mapUrl = true →
  attachment event this source =
  match
    resolveSourceMapUrl (completeUrl (targetUrl (_target this)) (url event))
      mapUrl
  with
  | Some resolved =>
      if truthy resolved then [AttachSourceMap source resolved] else []
  | None => []
  end.
Proof. intros Hmap Htruthy. unfold attachment. by rewrite Hmap, Htruthy. Qed.

Lemma attachment_without_map event this source :
  truthy_opt (sourceMapURL event) = false →
  attachment event this source = [].
Proof.
  unfold attachment. destruct (sourceMapURL event) as [mapUrl|]; [|done].
  simpl. by intros ->.
Qed.

End Subscriptions.

(** ** Many scripts *)

Section ManyScripts.

Context {resolver : UrlResolver}.

Lemma maxArguments_turn s i :
  maxArguments (proc (turn s i)) = maxArguments (proc s).
Proof.
  destruct i; cbn [turn].
  - by destruct (continue_initialize_fields InitStart s)
      as (_ & _ & _ & _ & _ & ->).
  - destruct (awaits s) as [|pc rest]; [done|].
    by destruct (continue_initialize_fields pc (answered s))
      as (_ & _ & _ & _ & _ & ->).
  - by destruct (awaits s).
  - case_bool_decide; [|done].
    destruct (dispatch_frame (listeners (_target (thr s))) e (thr s) (proc s))
      as (_ & _ & _ & _ & Hmax & _).
    by destruct (dispatch _ e _ _) as [[this q] fx].
  - done.
  - by destruct (dispose_outcome (thr s) (proc s))
      as (p' & -> & _ & _ & _ & _ & ?).
  - done.
  - done.
Qed.

Lemma maxArguments_run s inputs :
  maxArguments (proc (run s inputs)) = maxArguments (proc s).
Proof.
  induction inputs as [|i inputs IH] using rev_ind; [done|].
  by rewrite run_snoc, maxArguments_turn.
Qed.

Lemma many_scripts_S n :
  many_scripts (S n) =
  many_scripts n ++ [Push (ScriptParsed (numbered_script n))].
Proof. unfold many_scripts. by rewrite seq_S, fmap_app. Qed.

Lemma many_scripts_once n : CallInitialize ∉ many_scripts n.
Proof.
  unfold many_scripts. by intros (i & ? & _)%list_elem_of_fmap.
Qed.

(** The scripts numbered [0] to [n - 1], reported to a thread that has
    just begun to listen: the map holds them all, and [removeSources] has
    not been called. *)
Lemma many_scripts_registered u p n :
  let s := run (listening_session (fresh_target u) p) (many_scripts n) in
  JsMap.keys (local_scripts s) = pretty <$> seq 0 n ∧
  removals (trace s) = [].
Proof.
  induction n as [|n [IHkeys IHremovals]].
  - split; [|done]. unfold local_scripts, deref. simpl.
    by rewrite lookup_total_insert_eq.
  - cbn zeta in *. rewrite many_scripts_S, run_snoc.
    set (s := run _ (many_scripts n)) in *.
    assert (Hs : hears s) by apply hears_run.
    destruct (turn_scriptParsed_hears s (numbered_script n) Hs)
      as (source & _ & -> & _).
    destruct (turn_scriptParsed s (numbered_script n)) as (_ & _ & _ & Hcalls);
      [apply Hs|].
    split.
    + rewrite JsMapFacts.keys_set, IHkeys, seq_S, fmap_app.
      rewrite bool_decide_eq_false_2; [done|].
      intros (i & Hi & Hin%elem_of_seq)%list_elem_of_fmap.
      cbn [scriptId numbered_script] in Hi. apply (inj pretty) in Hi. lia.
    + rewrite trace_turn. unfold removals in *.
      rewrite omap_app, IHremovals, Hcalls. apply removals_registrations.
Qed.

(** ... and [dispose()] called then, on an engine that takes fewer than
    [n] arguments in one call. *)
Lemma dispose_of_many_scripts u p n :
  (maxArguments p < N.of_nat n)%N →
  let s := run (listening_session (fresh_target u) p) (many_scripts n) in
  let s' := turn s CallDispose in
  length (local_scripts s) = n ∧
  local_scripts s' = JsMap.empty ∧
  removals (trace s') = [] ∧
  throws (calls_of_turn s CallDispose) = true.
Proof.
  intros Hover s s'.
  destruct (many_scripts_registered u p n) as [Hkeys Hremovals].
  fold s in Hkeys, Hremovals.
  assert (Hlength : length (local_scripts s) = n).
  { rewrite <- JsMapFacts.length_keys, Hkeys.
    by rewrite length_fmap, length_seq. }
  assert (Hmax : maxArguments (proc s) = maxArguments p)
    by (unfold s; by rewrite maxArguments_run).
  assert (Hs : spreads (JsMap.values (local_scripts s)) (proc s) = false).
  { apply spreads_gt. rewrite JsMapFacts.length_values, Hlength, Hmax. done. }
  destruct (turn_reset s CallDispose eq_refl (or_introl eq_refl))
    as (_ & _ & Hlocal & _ & _ & Hr & Ht).
  fold s' in Hlocal. rewrite Hs in Hr, Ht.
  split; [done|]. split; [done|]. split; [|done].
  unfold s'. rewrite trace_turn. unfold removals in *.
  by rewrite omap_app, Hremovals, Hr.
Qed.

End ManyScripts.

(** * The claims *)

Section Claims.

Context {resolver : UrlResolver}.

(** C2, as the code has it.  For every thread, from its construction on
    and whatever the turns: a "resumed" event clears the paused state; a
    reset, whether [dispose()] or the one a "contexts cleared" event
    triggers, leaves the paused state as it is; and at all times the
    paused state is either absent or the payload of the last "paused"
    event, and never both. *)
Theorem paused_state_cleared_by_resumed_only (u : string) (p : Process)
    (inputs : list Input) :
  let s := run (new_session (fresh_target u) p) inputs in
  is_absent (pausedDetails (thr (turn s (Push Resumed)))) = true ∧
  pausedDetails (thr (turn s (Push ExecutionContextsCleared))) =
    pausedDetails (thr s) ∧
  pausedDetails (thr (turn s CallDispose)) = pausedDetails (thr s) ∧
  ((is_absent (pausedDetails (thr s)) = true ∧
    ∀ payload, pausedDetails (thr s) ≠ JsValue payload) ∨
   (is_absent (pausedDetails (thr s)) = false ∧
    ∃ payload,
      last_pause inputs = Some payload ∧
      pausedDetails (thr s) = JsValue payload)).
Proof.
  intros s. unfold pausedDetails. split; [|split; [|split]].
  - apply resumed_leaves_absent.
  - by apply turn_pausedDetails_kept.
  - by apply turn_pausedDetails_kept.
  - destruct (_pausedDetails (thr s)) as [| |payload] eqn:E.
    + by left.
    + by left.
    + right. split; [done|]. exists payload. split; [|done].
      by apply held_payload_is_last_pause in E as [E _].
Qed.

(** C3.  On a thread that listens, so on every thread whose [initialize]
    has returned: as long as no "paused" event has come, [pausedDetails()]
    is absent; right after a "paused" event it is the payload of that
    event; right after the "resumed" event that follows it is absent again
    (it reads [null]). *)
Theorem paused_state_follows_events (u : string) (p : Process)
    (quiet inputs : list Input) (payload : PausedEvent) :
  Forall (λ i, is_pause i = false) quiet →
  let s0 := listening_session (fresh_target u) p in
  is_absent (pausedDetails (thr (run s0 quiet))) = true ∧
  pausedDetails (thr (run s0 (inputs ++ [Push (Paused payload)])))
    = JsValue payload ∧
  pausedDetails (thr (run s0 (inputs ++ [Push (Paused payload); Push Resumed])))
    = JsNull ∧
  is_absent (pausedDetails
    (thr (run s0 (inputs ++ [Push (Paused payload); Push Resumed])))) = true.
Proof.
  intros Hquiet s0. unfold pausedDetails.
  assert (Hafter : _pausedDetails
      (thr (run s0 (inputs ++ [Push (Paused payload); Push Resumed]))) = JsNull).
  { change [Push (Paused payload); Push Resumed]
      with ([Push (Paused payload)] ++ [Push Resumed]).
    rewrite app_assoc, run_snoc. apply turn_resumed, hears_run. }
  split; [|split; [|split; [done|by rewrite Hafter]]].
  - induction quiet as [|i quiet IH] using rev_ind; [done|].
    rewrite Forall_app, Forall_singleton in Hquiet.
    destruct Hquiet as [Hquiet Hi].
    specialize (IH Hquiet). rewrite run_snoc.
    destruct (decide (i = Push Resumed)) as [->|Hr].
    + rewrite turn_resumed; [done|apply hears_run].
    + rewrite turn_pausedDetails_kept; [done| |done].
      intros event ->. by cbv in Hi.
  - rewrite run_snoc. apply turn_paused, hears_run.
Qed.

(** C4, as the code has it.  As long as the counter, a count of the
    threads made, stays within the integers a number holds exactly (it ends
    at [2^53] at most), the ids of the threads made are the successive
    values of the counter: they are strictly increasing in the order of
    construction, hence pairwise distinct.  No turn changes the id of a
    thread. *)
Theorem thread_ids_increase_while_exact (targets : list Target) (p : Process) :
  0 ≤ _lastThreadId p →
  _lastThreadId p + Z.of_nat (length targets) ≤ MAX_EXACT →
  let threads := (construct_all targets p).1 in
  (∀ i this, threads !! i = Some this →
     threadId this = _lastThreadId p + Z.of_nat i + 1) ∧
  (∀ i j a b, (i < j)%nat → threads !! i = Some a → threads !! j = Some b →
     threadId a < threadId b) ∧
  NoDup (threadId <$> threads) ∧
  (∀ s i, threadId (thr (turn s i)) = threadId (thr s)).
Proof.
  intros _ Hbound threads.
  assert (Hid : ∀ i this, threads !! i = Some this →
     threadId this = _lastThreadId p + Z.of_nat i + 1).
  { intros i this Hi. unfold threadId.
    pose proof (lookup_lt_Some _ _ _ Hi) as Hlt.
    unfold threads in Hlt. rewrite construct_all_length in Hlt.
    rewrite (construct_all_id targets p i this) by (done || lia). lia. }
  split; [done|]. split; [|split].
  - intros i j a b Hij Ha Hb. rewrite (Hid i a), (Hid j b) by done. lia.
  - apply NoDup_alt. intros i j x.
    rewrite !list_lookup_fmap.
    destruct (threads !! i) as [a|] eqn:Ha; [|done].
    destruct (threads !! j) as [b|] eqn:Hb; [|done].
    simpl. intros [= <-] [= Hx]. rewrite (Hid i a), (Hid j b) in Hx by done. lia.
  - intros s i. unfold threadId.
    by destruct (turn_evolves s i) as (Hkept & _).
Qed.


(** C5, as the code has it.  A "script parsed" event that carries a
    source-map url resolves in two steps: the url of the script against the
    document url the target has at that moment (the one of its last
    navigation), then the source-map url against the resolved url of the
    script.  The event is handled once for each subscription of the closure,
    so once for each call of [initialize] that has reached its second
    stretch, and each time a handle of its own is registered: there is one
    when [initialize] has been called once, the last in any case being the
    one the map keeps.  When the first step gives nothing, or the second,
    the turn makes no [attachSourceMap] call; it ends all the same, without
    an exception, with the handles added and registered.  When both give a
    url, the turn makes exactly one [attachSourceMap] call for each handle
    it registers, with the url of the second step: exactly one call when
    [initialize] has been called once. *)
Theorem source_map_attached_when_both_steps_resolve (u : string)
    (p : Process) (inputs : list Input) (event : ScriptParsedEvent)
    (mapUrl : string) :
  sourceMapURL event = Some mapUrl →
  truthy mapUrl = true →
  let s := run (listening_session (fresh_target u) p) inputs in
  let calls := calls_of_turn s (Push (ScriptParsed event)) in
  let resolvedSourceUrl :=
    completeUrl (targetUrl (_target (thr s))) (url event) in
  let registered := additions calls in
  targetUrl (_target (thr s)) = current_url u inputs ∧
  length registered = subscribed OnScriptParsed (_target (thr s)) ∧
  (1 ≤ length registered)%nat ∧
  (CallInitialize ∉ inputs → length registered = 1%nat) ∧
  (∃ source,
     last registered = Some source ∧
     JsMap.get (scriptId event)
       (local_scripts (turn s (Push (ScriptParsed event)))) = Some source) ∧
  throws calls = false ∧
  (truthy_opt resolvedSourceUrl = false → attach_calls calls = []) ∧
  (∀ scriptUrl,
     resolvedSourceUrl = Some scriptUrl → truthy scriptUrl = true →
     truthy_opt (completeUrl scriptUrl mapUrl) = false →
     attach_calls calls = []) ∧
  (∀ scriptUrl resolved,
     resolvedSourceUrl = Some scriptUrl → truthy scriptUrl = true →
     completeUrl scriptUrl mapUrl = Some resolved → truthy resolved = true →
     attach_calls calls = (λ source, (source, resolved)) <$> registered).
Proof.
  intros Hmap Htruthy s calls resolvedSourceUrl registered.
  assert (Hs : hears s) by apply hears_run.
  destruct (turn_scriptParsed s event) as (_ & _ & _ & Hcalls); [apply Hs|].
  fold calls in Hcalls.
  set (sources := source_of event <$> seq (nextSource (proc s))
         (subscribed OnScriptParsed (_target (thr s)))) in *.
  assert (Hregistered : registered = sources).
  { unfold registered. rewrite Hcalls. apply additions_registrations.
    intros source. apply additions_attachment. }
  assert (Hlength : length registered =
    subscribed OnScriptParsed (_target (thr s))).
  { rewrite Hregistered. unfold sources. by rewrite length_fmap, length_seq. }
  split; [unfold s; by rewrite targetUrl_run|].
  split; [done|].
  split; [rewrite Hlength; by apply hears_subscribed|].
  split.
  { intros Honce. rewrite Hlength. apply ready_subscribed.
    by apply ready_run, ready_listening. }
  split.
  { destruct (turn_scriptParsed_hears s event Hs)
      as (source & Hlast & Hlocal & _).
    exists source. split; [done|]. rewrite Hlocal.
    apply JsMapFacts.get_set_eq. }
  split; [rewrite Hcalls; apply throws_registrations|].
  rewrite Hcalls, Hregistered. fold resolvedSourceUrl.
  assert (Hatt : ∀ source, attachment event (thr s) source =
    match resolveSourceMapUrl resolvedSourceUrl mapUrl with
    | Some resolved =>
        if truthy resolved then [AttachSourceMap source resolved] else []
    | None => []
    end) by (intros source; by apply attachment_with_map).
  unfold resolveSourceMapUrl in Hatt.
  split; [|split].
  - intros Hnone. apply attach_calls_none. intros source. rewrite Hatt.
    destruct resolvedSourceUrl as [scriptUrl|]; [|done].
    simpl in Hnone. by rewrite !Hnone.
  - intros scriptUrl Hfirst Hscript Hsecond. apply attach_calls_none.
    intros source. rewrite Hatt, Hfirst, Hscript.
    destruct (completeUrl scriptUrl mapUrl) as [resolved|]; [|done].
    simpl in Hsecond. by rewrite Hsecond.
  - intros scriptUrl resolved Hfirst Hscript Hsecond Hresolved.
    apply attach_calls_each. intros source.
    by rewrite Hatt, Hfirst, Hscript, Hsecond, Hresolved.
Qed.

(** C6.  Every source a "script parsed" event registers is named by the
    url of the event when that url is not empty, and by ["VM"] followed by
    the script id otherwise: so is each handle the event hands to
    [addSource], of which there is one at least, and so is the handle the
    map holds under the script id afterwards; an event with an empty url
    and script id ["7"] registers a source named ["VM7"]. *)
Theorem source_named_by_url_or_vm_id (u : string) (p : Process)
    (inputs : list Input) (event : ScriptParsedEvent) :
  let s := run (listening_session (fresh_target u) p) inputs in
  let registered (e : ScriptParsedEvent) :=
    JsMap.get (scriptId e) (local_scripts (turn s (Push (ScriptParsed e)))) in
  let name :=
    if decide (url event = "") then "VM" +:+ scriptId event else url event in
  (∃ source,
     registered event = Some source ∧
     source ∈ additions (calls_of_turn s (Push (ScriptParsed event))) ∧
     sourceUrl source = name) ∧
  (∀ source,
     source ∈ additions (calls_of_turn s (Push (ScriptParsed event))) →
     sourceUrl source = name) ∧
  (∀ mapUrl,
     sourceUrl <$>
       registered {| scriptId := "7"; url := ""; sourceMapURL := mapUrl |}
     = Some "VM7").
Proof.
  intros s registered name.
  assert (Hs : hears s) by apply hears_run.
  assert (Hnamed : ∀ e, ∃ source,
    registered e = Some source ∧
    source ∈ additions (calls_of_turn s (Push (ScriptParsed e))) ∧
    sourceUrl source = readableUrl e).
  { intros e. destruct (turn_scriptParsed_hears s e Hs)
      as (source & Hlast & Hlocal & Hprops & _).
    exists source. unfold registered. rewrite Hlocal.
    split; [apply JsMapFacts.get_set_eq|].
    apply last_Some_elem_of in Hlast. split; [done|].
    by destruct (Hprops source Hlast). }
  split; [|split].
  - destruct (Hnamed event) as (source & Hget & Hin & Hname).
    exists source. unfold name. by rewrite <- readableUrl_cases.
  - intros source Hin.
    destruct (turn_scriptParsed_hears s event Hs) as (_ & _ & _ & Hprops & _).
    destruct (Hprops source Hin) as (-> & _). apply readableUrl_cases.
  - intros mapUrl.
    destruct (Hnamed {| scriptId := "7"; url := ""; sourceMapURL := mapUrl |})
      as (source & -> & _ & Hname).
    simpl. by rewrite Hname.
Qed.

(** C7.  [initialize()] runs in this order: it subscribes the closure for
    "contexts cleared" and sends the activation of the first domain, then
    waits; once that is acknowledged it subscribes the closures for
    "paused", "resumed" and "script parsed" and sends the activation of the
    second domain, then waits; once that is acknowledged it returns.  In
    the calls it has made, every subscription stands before the activation
    of the domain of its event; and at every moment, whatever comes in
    between, the closures of every domain whose activation has been sent
    are subscribed. *)
Theorem initialize_subscribes_before_activating (u : string) (p : Process) :
  let s0 := new_session (fresh_target u) p in
  let s1 := turn s0 CallInitialize in
  let s2 := turn s1 EnableAcknowledged in
  let s3 := turn s2 EnableAcknowledged in
  (calls_of_turn s0 CallInitialize =
     [CdpOn Runtime OnExecutionContextsCleared; CdpSend RuntimeEnable] ∧
   init s1 = AwaitRuntimeEnable) ∧
  (calls_of_turn s1 EnableAcknowledged =
     [CdpOn Debugger OnPaused; CdpOn Debugger OnResumed;
      CdpOn Debugger OnScriptParsed; CdpSend DebuggerEnable] ∧
   init s2 = AwaitDebuggerEnable) ∧
  (calls_of_turn s2 EnableAcknowledged = [] ∧ init s3 = InitDone) ∧
  (∀ i j d l c,
     trace s3 !! i = Some (CdpOn d l) →
     trace s3 !! j = Some (CdpSend c) →
     activates c = Some d →
     d = listener_domain l ∧ (i < j)%nat) ∧
  (∀ inputs l,
     let s := run s0 inputs in
     listener_domain l ∈ activated (_target (thr s)) →
     l ∈ listeners (_target (thr s))).
Proof.
  intros s0 s1 s2 s3. split; [done|]. split; [done|]. split; [done|]. split.
  - intros i j d l c Hi Hj Hc.
    assert (Htrace : trace s3 =
      [DebugLog (ThreadCreated (js_incr (_lastThreadId p)));
       CdpOn Runtime OnExecutionContextsCleared; CdpSend RuntimeEnable;
       CdpOn Debugger OnPaused; CdpOn Debugger OnResumed;
       CdpOn Debugger OnScriptParsed; CdpSend DebuggerEnable]) by done.
    rewrite Htrace in Hi, Hj. clear Htrace.
    repeat (destruct i as [|i]; simpl in Hi; try discriminate Hi);
      injection Hi as <- <-;
      repeat (destruct j as [|j]; simpl in Hj; try discriminate Hj);
      injection Hj as <-; try discriminate Hc; (split; [done|lia]).
  - intros inputs l. apply subscribed_when_active.
Qed.

(** C8.  A call of [resume()] sends exactly one command, the resume
    command, and changes nothing of the thread nor of the process: id,
    name, paused state and script map are as they were.  The paused state
    goes when the "resumed" event is delivered afterwards. *)
Theorem resume_sends_one_command_and_keeps_state (u : string) (p : Process)
    (inputs : list Input) :
  (∀ this q, resume this q = (this, q, [CdpSend DebuggerResume])) ∧
  (∀ s,
     calls_of_turn s CallResume = [CdpSend DebuggerResume] ∧
     thr (turn s CallResume) = thr s ∧
     proc (turn s CallResume) = proc s ∧
     local_scripts (turn s CallResume) = local_scripts s) ∧
  (let s := run (listening_session (fresh_target u) p) inputs in
   pausedDetails (thr (turn s CallResume)) = pausedDetails (thr s) ∧
   pausedDetails (thr (turn (turn s CallResume) (Push Resumed))) = JsNull).
Proof.
  split; [done|]. split.
  - intros s. split; [|done].
    by rewrite (calls_of_finish _ _ (resume (thr s) (proc s))).
  - intros s. split; [done|]. unfold pausedDetails.
    apply turn_resumed, hears_turn, hears_run.
Qed.

(** C9, as the code has it.  [scripts()] answers the very [Map] the thread
    keeps in [_scripts], not a copy and not a read-only view of it: the
    call changes nothing, a reader sees the association of the thread, and
    a [set] or a [clear] a caller makes on the value answered is made on
    the script map of the thread; other maps are left alone. *)
Theorem scripts_answers_the_map_itself (this : Thread) (p : Process)
    (c : MapCall) :
  scripts this = _scripts this ∧
  deref (_scripts this) (call_on_map (scripts this) c p) =
    match c with
    | MapSet k v => JsMap.set k v (deref (_scripts this) p)
    | MapClear => JsMap.empty
    end ∧
  (∀ r, r ≠ _scripts this →
     deref r (call_on_map (scripts this) c p) = deref r p).
Proof.
  split; [done|]. unfold scripts. split.
  - destruct c; simpl; apply deref_store_eq.
  - intros r Hr. destruct c; simpl; by apply deref_store_ne.
Qed.


(** C10.  When two "script parsed" events carry the same script id, each
    registers handles of its own (one for each subscription of the closure,
    so one when [initialize] has been called once), all of them added to the
    registry and all distinct; after the second event the map of the thread
    holds, under that id, the last handle of the second event, and none of
    the handles of the first.  A reset that comes later hands
    [removeSources] handles the map holds, no two for the same script id,
    and none of the handles of the first event, overwritten, is among
    them. *)
Theorem overwritten_source_is_never_removed (u : string) (p : Process)
    (before between after : list Input) (first second : ScriptParsedEvent)
    (reset : Input) :
  scriptId first = scriptId second →
  resets reset = true →
  let s0 := run (listening_session (fresh_target u) p) before in
  let s1 := turn s0 (Push (ScriptParsed first)) in
  let s1' := run s1 between in
  let s2 := turn s1' (Push (ScriptParsed second)) in
  let s3 := run s2 after in
  let added1 := additions (calls_of_turn s0 (Push (ScriptParsed first))) in
  let added2 := additions (calls_of_turn s1' (Push (ScriptParsed second))) in
  ∃ source1 source2,
    last added1 = Some source1 ∧
    last added2 = Some source2 ∧
    source1 ≠ source2 ∧
    JsMap.get (scriptId first) (local_scripts s1) = Some source1 ∧
    JsMap.get (scriptId second) (local_scripts s2) = Some source2 ∧
    (∀ v, v ∈ added1 →
       (v ∉ added2) ∧ (∀ id, JsMap.get id (local_scripts s2) ≠ Some v)) ∧
    NoDup (JsMap.keys (local_scripts s3)) ∧
    ∀ removed, removed ∈ removals (calls_of_turn s3 reset) →
      NoDup (contentScriptId <$> removed) ∧
      (∀ v, v ∈ removed → ∃ id, JsMap.get id (local_scripts s3) = Some v) ∧
      (∀ v, v ∈ added1 → v ∉ removed).
Proof.
  intros Hsame Hreset s0 s1 s1' s2 s3 added1 added2.
  assert (H0 : hears s0) by apply hears_run.
  assert (H1' : hears s1').
  { unfold s1', s1, s0. rewrite <- run_snoc, <- !run_app. apply hears_run. }
  destruct (turn_scriptParsed_hears s0 first H0)
    as (source1 & Hlast1 & Hlocal1 & Hprops1 & _).
  destruct (turn_scriptParsed_hears s1' second H1')
    as (source2 & Hlast2 & Hlocal2 & Hprops2 & _).
  fold s1 in Hlocal1, Hprops1. fold s2 in Hlocal2, Hprops2.
  fold added1 in Hlast1, Hprops1. fold added2 in Hlast2, Hprops2.
  (* the counter of handles only grows *)
  destruct (run_evolves s1 between) as (_ & _ & Hgrow1 & _).
  destruct (run_evolves s2 after) as (_ & _ & _ & _ & Hentries3).
  fold s1' in Hgrow1. fold s3 in Hentries3. simpl in Hgrow1, Hentries3.
  assert (Hold : ∀ v, v ∈ added1 → (sourceRef v < nextSource (proc s1'))%nat).
  { intros v Hv. destruct (Hprops1 v Hv) as (_ & _ & Href). lia. }
  assert (Hnew : ∀ v, v ∈ added2 →
    (nextSource (proc s1') ≤ sourceRef v < nextSource (proc s2))%nat).
  { intros v Hv. by destruct (Hprops2 v Hv) as (_ & _ & Href). }
  assert (Hin1 : source1 ∈ added1) by by apply last_Some_elem_of.
  assert (Hin2 : source2 ∈ added2) by by apply last_Some_elem_of.
  (* the maps are well formed *)
  assert (Hwf2 : scripts_wf (thr s2) (proc s2)).
  { unfold s2, s1', s1, s0. rewrite <- !run_snoc, <- !run_app.
    apply scripts_wf_reachable. }
  assert (Hwf3 : scripts_wf (thr s3) (proc s3)).
  { unfold s3, s2, s1', s1, s0. rewrite <- !run_snoc, <- !run_app.
    apply scripts_wf_reachable. }
  destruct Hwf2 as [Hdup2 Hids2]. destruct Hwf3 as [Hdup3 Hids3].
  assert (Hget2 : JsMap.get (scriptId second) (local_scripts s2) = Some source2)
    by (rewrite Hlocal2; apply JsMapFacts.get_set_eq).
  (* the handles of the first event are out of the map after the second *)
  assert (Hout2 : ∀ v, v ∈ added1 →
    (v ∉ added2) ∧ (∀ id, JsMap.get id (local_scripts s2) ≠ Some v)).
  { intros v Hv. pose proof (Hold v Hv) as Href. split.
    - intros Hv2. apply Hnew in Hv2. lia.
    - intros id Hget. pose proof (JsMapFacts.elem_of_get _ _ _ Hget) as Hin.
      destruct (Hids2 id v Hin) as [Hid _].
      destruct (Hprops1 v Hv) as (_ & Hscript & _).
      rewrite <- Hid, Hscript, Hsame, Hget2 in Hget.
      injection Hget as ->. apply Hnew in Hin2. lia. }
  assert (Hout3 : ∀ v, v ∈ added1 → v ∉ JsMap.values (local_scripts s3)).
  { intros v Hv [k Hin]%JsMapFacts.elem_of_values.
    destruct (Hentries3 k v Hin) as [Hin2'|[_ Hfresh]].
    - destruct (Hout2 v Hv) as [_ Hout]. apply (Hout k).
      by apply JsMapFacts.get_of_elem.
    - pose proof (Hold v Hv) as Href. apply Hnew in Hin2. lia. }
  exists source1, source2.
  split; [done|]. split; [done|].
  split; [intros ->; by destruct (Hout2 source2 Hin1)|].
  split; [rewrite Hlocal1; apply JsMapFacts.get_set_eq|].
  split; [done|]. split; [done|]. split; [done|].
  intros removed Hin.
  destruct (removals_of_reset s3 reset removed Hreset Hin) as [->| ->].
  - split; [|split; [|done]].
    + rewrite script_ids_of_values; [done|].
      intros k v Hkv. by destruct (Hids3 k v Hkv).
    + intros v Hv. by apply JsMapFacts.values_are_lookups.
  - split; [apply NoDup_nil_2|]. split.
    + intros v Hv. by apply elem_of_nil in Hv.
    + intros v _ Hv. by apply elem_of_nil in Hv.
Qed.

End Claims.

(** * Where a claim fails *)

(** C1 fails on the code.  The scripts numbered from [0] to [65535] are
    reported to a thread that listens, as many as a page that evaluates
    snippet after snippet reports, on an engine that takes [65535]
    arguments in one call, and [dispose()] is called.  The map held a
    handle for each script; afterwards it is empty, and [removeSources] has
    not been called, in this turn or before: the reset ends with the
    exception of the spread, half done. *)
Lemma reset_of_many_scripts_tells_nobody :
  let n := N.to_nat 65536%N in
  let s :=
    run (resolver := no_base)
      (listening_session (resolver := no_base) (fresh_target "")
         initial_process)
      (many_scripts n) in
  let s' := turn (resolver := no_base) s CallDispose in
  length (local_scripts s) = n ∧
  local_scripts s' = JsMap.empty ∧
  removals (trace s') = [] ∧
  throws (calls_of_turn (resolver := no_base) s CallDispose) = true.
Proof.
  intros n.
  apply (dispose_of_many_scripts (resolver := no_base) "" initial_process n).
  unfold n. rewrite N2Nat.id. reflexivity.
Qed.

(** C2, as claimed, fails: a thread paused at a breakpoint still holds the
    payload after a "contexts cleared" event, and after [dispose()]. *)
Lemma paused_state_survives_reset :
  let s :=
    run (resolver := no_base)
      (initialized_session (resolver := no_base) (fresh_target "")
         initial_process)
      [Push (Paused at_breakpoint)] in
  is_absent (pausedDetails
    (thr (turn (resolver := no_base) s (Push ExecutionContextsCleared))))
    = false ∧
  is_absent (pausedDetails (thr (turn (resolver := no_base) s CallDispose)))
    = false.
Proof. split; reflexivity. Qed.

(** C4, as claimed, fails: numbers are doubles, and the counter that begins
    at [0] no longer moves once it has reached [2^53].  Of [2^53 + 2]
    threads made one after the other, the last two have the same id. *)
Lemma thread_ids_repeat_past_2_53 :
  let threads :=
    (construct_all (replicate (Z.to_nat (MAX_EXACT + 2)) (fresh_target ""))
       initial_process).1 in
  ∃ i j a b,
    i ≠ j ∧ threads !! i = Some a ∧ threads !! j = Some b ∧
    threadId a = threadId b.
Proof.
  intros threads.
  assert (Hpos : 0 < MAX_EXACT) by done.
  assert (Hlen : length threads = Z.to_nat (MAX_EXACT + 2))
    by (unfold threads; by rewrite construct_all_length, length_replicate).
  destruct (lookup_lt_is_Some_2 threads (Z.to_nat MAX_EXACT)) as [a Ha];
    [lia|].
  destruct (lookup_lt_is_Some_2 threads (Z.to_nat (MAX_EXACT + 1))) as [b Hb];
    [lia|].
  exists (Z.to_nat MAX_EXACT), (Z.to_nat (MAX_EXACT + 1)), a, b.
  split; [lia|]. split; [done|]. split; [done|].
  assert (H0 : _lastThreadId initial_process ≤ MAX_EXACT) by done.
  unfold threadId.
  rewrite (construct_all_id _ initial_process _ _ H0 Ha).
  rewrite (construct_all_id _ initial_process _ _ H0 Hb).
  change (_lastThreadId initial_process) with 0. lia.
Qed.

(** C5, as claimed, fails: [initialize()] is called, and carried through,
    a second time, which subscribes the closure for "script parsed" again;
    one event for the script [/app.js], whose source map resolves, then
    makes two [attachSourceMap] calls, one for each of the two handles it
    registers. *)
Lemma second_initialize_attaches_twice :
  let s :=
    run (resolver := one_page)
      (initialized_session (resolver := one_page)
         (fresh_target "https://x/index.html") initial_process)
      [CallInitialize; EnableAcknowledged; EnableAcknowledged] in
  attach_calls
    (calls_of_turn (resolver := one_page) s (Push (ScriptParsed app_script)))
  = [({| sourceRef := 0; sourceUrl := "/app.js"; contentScriptId := "8" |},
      "https://x/app.js.map");
     ({| sourceRef := 1; sourceUrl := "/app.js"; contentScriptId := "8" |},
      "https://x/app.js.map")].
Proof. reflexivity. Qed.

(** C9, as claimed, fails: a caller that calls [set] on the value answered
    by [scripts()] of a new thread puts a handle into the script map of the
    thread, and the next reset hands that handle to [removeSources]. *)
Lemma scripts_view_is_writable :
  let s := new_session (fresh_target "") initial_process in
  let q := call_on_map (scripts (thr s)) (MapSet "41" stray_source) (proc s) in
  deref (_scripts (thr s)) (proc s) = [] ∧
  deref (_scripts (thr s)) q = [("41", stray_source)] ∧
  (_reset (thr s) q).2 = [RemoveSources [stray_source]].
Proof. split; [|split]; reflexivity. Qed.

(** * The claims on sample inputs *)

(** A thread that is resumed and reset before it is ever paused. *)
Lemma paused_state_follows_events_witness :
  let quiet := [Push Resumed; Push ExecutionContextsCleared; CallResume] in
  let inputs := [Push (ScriptParsed app_script); Push (Paused at_breakpoint)] in
  let s0 :=
    listening_session (resolver := one_page)
      (fresh_target "https://x/index.html") initial_process in
  Forall (λ i, is_pause i = false) quiet ∧
  is_absent (pausedDetails (thr (run (resolver := one_page) s0 quiet))) = true ∧
  pausedDetails
    (thr (run (resolver := one_page) s0
            (inputs ++ [Push (Paused at_breakpoint)])))
    = JsValue at_breakpoint ∧
  pausedDetails
    (thr (run (resolver := one_page) s0
            (inputs ++ [Push (Paused at_breakpoint); Push Resumed])))
    = JsNull ∧
  is_absent (pausedDetails
    (thr (run (resolver := one_page) s0
            (inputs ++ [Push (Paused at_breakpoint); Push Resumed])))) = true.
Proof.
  intros quiet inputs s0.
  assert (Hquiet : Forall (λ i, is_pause i = false) quiet)
    by (repeat constructor).
  split; [exact Hquiet|].
  exact (paused_state_follows_events (resolver := one_page)
           "https://x/index.html" initial_process quiet inputs at_breakpoint
           Hquiet).
Defined.

(** The first three threads of a process. *)
Lemma thread_ids_increase_while_exact_witness :
  let targets := [fresh_target "a"; fresh_target "b"; fresh_target "c"] in
  let threads := (construct_all targets initial_process).1 in
  0 ≤ _lastThreadId initial_process ∧
  _lastThreadId initial_process + Z.of_nat (length targets) ≤ MAX_EXACT ∧
  (∀ i this, threads !! i = Some this →
     threadId this = _lastThreadId initial_process + Z.of_nat i + 1) ∧
  (∀ i j a b, (i < j)%nat → threads !! i = Some a → threads !! j = Some b →
     threadId a < threadId b) ∧
  NoDup (threadId <$> threads) ∧
  (∀ s i, threadId (thr (turn (resolver := no_base) s i)) = threadId (thr s)).
Proof.
  intros targets threads.
  assert (Hfrom : 0 ≤ _lastThreadId initial_process)
    by (vm_compute; discriminate).
  assert (Hbound :
    _lastThreadId initial_process + Z.of_nat (length targets) ≤ MAX_EXACT)
    by (vm_compute; discriminate).
  split; [exact Hfrom|]. split; [exact Hbound|].
  exact (thread_ids_increase_while_exact (resolver := no_base)
           targets initial_process Hfrom Hbound).
Defined.

(** The page of the sample resolver, on a thread whose [initialize] has
    been called once: the map of [/app.js] is attached once, as
    [https://x/app.js.map]. *)
Lemma source_map_attached_when_both_steps_resolve_witness :
  let s :=
    run (resolver := one_page)
      (listening_session (resolver := one_page)
         (fresh_target "https://x/index.html") initial_process) [] in
  let calls :=
    calls_of_turn (resolver := one_page) s (Push (ScriptParsed app_script)) in
  sourceMapURL app_script = Some "app.js.map" ∧
  truthy "app.js.map" = true ∧
  length (additions calls) = 1%nat ∧
  attach_calls calls =
    (λ source, (source, "https://x/app.js.map")) <$> additions calls.
Proof.
  intros s calls. split; [reflexivity|]. split; [reflexivity|].
  destruct (source_map_attached_when_both_steps_resolve (resolver := one_page)
              "https://x/index.html" initial_process [] app_script
              "app.js.map" eq_refl eq_refl)
    as (_ & _ & _ & Honce & _ & _ & _ & _ & Hboth).
  split.
  - apply Honce. intros Hin. inversion Hin.
  - apply (Hboth "https://x/app.js" "https://x/app.js.map"); reflexivity.
Defined.

(** The subscription for "paused" stands before the activation of the
    debugger domain. *)
Lemma initialize_subscribes_before_activating_witness :
  let s3 :=
    initialized_session (resolver := no_base) (fresh_target "")
      initial_process in
  trace s3 !! 3%nat = Some (CdpOn Debugger OnPaused) ∧
  trace s3 !! 6%nat = Some (CdpSend DebuggerEnable) ∧
  activates DebuggerEnable = Some Debugger ∧
  Debugger = listener_domain OnPaused ∧ (3 < 6)%nat.
Proof.
  intros s3.
  destruct (initialize_subscribes_before_activating (resolver := no_base)
              "" initial_process) as (_ & _ & _ & Horder & _).
  split; [reflexivity|]. split; [reflexivity|]. split; [reflexivity|].
  exact (Horder 3%nat 6%nat Debugger OnPaused DebuggerEnable
           eq_refl eq_refl eq_refl).
Defined.

(** A script parsed twice under id ["7"], then another script, then
    [dispose()]. *)
Lemma overwritten_source_is_never_removed_witness :
  let s0 :=
    run (resolver := one_page)
      (listening_session (resolver := one_page)
         (fresh_target "https://x/index.html") initial_process) [] in
  let s1 :=
    turn (resolver := one_page) s0 (Push (ScriptParsed anonymous_script)) in
  let s1' := run (resolver := one_page) s1 [] in
  let s2 :=
    turn (resolver := one_page) s1' (Push (ScriptParsed anonymous_script)) in
  let s3 := run (resolver := one_page) s2 [Push (ScriptParsed app_script)] in
  scriptId anonymous_script = scriptId anonymous_script ∧
  resets CallDispose = true ∧
  ∃ source1 source2,
    JsMap.get (scriptId anonymous_script) (local_scripts s1) = Some source1 ∧
    JsMap.get (scriptId anonymous_script) (local_scripts s2) = Some source2 ∧
    source1 ≠ source2 ∧
    ∀ removed,
      removed ∈ removals (calls_of_turn (resolver := one_page) s3 CallDispose) →
      NoDup (contentScriptId <$> removed) ∧ source1 ∉ removed.
Proof.
  intros s0 s1 s1' s2 s3. split; [reflexivity|]. split; [reflexivity|].
  destruct (overwritten_source_is_never_removed (resolver := one_page)
              "https://x/index.html" initial_process [] []
              [Push (ScriptParsed app_script)] anonymous_script anonymous_script
              CallDispose eq_refl eq_refl)
    as (source1 & source2 & Hlast1 & _ & Hne & Hget1 & Hget2 & _ & _ & Hremoved).
  exists source1, source2.
  split; [exact Hget1|]. split; [exact Hget2|]. split; [exact Hne|].
  intros removed Hin. destruct (Hremoved removed Hin) as (Hdup & _ & Hout).
  split; [exact Hdup|]. apply Hout.
  apply last_Some_elem_of. exact Hlast1.
Defined.

(** * Further properties *)

(** ** A turn, step by step

    What a turn does to the calls made, to the script map and to the
    handles made is done in steps of four kinds: calls that are none of
    the registry's; a removal of all that the map holds, which empties the
    map; the map emptied with no call; and a registration, which makes a
    handle, sets it in the map and adds it.  What the four steps keep is
    kept by every turn. *)

Section Steps.

Context {resolver : UrlResolver}.

Variable P : list Effect → JsMap.t → nat → Prop.

Hypothesis P_quiet :
  ∀ T m n c, P T m n → off_registry c → P (T ++ c) m n.

Hypothesis P_removal :
  ∀ T m n, P T m n → P (T ++ [RemoveSources (JsMap.values m)]) JsMap.empty n.

Hypothesis P_clear : ∀ T m n, P T m n → P T JsMap.empty n.

Hypothesis P_register :
  ∀ T m n k source rest,
    P T m n → sourceRef source = n →
    rest = [] ∨ (∃ resolved, rest = [AttachSourceMap source resolved]) →
    P (T ++ AddSource source :: rest) (JsMap.set k source m) (S n).

Lemma off_registry_nil : off_registry [].
Proof. intros e He. by apply elem_of_nil in He. Qed.

Lemma off_registry_cons e fx :
  added e = None → removal e = None → attach_call e = None →
  off_registry fx → off_registry (e :: fx).
Proof.
  intros Ha Hr Hc Hfx e' [->|He']%elem_of_cons; [done|by apply Hfx].
Qed.

Lemma reset_steps this p T :
  P T (deref (_scripts this) p) (nextSource p) →
  P (T ++ (_reset this p).2) (deref (_scripts this) (_reset this p).1.2)
    (nextSource (_reset this p).1.2).
Proof.
  intros HP.
  destruct (reset_outcome this p) as (p' & -> & Hmap & _ & Hnext & _).
  simpl. rewrite Hmap, Hnext. destruct (spreads _ p).
  - by apply P_removal.
  - apply P_quiet; [by eapply P_clear|].
    apply off_registry_cons; [done|done|done|apply off_registry_nil].
Qed.

Lemma call_listener_steps l e this p T :
  P T (deref (_scripts this) p) (nextSource p) →
  P (T ++ (call_listener l e this p).2)
    (deref (_scripts this) (call_listener l e this p).1.2)
    (nextSource (call_listener l e this p).1.2).
Proof.
  intros HP. destruct (decide (l = listener_for e)) as [->|Hl];
    [|rewrite call_listener_other by done; simpl; by rewrite app_nil_r].
  rewrite call_listener_for. destruct e as [|event| |event].
  - by apply reset_steps.
  - simpl. apply P_quiet; [done|].
    apply off_registry_cons; [done|done|done|apply off_registry_nil].
  - simpl. apply P_quiet; [done|].
    apply off_registry_cons; [done|done|done|apply off_registry_nil].
  - destruct (onScriptParsed_outcome event this p)
      as (p' & -> & Hmap & _ & Hnext & _).
    simpl. rewrite Hmap, Hnext.
    apply P_register; [done|done|apply attachment_cases].
Qed.

Lemma dispatch_steps ls e this p T :
  P T (deref (_scripts this) p) (nextSource p) →
  P (T ++ (dispatch ls e this p).2)
    (deref (_scripts this) (dispatch ls e this p).1.2)
    (nextSource (dispatch ls e this p).1.2).
Proof.
  intros HP.
  assert (Hstep : ∀ l this1 p1 fx,
    _scripts this1 = _scripts this ∧
    P (T ++ fx) (deref (_scripts this) p1) (nextSource p1) →
    _scripts (call_listener l e this1 p1).1.1 = _scripts this ∧
    P (T ++ fx ++ (call_listener l e this1 p1).2)
      (deref (_scripts this) (call_listener l e this1 p1).1.2)
      (nextSource (call_listener l e this1 p1).1.2)).
  { intros l this1 p1 fx [Hs H1].
    destruct (call_listener_frame l e this1 p1) as (_ & _ & _ & Hs' & _).
    split; [congruence|].
    rewrite app_assoc, <- Hs. apply call_listener_steps. by rewrite Hs. }
  assert (H0 : _scripts this = _scripts this ∧
               P (T ++ []) (deref (_scripts this) p) (nextSource p))
    by (by rewrite app_nil_r).
  by destruct (dispatch_inv (λ this' p' fx,
    _scripts this' = _scripts this ∧
    P (T ++ fx) (deref (_scripts this) p') (nextSource p')) e Hstep
    ls this p [] H0) as [_ H].
Qed.

Lemma turn_steps s i :
  P (trace s) (local_scripts s) (nextSource (proc s)) →
  P (trace (turn s i)) (local_scripts (turn s i))
    (nextSource (proc (turn s i))).
Proof.
  intros HP. rewrite trace_turn.
  assert (Hquiet : resets i = false →
    (∀ event, i ≠ Push (ScriptParsed event)) →
    P (trace s ++ calls_of_turn s i) (local_scripts (turn s i))
      (nextSource (proc (turn s i)))).
  { intros Hr Hs. destruct (turn_quiet s i Hr Hs) as (-> & -> & Hoff & _).
    by apply P_quiet. }
  destruct i as [| | |[|payload| |event]| | | |];
    try (apply Hquiet; [done|by intros event]); clear Hquiet.
  - rewrite calls_of_turn_any. unfold local_scripts, scripts. cbn [turn].
    case_bool_decide; [|by rewrite app_nil_r].
    pose proof (dispatch_steps (listeners (_target (thr s)))
      ExecutionContextsCleared (thr s) (proc s) (trace s) HP) as Hd.
    destruct (dispatch_frame (listeners (_target (thr s)))
      ExecutionContextsCleared (thr s) (proc s)) as (_ & _ & _ & Hsc & _).
    destruct (dispatch _ _ _ _) as [[this q] fx]. simpl in *. by rewrite Hsc.
  - rewrite calls_of_turn_any. unfold local_scripts, scripts. cbn [turn].
    case_bool_decide; [|by rewrite app_nil_r].
    pose proof (dispatch_steps (listeners (_target (thr s)))
      (ScriptParsed event) (thr s) (proc s) (trace s) HP) as Hd.
    destruct (dispatch_frame (listeners (_target (thr s)))
      (ScriptParsed event) (thr s) (proc s)) as (_ & _ & _ & Hsc & _).
    destruct (dispatch _ _ _ _) as [[this q] fx]. simpl in *. by rewrite Hsc.
  - rewrite calls_of_turn_any. unfold local_scripts, scripts. cbn [turn].
    destruct (dispose_outcome (thr s) (proc s))
      as (p' & -> & Hmap & _ & Hnext & _).
    simpl. rewrite Hmap, Hnext. destruct (spreads _ (proc s)).
    + change [RemoveSources (JsMap.values (deref (_scripts (thr s)) (proc s)));
              DebugLog (ThreadDestroyed (_threadId (thr s))
                          (_threadName (thr s)))]
        with ([RemoveSources (JsMap.values (deref (_scripts (thr s)) (proc s)))]
              ++ [DebugLog (ThreadDestroyed (_threadId (thr s))
                              (_threadName (thr s)))]).
      rewrite app_assoc. apply P_quiet; [by apply P_removal|].
      apply off_registry_cons; [done|done|done|apply off_registry_nil].
    + apply P_quiet; [by eapply P_clear|].
      apply off_registry_cons; [done|done|done|apply off_registry_nil].
Qed.

(** A move that is not a write of a caller. *)
Lemma move_steps s m :
  writes m = false →
  P (trace s) (local_scripts s) (nextSource (proc s)) →
  P (trace (move s m)) (local_scripts (move s m))
    (nextSource (proc (move s m))).
Proof.
  destruct m as [i|c|source]; [|done|]; intros _ HP.
  - by apply turn_steps.
  - simpl. apply P_quiet; [done|].
    apply off_registry_cons; [done|done|done|apply off_registry_nil].
Qed.

End Steps.

(** ** The registry *)

Section Registry.

Context {resolver : UrlResolver}.

Lemma lookup_app_notin (T c : list Effect) j e :
  e ∉ c → (T ++ c) !! j = Some e → T !! j = Some e.
Proof.
  intros Hc [Hin|[_ Hin]]%lookup_app_Some; [done|].
  destruct Hc. by eapply list_elem_of_lookup_2.
Qed.

Lemma off_registry_notin c e :
  off_registry c →
  added e ≠ None ∨ removal e ≠ None ∨ attach_call e ≠ None →
  e ∉ c.
Proof.
  intros Hoff He Hin. destruct (Hoff e Hin) as (Ha & Hr & Hc).
  destruct He as [He|[He|He]]; congruence.
Qed.

(** Where a call stands among the calls of a registration. *)
Lemma lookup_registration (T rest : list Effect) source j e :
  rest = [] ∨ (∃ resolved, rest = [AttachSourceMap source resolved]) →
  (T ++ AddSource source :: rest) !! j = Some e →
  T !! j = Some e ∨
  (j = length T ∧ e = AddSource source) ∨
  (j = S (length T) ∧ ∃ resolved, e = AttachSourceMap source resolved).
Proof.
  intros Hrest [Hin|[Hle Hin]]%lookup_app_Some; [by left|right].
  destruct (j - length T)%nat as [|[|k]] eqn:Ek; simpl in Hin.
  - left. injection Hin as <-. split; [lia|done].
  - right. split; [lia|]. destruct Hrest as [->|[resolved ->]]; [done|].
    injection Hin as <-. by exists resolved.
  - by destruct Hrest as [->|[resolved ->]].
Qed.

Lemma adds_ok_calls T n c :
  adds_ok T n →
  (∀ e, e ∈ c → added e = None ∧ attach_call e = None) →
  adds_ok (T ++ c) n.
Proof.
  intros (K1 & K6 & K7) Hc.
  assert (Hadd : ∀ j v, (T ++ c) !! j = Some (AddSource v) →
                        T !! j = Some (AddSource v)).
  { intros j v. apply lookup_app_notin. intros Hin. by destruct (Hc _ Hin). }
  assert (Hatt : ∀ j v r, (T ++ c) !! j = Some (AttachSourceMap v r) →
                          T !! j = Some (AttachSourceMap v r)).
  { intros j v r. apply lookup_app_notin. intros Hin. by destruct (Hc _ Hin). }
  split; [|split].
  - intros i v Hi%Hadd. by eapply K1.
  - intros i1 i2 v Hi1%Hadd Hi2%Hadd. by eapply K6.
  - intros j v r Hj%Hatt. destruct (K7 j v r Hj) as (i & -> & Hi).
    exists i. split; [done|]. by apply lookup_app_l_Some.
Qed.

Lemma adds_ok_quiet T n c : adds_ok T n → off_registry c → adds_ok (T ++ c) n.
Proof.
  intros HT Hoff. apply adds_ok_calls; [done|].
  intros e He. by destruct (Hoff e He) as (? & _ & ?).
Qed.

Lemma adds_ok_removal T n ss : adds_ok T n → adds_ok (T ++ [RemoveSources ss]) n.
Proof.
  intros HT. apply adds_ok_calls; [done|].
  by intros e ->%list_elem_of_singleton.
Qed.

Lemma adds_ok_register T n source rest :
  adds_ok T n → sourceRef source = n →
  rest = [] ∨ (∃ resolved, rest = [AttachSourceMap source resolved]) →
  adds_ok (T ++ AddSource source :: rest) (S n).
Proof.
  intros (K1 & K6 & K7) Href Hrest.
  assert (Hadd : ∀ j v,
    (T ++ AddSource source :: rest) !! j = Some (AddSource v) →
    T !! j = Some (AddSource v) ∨ (j = length T ∧ v = source)).
  { intros j v Hj.
    destruct (lookup_registration _ _ _ _ _ Hrest Hj)
      as [?|[[-> [= ->]]|[_ [r ?]]]]; [by left|by right|done]. }
  split; [|split].
  - intros i v [Hi|[-> ->]]%Hadd; [apply K1 in Hi; lia|lia].
  - intros i1 i2 v [Hi1|[-> ->]]%Hadd [Hi2|[-> Hv]]%Hadd.
    + by eapply K6.
    + subst v. apply K1 in Hi1. lia.
    + apply K1 in Hi2. lia.
    + done.
  - intros j v r Hj.
    destruct (lookup_registration _ _ _ _ _ Hrest Hj)
      as [Hj'|[[_ ?]|[-> [r' [= -> ->]]]]]; [|done|].
    + destruct (K7 j v r Hj') as (i & -> & Hi).
      exists i. split; [done|]. by apply lookup_app_l_Some.
    + exists (length T). split; [done|]. by apply list_lookup_middle.
Qed.

Lemma elem_of_values_set v k x m :
  v ∈ JsMap.values (JsMap.set k x m) → v = x ∨ v ∈ JsMap.values m.
Proof.
  intros [k' Hin]%JsMapFacts.elem_of_values.
  apply JsMapFacts.elem_of_set in Hin as [[_ ->]|Hin]; [by left|right].
  apply JsMapFacts.elem_of_values. by exists k'.
Qed.

Lemma NoDup_values_set k x m :
  NoDup (JsMap.values m) → x ∉ JsMap.values m →
  NoDup (JsMap.values (JsMap.set k x m)).
Proof.
  unfold JsMap.values. induction m as [|[k0 v0] m IH]; intros Hm Hx.
  - apply NoDup_singleton.
  - rewrite fmap_cons in Hm, Hx. cbn [snd] in Hm, Hx.
    apply NoDup_cons in Hm as [Hv0 Hm]. apply not_elem_of_cons in Hx as [Hne Hx].
    cbn [JsMap.set]. destruct (String.eqb k0 k); rewrite fmap_cons; cbn [snd].
    + by apply NoDup_cons.
    + apply NoDup_cons. split; [|by apply IH].
      intros [->|Hin]%elem_of_values_set; done.
Qed.

Lemma registry_ok_quiet T m n c :
  registry_ok T m n → off_registry c → registry_ok (T ++ c) m n.
Proof.
  intros (Hadds & Hdup & K3 & K3' & K2 & K4 & K5) Hoff.
  assert (Hrem : ∀ j ss, (T ++ c) !! j = Some (RemoveSources ss) →
                         T !! j = Some (RemoveSources ss)).
  { intros j ss. apply lookup_app_notin, off_registry_notin; [done|].
    right; by left. }
  split; [by apply adds_ok_quiet|]. split; [done|]. repeat split.
  - intros v Hv. destruct (K3 v Hv) as (k & Hadded).
    exists k. by apply lookup_app_l_Some.
  - intros v j ss Hv Hj%Hrem. by eapply K3'.
  - intros j ss v Hj%Hrem Hv.
    destruct (K2 j ss v Hj Hv) as (k & Hk & Hadded).
    exists k. split; [done|by apply lookup_app_l_Some].
  - intros j ss Hj%Hrem. by eapply K4.
  - intros j1 j2 ss1 ss2 v Hj1%Hrem Hj2%Hrem. by eapply K5.
Qed.

Lemma registry_ok_clear T m n : registry_ok T m n → registry_ok T JsMap.empty n.
Proof.
  intros (Hadds & Hdup & K3 & K3' & K2 & K4 & K5).
  split; [done|]. split; [apply NoDup_nil_2|]. repeat split; try done.
  - intros v Hv. by apply elem_of_nil in Hv.
  - intros v j ss Hv. by apply elem_of_nil in Hv.
Qed.

Lemma registry_ok_removal T m n :
  registry_ok T m n →
  registry_ok (T ++ [RemoveSources (JsMap.values m)]) JsMap.empty n.
Proof.
  intros (Hadds & Hdup & K3 & K3' & K2 & K4 & K5).
  assert (Hrem : ∀ j ss,
    (T ++ [RemoveSources (JsMap.values m)]) !! j = Some (RemoveSources ss) →
    T !! j = Some (RemoveSources ss) ∨
    (j = length T ∧ ss = JsMap.values m)).
  { intros j ss [Hj|[Hle Hj]]%lookup_app_Some; [by left|right].
    destruct (j - length T)%nat as [|k] eqn:Ek; [|done].
    simpl in Hj. injection Hj as <-. split; [lia|done]. }
  split; [by apply adds_ok_removal|]. split; [apply NoDup_nil_2|].
  repeat split.
  - intros v Hv. by apply elem_of_nil in Hv.
  - intros v j ss Hv. by apply elem_of_nil in Hv.
  - intros j ss v [Hj|[-> ->]]%Hrem Hv.
    + destruct (K2 j ss v Hj Hv) as (k & Hk & Hadded).
      exists k. split; [done|by apply lookup_app_l_Some].
    + destruct (K3 v Hv) as (k & Hadded).
      exists k. split; [by eapply lookup_lt_Some|by apply lookup_app_l_Some].
  - intros j ss [Hj|[-> ->]]%Hrem; [by eapply K4|done].
  - intros j1 j2 ss1 ss2 v [Hj1|[-> ->]]%Hrem [Hj2|[-> ->]]%Hrem Hv1 Hv2.
    + by eapply K5.
    + by destruct (K3' v j1 ss1 Hv2 Hj1).
    + by destruct (K3' v j2 ss2 Hv1 Hj2).
    + done.
Qed.

Lemma registry_ok_register T m n k source rest :
  registry_ok T m n → sourceRef source = n →
  rest = [] ∨ (∃ resolved, rest = [AttachSourceMap source resolved]) →
  registry_ok (T ++ AddSource source :: rest) (JsMap.set k source m) (S n).
Proof.
  intros (Hadds & Hdup & K3 & K3' & K2 & K4 & K5) Href Hrest.
  pose proof Hadds as (K1 & K6 & K7).
  assert (Hrem : ∀ j ss,
    (T ++ AddSource source :: rest) !! j = Some (RemoveSources ss) →
    T !! j = Some (RemoveSources ss)).
  { intros j ss Hj.
    by destruct (lookup_registration _ _ _ _ _ Hrest Hj)
      as [?|[[_ ?]|[_ [r ?]]]]. }
  assert (Hnew : ∀ i, T !! i ≠ Some (AddSource source)).
  { intros i Hi. apply K1 in Hi. lia. }
  assert (Hfresh : ∀ j ss, T !! j = Some (RemoveSources ss) → source ∉ ss).
  { intros j ss Hj Hin. destruct (K2 j ss source Hj Hin) as (i & _ & Hi).
    by apply Hnew in Hi. }
  split; [by apply adds_ok_register|]. split.
  { apply NoDup_values_set; [done|]. intros Hin.
    destruct (K3 source Hin) as (i & Hi). by apply Hnew in Hi. }
  repeat split.
  - intros v [->|Hv]%elem_of_values_set.
    + exists (length T). by apply list_lookup_middle.
    + destruct (K3 v Hv) as (i & Hadded). exists i.
      by apply lookup_app_l_Some.
  - intros v j ss [->|Hv]%elem_of_values_set Hj%Hrem.
    + by eapply Hfresh.
    + by eapply K3'.
  - intros j ss v Hj%Hrem Hv.
    destruct (K2 j ss v Hj Hv) as (i & Hi & Hadded).
    exists i. split; [done|by apply lookup_app_l_Some].
  - intros j ss Hj%Hrem. by eapply K4.
  - intros j1 j2 ss1 ss2 v Hj1%Hrem Hj2%Hrem. by eapply K5.
Qed.

Lemma adds_ok_new target p :
  adds_ok (trace (new_session target p))
    (nextSource (proc (new_session target p))).
Proof.
  assert (Hnone : ∀ j e, trace (new_session target p) !! j = Some e →
    added e = None ∧ attach_call e = None).
  { intros j e Hj. apply list_elem_of_lookup_2 in Hj. simpl in Hj.
    by apply list_elem_of_singleton in Hj as ->. }
  split; [|split].
  - intros i v Hi. by destruct (Hnone _ _ Hi).
  - intros i1 i2 v Hi. by destruct (Hnone _ _ Hi).
  - intros j v r Hj. by destruct (Hnone _ _ Hj).
Qed.

Lemma registry_ok_new target p :
  let s := new_session target p in
  registry_ok (trace s) (local_scripts s) (nextSource (proc s)).
Proof.
  intros s.
  assert (Hlocal : local_scripts s = JsMap.empty).
  { unfold s, local_scripts, deref; simpl. apply lookup_total_insert_eq. }
  assert (Hnone : ∀ j e, trace s !! j = Some e → removal e = None).
  { intros j e Hj. apply list_elem_of_lookup_2 in Hj. simpl in Hj.
    by apply list_elem_of_singleton in Hj as ->. }
  rewrite Hlocal. split; [apply adds_ok_new|].
  split; [apply NoDup_nil_2|]. repeat split.
  - intros v Hv. by apply elem_of_nil in Hv.
  - intros v j ss Hv. by apply elem_of_nil in Hv.
  - intros j ss v Hj. by apply Hnone in Hj.
  - intros j ss Hj. by apply Hnone in Hj.
  - intros j1 j2 ss1 ss2 v Hj. by apply Hnone in Hj.
Qed.

(** The [addSource] and [attachSourceMap] calls are in order whatever the
    moves, those of the callers that write to the map included. *)
Lemma play_adds target p moves :
  let s := play (new_session target p) moves in
  adds_ok (trace s) (nextSource (proc s)).
Proof.
  induction moves as [|m moves IH] using rev_ind; [apply adds_ok_new|].
  cbn zeta in *. rewrite play_snoc.
  destruct (writes m) eqn:Hm.
  - by destruct m as [|[]|].
  - apply (move_steps (λ T _ n, adds_ok T n)); try done.
    + intros T _ n c. apply adds_ok_quiet.
    + intros T m' n. apply adds_ok_removal.
    + intros T _ n _ source rest. apply adds_ok_register.
Qed.

(** ... and so are all the calls on the registry, as long as no caller
    writes to the map. *)
Lemma play_registry target p moves :
  Forall (λ m, writes m = false) moves →
  let s := play (new_session target p) moves in
  registry_ok (trace s) (local_scripts s) (nextSource (proc s)).
Proof.
  induction moves as [|m moves IH] using rev_ind;
    intros Hmoves; [apply registry_ok_new|].
  rewrite Forall_app, Forall_singleton in Hmoves.
  destruct Hmoves as [Hmoves Hm].
  cbn zeta in *. rewrite play_snoc.
  apply (move_steps registry_ok);
    [apply registry_ok_quiet|apply registry_ok_removal
    |apply registry_ok_clear|apply registry_ok_register|done|by apply IH].
Qed.

Lemma run_adds target p inputs :
  let s := run (new_session target p) inputs in
  adds_ok (trace s) (nextSource (proc s)).
Proof. cbn zeta. rewrite <- play_turns. apply play_adds. Qed.

End Registry.

Section Further.

Context {resolver : UrlResolver}.

(** ** Names *)

Lemma dispatch_name_calls ls e this p :
  omap name_notification (dispatch ls e this p).2 = [].
Proof.
  assert (Hstep : ∀ l this1 p1 (fx : list Effect),
    omap name_notification fx = [] →
    omap name_notification (fx ++ (call_listener l e this1 p1).2) = []).
  { intros l this1 p1 fx Hfx. rewrite omap_app, Hfx. simpl.
    destruct (decide (l = listener_for e)) as [->|Hl];
      [|by rewrite call_listener_other].
    rewrite call_listener_for. destruct e as [|event| |event]; try done.
    - destruct (reset_outcome this1 p1) as (p' & -> & _). simpl.
      by destruct (spreads _ p1).
    - destruct (onScriptParsed_outcome event this1 p1) as (p' & -> & _).
      simpl. by destruct (attachment_cases event this1
        (source_of event (nextSource p1))) as [->|[r ->]]. }
  exact (dispatch_inv (λ _ _ fx, omap name_notification fx = []) e Hstep
           ls this p [] eq_refl).
Qed.

Lemma turn_name s i :
  _threadName (thr (turn s i)) = default (_threadName (thr s)) (name_set i) ∧
  omap name_notification (calls_of_turn s i) = option_list (name_set i).
Proof.
  rewrite calls_of_turn_any. destruct i; cbn [turn name_set default option_list].
  - destruct (continue_initialize_fields InitStart s)
      as (_ & _ & _ & -> & _). done.
  - destruct (awaits s) as [|pc rest]; [done|].
    destruct (continue_initialize_fields pc (answered s))
      as (_ & _ & _ & -> & _). by destruct pc.
  - by destruct (awaits s).
  - case_bool_decide; [|done].
    pose proof (dispatch_name_calls (listeners (_target (thr s))) e (thr s)
                  (proc s)) as Hc.
    destruct (dispatch_frame (listeners (_target (thr s))) e (thr s) (proc s))
      as (_ & Hn & _).
    by destruct (dispatch _ e _ _) as [[this q] fx].
  - done.
  - destruct (dispose_outcome (thr s) (proc s)) as (p' & -> & _).
    simpl. by destruct (spreads _ (proc s)).
  - done.
  - done.
Qed.

(** X1.  The name of a thread is the name of the last call of
    [setThreadName], and the empty name of the constructor before the
    first call, whatever the events and the other calls in between.  The
    "name changed" notifications emitted are those of the calls, one for
    each call and in their order, each bearing the name just set.  A call
    writes the debug log and then emits the notification, which carries
    the thread as renamed; it leaves the id, the paused state and the
    script map as they were. *)
Theorem name_is_the_last_name_set (target : Target) (p : Process)
    (inputs : list Input) (name : string) :
  let s := run (new_session target p) inputs in
  let s' := turn s (CallSetThreadName name) in
  threadName (thr s) = last_name inputs ∧
  omap name_notification (trace s) = omap name_set inputs ∧
  calls_of_turn s (CallSetThreadName name) =
    [DebugLog (ThreadRenamed (threadId (thr s)) name);
     Emit ThreadNameChanged (thr s')] ∧
  threadName (thr s') = name ∧
  threadId (thr s') = threadId (thr s) ∧
  pausedDetails (thr s') = pausedDetails (thr s) ∧
  local_scripts s' = local_scripts s.
Proof.
  intros s s'.
  assert (Hrun : threadName (thr s) = last_name inputs ∧
                 omap name_notification (trace s) = omap name_set inputs).
  { unfold s, threadName, last_name.
    induction inputs as [|i inputs [IHn IHc]] using rev_ind; [done|].
    rewrite run_snoc, trace_turn, !omap_app.
    destruct (turn_name (run (new_session target p) inputs) i) as [-> ->].
    rewrite IHn, IHc. simpl. split.
    - destruct (name_set i); [by rewrite last_snoc|by rewrite app_nil_r].
    - by destruct (name_set i). }
  destruct Hrun as [Hn Hc]. split; [done|]. split; [done|].
  split; [by rewrite calls_of_turn_any|]. done.
Qed.

(** ** Pauses *)

Lemma dispatch_pause_calls ls e this p :
  (∀ event, e ≠ Paused event) → e ≠ Resumed →
  omap pause_notification (dispatch ls e this p).2 = [].
Proof.
  intros Hp Hr.
  assert (Hstep : ∀ l this1 p1 (fx : list Effect),
    omap pause_notification fx = [] →
    omap pause_notification (fx ++ (call_listener l e this1 p1).2) = []).
  { intros l this1 p1 fx Hfx. rewrite omap_app, Hfx. simpl.
    destruct (decide (l = listener_for e)) as [->|Hl];
      [|by rewrite call_listener_other].
    rewrite call_listener_for. destruct e as [|event| |event]; try done.
    - destruct (reset_outcome this1 p1) as (p' & -> & _). simpl.
      by destruct (spreads _ p1).
    - by destruct (Hp event).
    - destruct (onScriptParsed_outcome event this1 p1) as (p' & -> & _).
      simpl. by destruct (attachment_cases event this1
        (source_of event (nextSource p1))) as [->|[r ->]]. }
  exact (dispatch_inv (λ _ _ fx, omap pause_notification fx = []) e Hstep
           ls this p [] eq_refl).
Qed.

(** No turn but a "paused" and a "resumed" event emits their
    notifications. *)
Lemma turn_pause_calls s i :
  (∀ event, i ≠ Push (Paused event)) → i ≠ Push Resumed →
  omap pause_notification (calls_of_turn s i) = [].
Proof.
  intros Hp Hr. rewrite calls_of_turn_any. destruct i; try done.
  - destruct (awaits s) as [|[] rest]; done.
  - case_bool_decide; [|done]. apply dispatch_pause_calls; congruence.
  - destruct (dispose_outcome (thr s) (proc s)) as (p' & -> & _).
    simpl. by destruct (spreads _ (proc s)).
Qed.

(** What a turn does to the paused state, on a thread that listens. *)
Lemma turn_pause_change s i :
  hears s →
  _pausedDetails (thr (turn s i)) =
    default (_pausedDetails (thr s)) (snd <$> pause_change i).
Proof.
  intros Hs.
  destruct (decide (i = Push Resumed)) as [->|Hr]; [by apply turn_resumed|].
  destruct (pause_payload i) as [payload|] eqn:Ei.
  - destruct i as [| | |[]| | | |]; try done. injection Ei as ->.
    by apply turn_paused.
  - rewrite turn_pausedDetails_kept; [|by intros event ->|done].
    by destruct i as [| | |[]| | | |].
Qed.

(** ... and the notifications it emits, when [initialize] has been called
    once. *)
Lemma turn_pause_notifications s i :
  ready s →
  omap pause_notification (calls_of_turn s i) = option_list (pause_change i).
Proof.
  intros Hs. pose proof (ready_hears s Hs) as [Ha Hl].
  destruct (decide (i = Push Resumed)) as [->|Hr];
    [|destruct (pause_payload i) as [payload|] eqn:Ei].
  - rewrite calls_of_push by apply Ha. rewrite dispatch_resumed_calls.
    cbn zeta. fold (subscribed OnResumed (_target (thr s))).
    by rewrite ready_subscribed.
  - destruct i as [| | |[]| | | |]; try done. injection Ei as ->.
    rewrite calls_of_push by apply Ha. rewrite dispatch_paused_calls.
    cbn zeta. fold (subscribed OnPaused (_target (thr s))).
    by rewrite ready_subscribed.
  - rewrite turn_pause_calls; [|by intros event ->|done].
    by destruct i as [| | |[]| | | |].
Qed.

Lemma run_pause_change u p inputs :
  let s := run (listening_session (fresh_target u) p) inputs in
  _pausedDetails (thr s) =
    default JsUndefined (snd <$> last (omap pause_change inputs)).
Proof.
  induction inputs as [|i inputs IH] using rev_ind; [done|].
  simpl. rewrite run_snoc, omap_app.
  rewrite turn_pause_change by apply hears_run. rewrite IH. simpl.
  destruct (pause_change i); [by rewrite last_snoc|by rewrite app_nil_r].
Qed.

(** X2.  On a thread that listens, a "paused" event makes the payload
    readable and emits one "paused" notification for each subscription of
    the closure, so for each call of [initialize] that has reached its
    second stretch, one at least; every one of them carries the thread as
    the turn leaves it, with the payload.  A "resumed" event does the same
    with [null].  No other turn emits either notification.  When
    [initialize] has been called once, the notifications emitted are those
    of the events delivered, one for each event and in their order. *)
Theorem pause_notifications_follow_events (u : string) (p : Process)
    (inputs : list Input) (payload : PausedEvent) :
  let s := run (listening_session (fresh_target u) p) inputs in
  let paused := turn s (Push (Paused payload)) in
  let resumed := turn s (Push Resumed) in
  (calls_of_turn s (Push (Paused payload)) =
     replicate (subscribed OnPaused (_target (thr s)))
       (Emit ThreadPaused (thr paused)) ∧
   pausedDetails (thr paused) = JsValue payload ∧
   (1 ≤ subscribed OnPaused (_target (thr s)))%nat) ∧
  (calls_of_turn s (Push Resumed) =
     replicate (subscribed OnResumed (_target (thr s)))
       (Emit ThreadResumed (thr resumed)) ∧
   pausedDetails (thr resumed) = JsNull ∧
   (1 ≤ subscribed OnResumed (_target (thr s)))%nat) ∧
  (∀ i, (∀ event, i ≠ Push (Paused event)) → i ≠ Push Resumed →
     omap pause_notification (calls_of_turn s i) = []) ∧
  (CallInitialize ∉ inputs →
     subscribed OnPaused (_target (thr s)) = 1%nat ∧
     subscribed OnResumed (_target (thr s)) = 1%nat ∧
     omap pause_notification (trace s) = omap pause_change inputs).
Proof.
  intros s paused resumed.
  assert (Hs : hears s) by apply hears_run.
  pose proof (hears_subscribed s OnPaused Hs) as Hp.
  pose proof (hears_subscribed s OnResumed Hs) as Hr.
  split; [|split; [|split]].
  - split; [|split; [by apply turn_paused|done]].
    unfold paused. rewrite calls_of_push, turn_push by apply Hs.
    rewrite dispatch_paused_calls. cbn zeta. unfold subscribed in Hp |- *.
    by destruct (length (filter (λ l, l = OnPaused) _)); [lia|].
  - split; [|split; [by apply turn_resumed|done]].
    unfold resumed. rewrite calls_of_push, turn_push by apply Hs.
    rewrite dispatch_resumed_calls. cbn zeta. unfold subscribed in Hr |- *.
    by destruct (length (filter (λ l, l = OnResumed) _)); [lia|].
  - intros i. apply turn_pause_calls.
  - intros Honce.
    assert (Hready : ready s) by by apply ready_run, ready_listening.
    split; [by apply ready_subscribed|]. split; [by apply ready_subscribed|].
    unfold s. clear -Honce.
    induction inputs as [|i inputs IH] using rev_ind; [done|].
    rewrite not_elem_of_app in Honce. destruct Honce as [Honce _].
    rewrite run_snoc, trace_turn, !omap_app. rewrite IH by done.
    rewrite turn_pause_notifications; [simpl; by destruct (pause_change i)|].
    by apply ready_run, ready_listening.
Qed.

(** X3.  On a thread that listens, [pausedDetails()] is decided by the
    last "paused" or "resumed" event alone: it is [undefined] when there
    has been none, the payload when the last is a "paused" event, and
    [null] when it is a "resumed" event.  Resets, "script parsed" events,
    navigations and the calls of the owner have no say. *)
Theorem paused_details_is_the_last_pause_change (u : string) (p : Process)
    (inputs : list Input) :
  let s := run (listening_session (fresh_target u) p) inputs in
  pausedDetails (thr s) =
    match last (omap pause_change inputs) with
    | None => JsUndefined
    | Some (_, state) => state
    end.
Proof.
  intros s. unfold pausedDetails, s.
  rewrite run_pause_change.
  by destruct (last (omap pause_change inputs)) as [[kind state]|].
Qed.

(** ** Commands *)

Lemma dispatch_commands ls e this p : commands (dispatch ls e this p).2 = [].
Proof.
  assert (Hstep : ∀ l this1 p1 (fx : list Effect),
    commands fx = [] →
    commands (fx ++ (call_listener l e this1 p1).2) = []).
  { intros l this1 p1 fx Hfx. unfold commands in *.
    rewrite omap_app, Hfx. simpl.
    destruct (decide (l = listener_for e)) as [->|Hl];
      [|by rewrite call_listener_other].
    rewrite call_listener_for. destruct e as [|event| |event]; try done.
    - destruct (reset_outcome this1 p1) as (p' & -> & _). simpl.
      by destruct (spreads _ p1).
    - destruct (onScriptParsed_outcome event this1 p1) as (p' & -> & _).
      simpl. by destruct (attachment_cases event this1
        (source_of event (nextSource p1))) as [->|[r ->]]. }
  exact (dispatch_inv (λ _ _ fx, commands fx = []) e Hstep
           ls this p [] eq_refl).
Qed.

(** The commands of a move: an activation where a call of [initialize]
    reaches it, a resume at a call of [resume()], a fetch when the content
    of a source is asked for, and none otherwise. *)
Lemma move_commands s m :
  commands (calls_of_move s m) =
  match m with
  | Turn CallInitialize => [RuntimeEnable]
  | Turn EnableAcknowledged =>
      match awaits s with
      | InitStart :: _ => [RuntimeEnable]
      | AwaitRuntimeEnable :: _ => [DebuggerEnable]
      | _ => []
      end
  | Turn CallResume => [DebuggerResume]
  | AskContent source => [DebuggerGetScriptSource (contentScriptId source)]
  | _ => []
  end.
Proof.
  rewrite calls_of_move_any. destruct m as [i|c|source]; [|done|done].
  rewrite calls_of_turn_any. destruct i; try done.
  - destruct (awaits s) as [|[] rest]; done.
  - case_bool_decide; [apply dispatch_commands|done].
  - destruct (dispose_outcome (thr s) (proc s)) as (p' & -> & _).
    simpl. by destruct (spreads _ (proc s)).
Qed.

(** The calls of [initialize] suspended after a move. *)
Lemma move_awaits s m :
  awaits (move s m) =
  match m with
  | Turn CallInitialize => awaits s ++ [AwaitRuntimeEnable]
  | Turn EnableAcknowledged =>
      match awaits s with
      | InitStart :: rest => rest ++ [AwaitRuntimeEnable]
      | AwaitRuntimeEnable :: rest => rest ++ [AwaitDebuggerEnable]
      | _ :: rest => rest
      | [] => []
      end
  | Turn EnableFailed => tail (awaits s)
  | _ => awaits s
  end.
Proof.
  destruct m as [i|c|source]; [|done|done]. destruct i; cbn [move turn];
    try done.
  - destruct (awaits s) as [|pc rest] eqn:E; [by rewrite E|].
    unfold continue_initialize, answered. rewrite E.
    destruct pc; simpl; by rewrite ?app_nil_r.
  - by destruct (awaits s) as [|pc rest] eqn:E; rewrite ?E.
  - case_bool_decide; [|done].
    unfold finish. by destruct (dispatch _ e _ _) as [[this q] fx].
  - unfold finish. by destruct (dispose _ _) as [[this q] fx].
Qed.

(** X4.  The commands a thread sends, from its construction on and
    whatever the moves: one activation of the runtime domain for each call
    of [initialize], sent at the call; activations of the debugger domain,
    each sent when an activation of the runtime domain is acknowledged, so
    no more of them than of the former, and no more than there are
    acknowledgements; one resume command for each call of [resume()]; and
    one fetch of a script source each time the content of a source is
    asked for, for the script the source was made for.  No event, no reset,
    no registration of a script and no renaming sends a command: the text
    of a script is not fetched when the script is registered. *)
Theorem commands_are_activations_resumes_and_fetches (u : string)
    (p : Process) (moves : list Move) :
  let s := play (new_session (fresh_target u) p) moves in
  let sent := commands (trace s) in
  let inputs := omap input_of moves in
  let count (c : Command) := length (filter (λ c', c' = c) sent) in
  filter (λ c, c = DebuggerResume) sent = omap resume_call inputs ∧
  omap fetched sent = omap asked moves ∧
  count RuntimeEnable = length (filter (λ i, i = CallInitialize) inputs) ∧
  (count DebuggerEnable ≤ count RuntimeEnable)%nat ∧
  (count DebuggerEnable ≤
     length (filter (λ i, i = EnableAcknowledged) inputs))%nat ∧
  (∀ e, commands (calls_of_turn s (Push e)) = []) ∧
  commands (calls_of_turn s CallDispose) = [] ∧
  (∀ name, commands (calls_of_turn s (CallSetThreadName name)) = []).
Proof.
  intros s sent inputs count.
  assert (Hturns : (∀ e, commands (calls_of_turn s (Push e)) = []) ∧
    commands (calls_of_turn s CallDispose) = [] ∧
    (∀ name, commands (calls_of_turn s (CallSetThreadName name)) = [])).
  { split; [|split].
    - intros e. apply (move_commands s (Turn (Push e))).
    - apply (move_commands s (Turn CallDispose)).
    - intros name. apply (move_commands s (Turn (CallSetThreadName name))). }
  assert (Hsent :
    filter (λ c, c = DebuggerResume) sent = omap resume_call inputs ∧
    omap fetched sent = omap asked moves ∧
    count RuntimeEnable = length (filter (λ i, i = CallInitialize) inputs) ∧
    (count DebuggerEnable +
       length (filter (λ pc, pc = AwaitRuntimeEnable) (awaits s))
     ≤ count RuntimeEnable)%nat ∧
    (count DebuggerEnable ≤
       length (filter (λ i, i = EnableAcknowledged) inputs))%nat);
    [|destruct Hsent as (? & ? & ? & ? & ?);
      split; [done|]; split; [done|]; split; [done|];
      split; [lia|]; split; [lia|]; apply Hturns].
  unfold count, inputs, sent, s. clear.
  induction moves as [|m moves (IHr & IHf & IHe & IHd & IHa)] using rev_ind.
  { repeat split; simpl; lia. }
  pose proof (awaits_play (fresh_target u) p moves) as Hw.
  rewrite play_snoc, trace_move. unfold commands in *.
  rewrite !omap_app, !filter_app, !length_app.
  set (s := play _ moves) in *.
  pose proof (move_commands s m) as Hc. unfold commands in Hc.
  rewrite Hc, move_awaits, IHr, IHf. clear Hc IHr IHf.
  destruct m as [i|c|source]; [destruct i|..]; simpl;
    rewrite ?app_nil_r, ?Nat.add_0_r;
    try (split; [done|]; split; [done|]; split; [try done; lia|]; split; lia).
  - rewrite filter_app, length_app. simpl.
    split; [done|]. split; [done|]. split; [lia|]. split; lia.
  - destruct (awaits s) as [|pc rest] eqn:E; simpl;
      rewrite ?app_nil_r, ?Nat.add_0_r.
    { split; [done|]. split; [done|]. split; [lia|]. split; lia. }
    apply Forall_cons in Hw as [Hpc _].
    destruct pc; try done;
      rewrite ?filter_cons_True, ?filter_cons_False in IHd by done;
      simpl in *;
      rewrite ?filter_app, ?length_app, ?app_nil_r, ?Nat.add_0_r; simpl;
      (split; [done|]; split; [done|]; split; [lia|]; split; lia).
  - destruct (awaits s) as [|pc rest] eqn:E; simpl.
    { split; [done|]. split; [done|]. split; [lia|]. split; lia. }
    destruct (decide (pc = AwaitRuntimeEnable)) as [->|Hpc].
    + rewrite filter_cons_True in IHd by done. simpl in IHd.
      split; [done|]. split; [done|]. split; [lia|]. split; lia.
    + rewrite filter_cons_False in IHd by done.
      split; [done|]. split; [done|]. split; [lia|]. split; lia.
Qed.

(** ** The script map *)

(** X5.  As long as no caller has written to the map answered by
    [scripts()], whatever the turns since the construction of the thread
    and whatever contents have been asked for, the handle the script map
    holds under a script id is one whose content getter, when the content
    is asked for, sends one command: the fetch of the source of that very
    script id. *)
Theorem content_getter_fetches_its_script (target : Target) (p : Process)
    (moves : list Move) (id : string) (source : Source) :
  Forall (λ m, writes m = false) moves →
  let s := play (new_session target p) moves in
  JsMap.get id (local_scripts s) = Some source →
  getContent source = [CdpSend (DebuggerGetScriptSource id)] ∧
  calls_of_move s (AskContent source) =
    [CdpSend (DebuggerGetScriptSource id)].
Proof.
  intros Hmoves s Hget%JsMapFacts.elem_of_get.
  destruct (scripts_wf_play target p moves Hmoves) as [_ Hids].
  destruct (Hids id source Hget) as [Hid _].
  rewrite calls_of_move_any. unfold getContent. by rewrite Hid.
Qed.

(** X6.  On a thread that listens, a "script parsed" event that carries
    no source-map url, the field being absent or the empty string, makes
    [addSource] calls and no other call: one for each subscription of the
    closure, each with a new handle, the handles being numbered on from
    the handles made before, named as the event says and bound to the
    script id of the event.  Nothing is resolved and nothing is attached.
    There is one call at least, and one exactly when [initialize] has been
    called once. *)
Theorem script_without_source_map_is_only_added (u : string) (p : Process)
    (inputs : list Input) (event : ScriptParsedEvent) :
  truthy_opt (sourceMapURL event) = false →
  let s := run (listening_session (fresh_target u) p) inputs in
  let k := subscribed OnScriptParsed (_target (thr s)) in
  calls_of_turn s (Push (ScriptParsed event)) =
    (λ ref,
       AddSource {| sourceRef := ref;
                    sourceUrl := readableUrl event;
                    contentScriptId := scriptId event |})
    <$> seq (nextSource (proc s)) k ∧
  (1 ≤ k)%nat ∧
  (CallInitialize ∉ inputs → k = 1%nat).
Proof.
  intros Hmap s k.
  assert (Hs : hears s) by apply hears_run.
  destruct (turn_scriptParsed s event) as (_ & _ & _ & ->); [apply Hs|].
  fold k. split; [|split].
  - induction (seq (nextSource (proc s)) k) as [|ref refs IH]; [done|].
    rewrite !fmap_cons, bind_cons, IH.
    by rewrite attachment_without_map.
  - by apply hears_subscribed.
  - intros Honce. apply ready_subscribed. by apply ready_run, ready_listening.
Qed.


(** X8.  On a thread that listens, a reset, [dispose()] or a "contexts
    cleared" event, leaves the script map empty and makes no handle,
    whether it ends with an exception or not.  A reset that follows it
    still calls [removeSources], once at least, each time with no handle
    at all, ends without an exception and leaves the map empty.  The
    thread is not spent by a reset: a "script parsed" event that comes
    after it is registered as on a new thread, the map holding the one
    handle then, the last the event adds, named and bound as the event
    says. *)
Theorem reset_after_reset_removes_nothing (u : string) (p : Process)
    (inputs : list Input) (first second : Input) (event : ScriptParsedEvent) :
  resets first = true →
  resets second = true →
  let s := run (listening_session (fresh_target u) p) inputs in
  let s1 := turn s first in
  let again := calls_of_turn s1 second in
  let registered := additions (calls_of_turn s1 (Push (ScriptParsed event))) in
  local_scripts s1 = JsMap.empty ∧
  nextSource (proc s1) = nextSource (proc s) ∧
  Forall (λ ss, ss = []) (removals again) ∧
  (1 ≤ length (removals again))%nat ∧
  throws again = false ∧
  local_scripts (turn s1 second) = JsMap.empty ∧
  ∃ source,
    local_scripts (turn s1 (Push (ScriptParsed event))) =
      [(scriptId event, source)] ∧
    last registered = Some source ∧
    sourceUrl source = readableUrl event ∧
    contentScriptId source = scriptId event ∧
    (nextSource (proc s) ≤ sourceRef source)%nat.
Proof.
  intros Hfirst Hsecond s s1 again registered.
  assert (Hs : hears s) by apply hears_run.
  assert (Hs1 : hears s1) by by apply hears_turn.
  assert (Hreset : ∀ s0 reset, hears s0 → resets reset = true →
    ∃ k',
      local_scripts (turn s0 reset) = JsMap.empty ∧
      nextSource (proc (turn s0 reset)) = nextSource (proc s0) ∧
      removals (calls_of_turn s0 reset) =
        (if spreads (JsMap.values (local_scripts s0)) (proc s0)
         then JsMap.values (local_scripts s0) :: replicate k' [] else []) ∧
      throws (calls_of_turn s0 reset) =
        negb (spreads (JsMap.values (local_scripts s0)) (proc s0))).
  { intros s0 reset H0 Hr.
    destruct (turn_reset s0 reset Hr) as (_ & Hn & Hl & _ & _ & Hrm & Ht);
      [right; apply H0|].
    pose proof (hears_subscribed s0 OnExecutionContextsCleared H0) as Hk.
    destruct (match reset with CallDispose => 1%nat | _ => _ end)
      as [|k'] eqn:Ek.
    - destruct reset as [| | |[]| | | |]; try done; lia.
    - by exists k'. }
  destruct (Hreset s first Hs Hfirst) as (k1 & Hempty & Hnext & _).
  destruct (Hreset s1 second Hs1 Hsecond) as (k2 & Hempty2 & _ & Hrm & Ht).
  fold s1 in Hempty, Hnext. fold again in Hrm, Ht.
  rewrite Hempty in Hrm, Ht.
  assert (Hfits : spreads (JsMap.values JsMap.empty) (proc s1) = true)
    by (apply spreads_le; simpl; lia).
  rewrite Hfits in Hrm, Ht.
  split; [done|]. split; [done|].
  split; [rewrite Hrm; apply Forall_cons; split;
          [done|by apply Forall_replicate]|].
  split; [rewrite Hrm; simpl; lia|]. split; [done|]. split; [done|].
  destruct (turn_scriptParsed_hears s1 event Hs1)
    as (source & Hlast & Hlocal & Hprops & _).
  exists source. rewrite Hlocal, Hempty. split; [done|]. split; [done|].
  apply last_Some_elem_of in Hlast.
  destruct (Hprops source Hlast) as (Hname & Hid & Href).
  rewrite Hnext in Href. repeat split; try done. lia.
Qed.

(** ** The registry *)

(** X9.  In the calls a thread makes on the registry, whatever the moves,
    the writes of callers to the map answered by [scripts()] included: no
    handle is given to [addSource] twice.  And as long as no caller has
    written to that map: every handle given to [removeSources] was given
    to [addSource] before, and no handle is given to [removeSources] twice,
    neither within one call nor by two calls. *)
Theorem registry_calls_are_well_ordered (target : Target) (p : Process)
    (moves : list Move) :
  let s := play (new_session target p) moves in
  (∀ i1 i2 v,
     trace s !! i1 = Some (AddSource v) →
     trace s !! i2 = Some (AddSource v) → i1 = i2) ∧
  (Forall (λ m, writes m = false) moves →
   (∀ j ss v, trace s !! j = Some (RemoveSources ss) → v ∈ ss →
      ∃ i, (i < j)%nat ∧ trace s !! i = Some (AddSource v)) ∧
   (∀ j ss, trace s !! j = Some (RemoveSources ss) → NoDup ss) ∧
   (∀ j1 j2 ss1 ss2 v,
      trace s !! j1 = Some (RemoveSources ss1) →
      trace s !! j2 = Some (RemoveSources ss2) →
      v ∈ ss1 → v ∈ ss2 → j1 = j2)).
Proof.
  intros s. split.
  - by destruct (play_adds target p moves) as (_ & K6 & _).
  - intros Hmoves.
    by destruct (play_registry target p moves Hmoves)
      as (_ & _ & _ & _ & K2 & K4 & K5).
Qed.

(** X10.  As long as no caller has written to the map answered by
    [scripts()], at every moment, between two moves, the script map of a
    thread holds only handles that the registry has been given and has not
    been asked to remove, and it holds none of them twice. *)
Theorem script_map_holds_live_handles (target : Target) (p : Process)
    (moves : list Move) :
  Forall (λ m, writes m = false) moves →
  let s := play (new_session target p) moves in
  NoDup (JsMap.values (local_scripts s)) ∧
  (∀ v, v ∈ JsMap.values (local_scripts s) →
     (∃ i, trace s !! i = Some (AddSource v)) ∧
     (∀ j ss, trace s !! j = Some (RemoveSources ss) → v ∉ ss)).
Proof.
  intros Hmoves s.
  destruct (play_registry target p moves Hmoves)
    as (_ & Hdup & K3 & K3' & _).
  split; [done|]. intros v Hv. split; [by apply K3|].
  intros j ss. by apply K3'.
Qed.

(** X11.  In the calls of a thread that listens, an [attachSourceMap]
    call comes right after the [addSource] call of the same handle: a
    source map is attached to a handle at its registration or never, and
    so once at most. *)
Theorem source_map_is_attached_at_registration (u : string) (p : Process)
    (inputs : list Input) :
  let s := run (listening_session (fresh_target u) p) inputs in
  (∀ j source resolved,
     trace s !! j = Some (AttachSourceMap source resolved) →
     ∃ i, j = S i ∧ trace s !! i = Some (AddSource source)) ∧
  (∀ j1 j2 source resolved1 resolved2,
     trace s !! j1 = Some (AttachSourceMap source resolved1) →
     trace s !! j2 = Some (AttachSourceMap source resolved2) →
     j1 = j2).
Proof.
  intros s.
  destruct (run_adds (fresh_target u) p
              ([CallInitialize; EnableAcknowledged] ++ inputs))
    as (_ & K6 & K7).
  rewrite run_app in K6, K7.
  split; [done|].
  intros j1 j2 source resolved1 resolved2 Hj1 Hj2.
  destruct (K7 _ _ _ Hj1) as (i1 & -> & Hi1).
  destruct (K7 _ _ _ Hj2) as (i2 & -> & Hi2).
  f_equal. by eapply K6.
Qed.

(** ** Threads side by side *)

Lemma turn_other_maps s i r :
  r ≠ _scripts (thr s) → deref r (proc (turn s i)) = deref r (proc s).
Proof.
  intros Hr. destruct i; cbn [turn].
  - by destruct (continue_initialize_fields InitStart s)
      as (_ & _ & _ & _ & _ & ->).
  - destruct (awaits s) as [|pc rest]; [done|].
    by destruct (continue_initialize_fields pc (answered s))
      as (_ & _ & _ & _ & _ & ->).
  - by destruct (awaits s).
  - case_bool_decide; [|done].
    destruct (dispatch_frame (listeners (_target (thr s))) e (thr s) (proc s))
      as (_ & _ & _ & _ & _ & _ & Hd).
    specialize (Hd r Hr).
    by destruct (dispatch _ e _ _) as [[this q] fx].
  - done.
  - destruct (dispose_outcome (thr s) (proc s)) as (p' & -> & _ & Hd & _).
    by apply Hd.
  - done.
  - done.
Qed.

Lemma run_other_maps s inputs r :
  r ≠ _scripts (thr s) → deref r (proc (run s inputs)) = deref r (proc s).
Proof.
  intros Hr. induction inputs as [|i inputs IH] using rev_ind; [done|].
  rewrite run_snoc, turn_other_maps; [done|].
  destruct (run_evolves s inputs) as (_ & Hscripts & _). simpl in Hscripts.
  by rewrite Hscripts.
Qed.

(** The threads made one after the other get the maps allocated one after
    the other, all of them empty once the last thread is made. *)
Lemma construct_all_scripts targets p i this :
  (construct_all targets p).1 !! i = Some this →
  _scripts this = (nextMap p + i)%nat ∧
  deref (_scripts this) (construct_all targets p).2 = JsMap.empty.
Proof.
  assert (Hold : ∀ targets p r, (r < nextMap p)%nat →
    deref r (construct_all targets p).2 = deref r p).
  { clear. induction targets as [|target targets IH]; intros p r Hr; [done|].
    cbn [construct_all constructor].
    match goal with |- context [construct_all targets ?q] =>
      specialize (IH q r); destruct (construct_all targets q) as [others p2] end.
    simpl in *. rewrite IH by lia. unfold deref; simpl.
    apply lookup_total_insert_ne. lia. }
  revert p i. induction targets as [|target targets IH]; intros p i; [done|].
  cbn [construct_all constructor].
  match goal with |- context [construct_all targets ?q] =>
    specialize (IH q); specialize (Hold targets q (nextMap p));
    destruct (construct_all targets q) as [others p2] end.
  simpl in *. destruct i as [|i]; simpl.
  - intros [= <-]. simpl. split; [lia|].
    rewrite Hold by lia. unfold deref; simpl. apply lookup_total_insert_eq.
  - intros Hi. destruct (IH i Hi) as [-> Hempty]. split; [lia|done].
Qed.

(** X12.  Two threads made in one process do not share their script map:
    each gets a map of its own, empty once all the threads are made, and
    nothing that happens to one thread (events, resets, calls, in any
    number) changes the script map of the other. *)
Theorem threads_keep_separate_script_maps (targets : list Target)
    (p : Process) (i j : nat) (a b : Thread) :
  i ≠ j →
  (construct_all targets p).1 !! i = Some a →
  (construct_all targets p).1 !! j = Some b →
  scripts a ≠ scripts b ∧
  deref (scripts a) (construct_all targets p).2 = JsMap.empty ∧
  ∀ s inputs,
    thr s = a →
    deref (scripts b) (proc (run s inputs)) = deref (scripts b) (proc s).
Proof.
  intros Hij Ha Hb. unfold scripts.
  destruct (construct_all_scripts targets p i a Ha) as [Hia Hempty].
  destruct (construct_all_scripts targets p j b Hb) as [Hjb _].
  assert (Hne : _scripts a ≠ _scripts b) by lia.
  split; [done|]. split; [done|].
  intros s inputs Hs. apply run_other_maps. rewrite Hs. congruence.
Qed.


(** ** A failed activation *)


(** X14.  On a thread that listens, only a "script parsed" event and a
    reset touch the scripts: every other turn (a "paused" or "resumed"
    event, [resume()], [setThreadName], a navigation of the target, the
    steps of [initialize]) leaves the script map as it is, allocates no
    handle and makes no call on the registry. *)
Theorem other_turns_leave_scripts_alone (u : string) (p : Process)
    (inputs : list Input) (i : Input) :
  resets i = false →
  (∀ event, i ≠ Push (ScriptParsed event)) →
  let s := run (listening_session (fresh_target u) p) inputs in
  local_scripts (turn s i) = local_scripts s ∧
  nextSource (proc (turn s i)) = nextSource (proc s) ∧
  additions (calls_of_turn s i) = [] ∧
  removals (calls_of_turn s i) = [] ∧
  attach_calls (calls_of_turn s i) = [].
Proof.
  intros Hreset Hscript s.
  destruct (turn_quiet s i Hreset Hscript) as (Hlocal & Hnext & Hoff & _).
  split; [done|]. split; [done|]. by apply off_registry_none.
Qed.

(** ** Resets *)

(** X15.  A reset, [dispose()] on any thread or a "contexts cleared"
    event on a thread whose runtime domain is active, whatever came before
    (calls of [initialize] in any number, writes of callers to the map of
    [scripts()]), leaves the map read through [scripts()] empty.  When the
    handles the map holds fit into one call, the first [removeSources] call
    of the reset takes exactly the handles the map holds at that moment,
    those a lookup answers, each entry once; the calls after it, one for
    each further call of [initialize], whose closures run in the same turn,
    take nothing, and the turn ends without an exception.  When they do not
    fit, the turn ends with the [RangeError] of the spread, the map cleared
    and [removeSources] not called.  Whatever the turn, a [removeSources]
    call is never of a part: it takes all the handles held, or none. *)
Theorem reset_removes_held_sources_at_once (u : string) (p : Process)
    (moves : list Move) (reset : Input) :
  let s := play (new_session (fresh_target u) p) moves in
  let s' := turn s reset in
  let calls := calls_of_turn s reset in
  let held (v : Source) := ∃ id, JsMap.get id (local_scripts s) = Some v in
  resets reset = true →
  reset = CallDispose ∨ Runtime ∈ activated (_target (thr s)) →
  local_scripts s' = JsMap.empty ∧
  ((N.of_nat (length (local_scripts s)) ≤ maxArguments (proc s))%N →
     ∃ removed more,
       removals calls = removed :: more ∧
       (∀ v, v ∈ removed ↔ held v) ∧
       length removed = length (local_scripts s) ∧
       Forall (λ ss, ss = []) more ∧
       S (length more) =
         match reset with
         | CallDispose => 1%nat
         | _ => length (filter (λ m, m = Turn CallInitialize) moves)
         end ∧
       throws calls = false) ∧
  ((maxArguments (proc s) < N.of_nat (length (local_scripts s)))%N →
     removals calls = [] ∧ throws calls = true) ∧
  (∀ i ss, ss ∈ removals (calls_of_turn s i) →
     ss = [] ∨ ∀ v, v ∈ ss ↔ held v).
Proof.
  intros s s' calls held Hreset Hactive.
  assert (Hkeys : NoDup (JsMap.keys (local_scripts s))) by apply play_keys.
  assert (Hheld : ∀ v, v ∈ JsMap.values (local_scripts s) ↔ held v)
    by (intros v; by apply JsMapFacts.values_are_lookups).
  destruct (turn_reset s reset Hreset Hactive)
    as (_ & _ & Hlocal & _ & _ & Hremovals & Hthrows).
  fold s' in Hlocal. fold calls in Hremovals, Hthrows.
  pose proof (subscribed_cleared_play u p moves) as Hcount.
  fold s in Hcount.
  assert (Hk : ∃ k',
    match reset with
    | CallDispose => 1%nat
    | _ => subscribed OnExecutionContextsCleared (_target (thr s))
    end = S k' ∧
    S k' =
      match reset with
      | CallDispose => 1%nat
      | _ => length (filter (λ m, m = Turn CallInitialize) moves)
      end).
  { destruct reset as [| | |[]| | | |]; try done; [|by exists 0%nat].
    destruct Hactive as [?|Hactive]; [done|].
    pose proof (count_pos OnExecutionContextsCleared
      (listeners (_target (thr s)))
      (subscribed_when_active_play u p moves OnExecutionContextsCleared
         Hactive)) as Hpos.
    fold (subscribed OnExecutionContextsCleared (_target (thr s))) in Hpos.
    rewrite <- Hcount.
    destruct (subscribed _ _) as [|k']; [lia|by exists k']. }
  destruct Hk as (k' & Hk & Hk'). rewrite Hk in Hlocal, Hremovals, Hthrows.
  split; [done|]. split; [|split].
  - intros Hfits.
    assert (Hs : spreads (JsMap.values (local_scripts s)) (proc s) = true)
      by (apply spreads_le; by rewrite JsMapFacts.length_values).
    rewrite Hs in Hremovals, Hthrows.
    exists (JsMap.values (local_scripts s)), (replicate k' []).
    split; [done|]. split; [done|].
    split; [apply JsMapFacts.length_values|].
    split; [by apply Forall_replicate|].
    split; [by rewrite length_replicate|done].
  - intros Hover.
    assert (Hs : spreads (JsMap.values (local_scripts s)) (proc s) = false)
      by (apply spreads_gt; by rewrite JsMapFacts.length_values).
    by rewrite Hs in Hremovals, Hthrows.
  - intros i ss [->| ->]%removals_of_turn; [by right|by left].
Qed.

End Further.

(** * The further properties on sample inputs *)

(** The anonymous script ["7"], registered and then asked for its
    content. *)
Lemma content_getter_fetches_its_script_witness :
  let source :=
    {| sourceRef := 0; sourceUrl := "VM7"; contentScriptId := "7" |} in
  let moves :=
    [Turn CallInitialize; Turn EnableAcknowledged;
     Turn (Push (ScriptParsed anonymous_script)); AskContent source] in
  let s :=
    play (resolver := no_base)
      (new_session (fresh_target "") initial_process) moves in
  Forall (λ m, writes m = false) moves ∧
  JsMap.get "7" (local_scripts s) = Some source ∧
  getContent source = [CdpSend (DebuggerGetScriptSource "7")] ∧
  calls_of_move (resolver := no_base) s (AskContent source) =
    [CdpSend (DebuggerGetScriptSource "7")].
Proof.
  intros source moves s.
  assert (Hmoves : Forall (λ m, writes m = false) moves)
    by (repeat (apply Forall_cons; split; [reflexivity|]); apply Forall_nil_2).
  assert (Hget : JsMap.get "7" (local_scripts s) = Some source)
    by reflexivity.
  split; [exact Hmoves|]. split; [exact Hget|].
  exact (content_getter_fetches_its_script (resolver := no_base)
           (fresh_target "") initial_process moves "7" source Hmoves Hget).
Defined.

(** An anonymous script, which has no source map, is only added: twice
    when [initialize] has been called, and carried on, a second time. *)
Lemma script_without_source_map_is_only_added_witness :
  let s :=
    run (resolver := one_page)
      (listening_session (resolver := one_page)
         (fresh_target "https://x/index.html") initial_process)
      [CallInitialize; EnableAcknowledged; EnableAcknowledged] in
  truthy_opt (sourceMapURL anonymous_script) = false ∧
  calls_of_turn (resolver := one_page) s (Push (ScriptParsed anonymous_script))
  = [AddSource {| sourceRef := 0; sourceUrl := "VM7";
                  contentScriptId := "7" |};
     AddSource {| sourceRef := 1; sourceUrl := "VM7";
                  contentScriptId := "7" |}].
Proof.
  intros s. split; [reflexivity|].
  destruct (script_without_source_map_is_only_added (resolver := one_page)
              "https://x/index.html" initial_process
              [CallInitialize; EnableAcknowledged; EnableAcknowledged]
              anonymous_script eq_refl) as (Hcalls & _).
  exact Hcalls.
Defined.

(** [dispose()], then a "contexts cleared" event, then a script. *)
Lemma reset_after_reset_removes_nothing_witness :
  let s :=
    run (resolver := one_page)
      (listening_session (resolver := one_page)
         (fresh_target "https://x/index.html") initial_process)
      [Push (ScriptParsed app_script)] in
  let s1 := turn (resolver := one_page) s CallDispose in
  let again :=
    calls_of_turn (resolver := one_page) s1 (Push ExecutionContextsCleared) in
  resets CallDispose = true ∧
  resets (Push ExecutionContextsCleared) = true ∧
  local_scripts s1 = JsMap.empty ∧
  Forall (λ ss, ss = []) (removals again) ∧
  (1 ≤ length (removals again))%nat ∧
  throws again = false ∧
  local_scripts (turn (resolver := one_page) s1 (Push ExecutionContextsCleared))
    = JsMap.empty.
Proof.
  intros s s1 again. split; [reflexivity|]. split; [reflexivity|].
  destruct (reset_after_reset_removes_nothing (resolver := one_page)
              "https://x/index.html" initial_process
              [Push (ScriptParsed app_script)] CallDispose
              (Push ExecutionContextsCleared) anonymous_script
              eq_refl eq_refl)
    as (Hempty & _ & Hnone & Hsome & Hthrows & Hempty' & _).
  split; [exact Hempty|]. split; [exact Hnone|]. split; [exact Hsome|].
  split; [exact Hthrows|exact Hempty'].
Defined.

(** Two scripts, the content of one asked for, and a "contexts cleared"
    event in between. *)
Lemma script_map_holds_live_handles_witness :
  let moves :=
    [Turn CallInitialize; Turn EnableAcknowledged;
     Turn (Push (ScriptParsed anonymous_script));
     Turn (Push ExecutionContextsCleared);
     Turn (Push (ScriptParsed app_script));
     AskContent stray_source] in
  let s :=
    play (resolver := one_page)
      (new_session (fresh_target "https://x/index.html") initial_process)
      moves in
  Forall (λ m, writes m = false) moves ∧
  NoDup (JsMap.values (local_scripts s)) ∧
  ∀ v, v ∈ JsMap.values (local_scripts s) →
    (∃ i, trace s !! i = Some (AddSource v)) ∧
    (∀ j ss, trace s !! j = Some (RemoveSources ss) → v ∉ ss).
Proof.
  intros moves s.
  assert (Hmoves : Forall (λ m, writes m = false) moves)
    by (repeat (apply Forall_cons; split; [reflexivity|]); apply Forall_nil_2).
  split; [exact Hmoves|].
  exact (script_map_holds_live_handles (resolver := one_page)
           (fresh_target "https://x/index.html") initial_process moves Hmoves).
Defined.

(** The first two threads of a process. *)
Lemma threads_keep_separate_script_maps_witness :
  let targets := [fresh_target "a"; fresh_target "b"] in
  let a :=
    {| _target := fresh_target "a"; _threadId := 1; _threadName := "";
       _pausedDetails := JsUndefined; _scripts := 0 |} in
  let b :=
    {| _target := fresh_target "b"; _threadId := 2; _threadName := "";
       _pausedDetails := JsUndefined; _scripts := 1 |} in
  0%nat ≠ 1%nat ∧
  (construct_all targets initial_process).1 !! 0%nat = Some a ∧
  (construct_all targets initial_process).1 !! 1%nat = Some b ∧
  scripts a ≠ scripts b ∧
  deref (scripts a) (construct_all targets initial_process).2 = JsMap.empty ∧
  ∀ s inputs,
    thr s = a →
    deref (scripts b) (proc (run (resolver := no_base) s inputs))
    = deref (scripts b) (proc s).
Proof.
  intros targets a b.
  assert (Hne : 0%nat ≠ 1%nat) by discriminate.
  split; [exact Hne|]. split; [reflexivity|]. split; [reflexivity|].
  exact (threads_keep_separate_script_maps (resolver := no_base)
           targets initial_process 0 1 a b Hne eq_refl eq_refl).
Defined.


(** A "paused" event leaves the scripts alone. *)
Lemma other_turns_leave_scripts_alone_witness :
  let i := Push (Paused at_breakpoint) in
  let s :=
    run (resolver := one_page)
      (listening_session (resolver := one_page)
         (fresh_target "https://x/index.html") initial_process)
      [Push (ScriptParsed app_script)] in
  resets i = false ∧
  (∀ event, i ≠ Push (ScriptParsed event)) ∧
  local_scripts (turn (resolver := one_page) s i) = local_scripts s ∧
  nextSource (proc (turn (resolver := one_page) s i)) = nextSource (proc s) ∧
  additions (calls_of_turn (resolver := one_page) s i) = [] ∧
  removals (calls_of_turn (resolver := one_page) s i) = [] ∧
  attach_calls (calls_of_turn (resolver := one_page) s i) = [].
Proof.
  intros i s.
  assert (Hother : ∀ event, i ≠ Push (ScriptParsed event))
    by (intros event; discriminate).
  split; [reflexivity|]. split; [exact Hother|].
  exact (other_turns_leave_scripts_alone (resolver := one_page)
           "https://x/index.html" initial_process
           [Push (ScriptParsed app_script)] i eq_refl Hother).
Defined.

(** A script is registered, a caller of [scripts()] sets a handle of its
    own, and a "contexts cleared" event comes: both handles are removed, in
    one call. *)
Lemma reset_removes_held_sources_at_once_witness :
  let moves :=
    [Turn CallInitialize; Turn EnableAcknowledged;
     Turn (Push (ScriptParsed app_script));
     OnScripts (MapSet "41" stray_source)] in
  let reset := Push ExecutionContextsCleared in
  let s :=
    play (resolver := one_page)
      (new_session (fresh_target "https://x/index.html") initial_process)
      moves in
  resets reset = true ∧
  (reset = CallDispose ∨ Runtime ∈ activated (_target (thr s))) ∧
  local_scripts (turn (resolver := one_page) s reset) = JsMap.empty ∧
  ∃ removed,
    removals (calls_of_turn (resolver := one_page) s reset) = [removed] ∧
    length removed = 2%nat.
Proof.
  intros moves reset s.
  assert (Hactive : reset = CallDispose ∨
                    Runtime ∈ activated (_target (thr s)))
    by (right; apply list_elem_of_here).
  split; [reflexivity|]. split; [exact Hactive|].
  destruct (reset_removes_held_sources_at_once (resolver := one_page)
              "https://x/index.html" initial_process moves reset
              eq_refl Hactive) as (Hempty & Hfits & _).
  split; [exact Hempty|].
  destruct Hfits as (removed & more & Hremovals & _ & Hlength & _ & Hmore & _);
    [vm_compute; discriminate|].
  exists removed. split; [|exact Hlength].
  destruct more; [exact Hremovals|discriminate Hmore].
Defined.
